(** * bare-git-cli: tree surgery, three-way merge and ref publication

    A shallow embedding of the scripts [add-file-deep.js],
    [remove-file-deep.js], [merge-branch.js], [read-file.js],
    [list-files.js] and [remove-branch.js], which drive a bare git
    repository through the isomorphic-git API.

    Object ids.  A git object id is the SHA-1 of the canonical encoding
    of the object.  Under the collision-freeness assumption an id and the
    content it addresses determine each other, so an id is modelled by
    that content: [BlobSha c] is the id of the blob with bytes [c] and
    [TreeSha es] the id of the tree whose entries, in the order
    [git.readTree] returns them, are [es].  Two ids are [===] in the
    scripts exactly when the two terms are equal.

    Trees the library does not read.  The tree parser of isomorphic-git
    refuses some entry names, "." among them: [git.writeTree] stores a
    tree that holds such a name, and every later [git.readTree] of it
    throws UnsafeFilepathError.  The id of such a tree is
    [UnsafeTreeSha es]; [TreeSha es] is the id of a tree the library
    reads, so that a statement about a given [TreeSha es] is a statement
    about a tree the library reads.  Which names the parser refuses is
    left open ([TreeParser]); [writeTree] gives the id [TreeSha es] to
    the trees whose names it accepts and to no other (lemma
    [treeOid_read]).

    The repository is assumed complete (every id handed to a read names
    a stored object), so a read is determined by the id alone; the
    [objects] and [commits] components of the state record which objects
    have been written to the object database. *)

From stdpp Require Import base option list strings gmap sorting.
From Stdlib Require Import ZArith Lia Ascii.

Set Warnings "-register-all,-clear-no-such-hyp".

(** ** Data model *)

(** [entry.type] of a tree entry. *)
Inductive objtype := blob | tree.

Global Instance objtype_eq_dec : EqDecision objtype.
Proof. solve_decision. Defined.

(** A tree entry [{ mode, path, oid, type }] as isomorphic-git presents
    it; [O] is the type of ids. *)
Record entry_ (O : Type) := Entry {
  mode : string;
  path : string;
  oid : O;
  type : objtype
}.
Arguments Entry {O} _ _ _ _.
Arguments mode {O} _.
Arguments path {O} _.
Arguments oid {O} _.
Arguments type {O} _.

(** Ids of blobs, of the trees the library reads, and of the trees that
    hold a name its parser refuses. *)
Inductive sha : Type :=
| BlobSha (content : string)
| TreeSha (entries : list (entry_ sha))
| UnsafeTreeSha (entries : list (entry_ sha)).

Abbreviation entry := (entry_ sha).

(** The canonical empty tree (4b825dc6...). *)
Definition emptyTree : sha := TreeSha [].

(** [author] / [committer] of a commit. *)
Record person := Person {
  name : string;
  email : string;
  timestamp : Z;
  timezoneOffset : Z
}.

Global Instance person_eq_dec : EqDecision person.
Proof. solve_decision. Defined.

(** Ids of commits: the tree, the parents, the identity and the message. *)
Inductive commitSha : Type :=
| CommitSha (c_tree : sha) (c_parent : list commitSha)
            (c_author : person) (c_message : string).

Definition commit_tree (c : commitSha) : sha :=
  match c with CommitSha t _ _ _ => t end.

(** *** Structural induction through the entry lists *)

Section sha_induction.
Variable P : sha → Prop.
Hypothesis Hblob : ∀ c, P (BlobSha c).
Hypothesis Htree : ∀ es, Forall (λ e, P (oid e)) es → P (TreeSha es).
Hypothesis Hunsafe : ∀ es, Forall (λ e, P (oid e)) es → P (UnsafeTreeSha es).

Fixpoint sha_ind' (s : sha) : P s :=
  match s with
  | BlobSha c => Hblob c
  | TreeSha es =>
      Htree es
        ((fix go (l : list entry) : Forall (λ e, P (oid e)) l :=
            match l with
            | [] => List.Forall_nil _
            | e :: l' => List.Forall_cons _ e l' (sha_ind' (oid e)) (go l')
            end) es)
  | UnsafeTreeSha es =>
      Hunsafe es
        ((fix go (l : list entry) : Forall (λ e, P (oid e)) l :=
            match l with
            | [] => List.Forall_nil _
            | e :: l' => List.Forall_cons _ e l' (sha_ind' (oid e)) (go l')
            end) es)
  end.
End sha_induction.

(** *** Equality of ids ([===] on SHA strings) *)

Fixpoint sha_eqb (a b : sha) : bool :=
  match a, b with
  | BlobSha c, BlobSha c' => bool_decide (c = c')
  | TreeSha es, TreeSha es' =>
      (fix go (l l' : list entry) : bool :=
         match l, l' with
         | [], [] => true
         | e :: l, e' :: l' =>
             bool_decide (mode e = mode e') && bool_decide (path e = path e')
             && bool_decide (type e = type e') && sha_eqb (oid e) (oid e')
             && go l l'
         | _, _ => false
         end) es es'
  | UnsafeTreeSha es, UnsafeTreeSha es' =>
      (fix go (l l' : list entry) : bool :=
         match l, l' with
         | [], [] => true
         | e :: l, e' :: l' =>
             bool_decide (mode e = mode e') && bool_decide (path e = path e')
             && bool_decide (type e = type e') && sha_eqb (oid e) (oid e')
             && go l l'
         | _, _ => false
         end) es es'
  | _, _ => false
  end.

Lemma sha_eqb_eq a b : sha_eqb a b = true ↔ a = b.
Proof.
  revert b.
  induction a as [c|es IH|es IH] using sha_ind'; intros [c'|es'|es']; simpl;
    try (split; [done|congruence]).
  - rewrite bool_decide_eq_true. split; congruence.
  - transitivity (es = es'); [|split; congruence].
    revert es'. induction IH as [|e l He _ IHl]; intros [|e' l']; try done.
    rewrite !andb_true_iff, !bool_decide_eq_true, He, IHl.
    destruct e, e'; simpl. split; [intros ((((-> & ->) & ->) & ->) & ->); done|].
    intros [=]; subst; done.
  - transitivity (es = es'); [|split; congruence].
    revert es'. induction IH as [|e l He _ IHl]; intros [|e' l']; try done.
    rewrite !andb_true_iff, !bool_decide_eq_true, He, IHl.
    destruct e, e'; simpl. split; [intros ((((-> & ->) & ->) & ->) & ->); done|].
    intros [=]; subst; done.
Qed.

Global Instance sha_eq_dec : EqDecision sha.
Proof.
  intros a b. destruct (sha_eqb a b) eqn:E.
  - left. by apply sha_eqb_eq.
  - right. intros H%sha_eqb_eq. congruence.
Defined.

Global Instance entry_eq_dec : EqDecision entry.
Proof. solve_decision. Defined.

(** [es.find(e => e.path === p)] *)
Abbreviation findPath p es := (find (λ e : entry, bool_decide (path e = p)) es).

Fixpoint commit_eqb (a b : commitSha) : bool :=
  match a, b with
  | CommitSha t ps au m, CommitSha t' ps' au' m' =>
      bool_decide (t = t')
      && (fix go (l l' : list commitSha) : bool :=
            match l, l' with
            | [], [] => true
            | c :: l, c' :: l' => commit_eqb c c' && go l l'
            | _, _ => false
            end) ps ps'
      && bool_decide (au = au') && bool_decide (m = m')
  end.

Section commit_induction.
Variable P : commitSha → Prop.
Hypothesis Hcommit : ∀ t ps au m, Forall P ps → P (CommitSha t ps au m).

Fixpoint commit_ind' (c : commitSha) : P c :=
  match c with
  | CommitSha t ps au m =>
      Hcommit t ps au m
        ((fix go (l : list commitSha) : Forall P l :=
            match l with
            | [] => List.Forall_nil _
            | c :: l' => List.Forall_cons _ c l' (commit_ind' c) (go l')
            end) ps)
  end.
End commit_induction.

Lemma commit_eqb_eq a b : commit_eqb a b = true ↔ a = b.
Proof.
  revert b. induction a as [t ps au m IH] using commit_ind'.
  intros [t' ps' au' m']; simpl.
  rewrite !andb_true_iff, !bool_decide_eq_true.
  assert ((fix go (l l' : list commitSha) : bool :=
            match l, l' with
            | [], [] => true
            | c :: l, c' :: l' => commit_eqb c c' && go l l'
            | _, _ => false
            end) ps ps' = true ↔ ps = ps') as ->.
  { revert ps'. induction IH as [|c l Hc _ IHl]; intros [|c' l']; try done.
    rewrite andb_true_iff, Hc, IHl. split; [intros [-> ->]; done|].
    intros [=]; subst; done. }
  split; [intros [[[-> ->] ->] ->]; done|]. intros [=]; subst; done.
Qed.

Global Instance commit_eq_dec : EqDecision commitSha.
Proof.
  intros a b. destruct (commit_eqb a b) eqn:E.
  - left. by apply commit_eqb_eq.
  - right. intros H%commit_eqb_eq. congruence.
Defined.

(** ** The repository and the effects of the scripts *)

(** The state the scripts act on: the objects written to the object
    database and the ref store, keyed by full ref name. *)
Record repo := Repo {
  objects : list sha;
  commits : list commitSha;
  refs : gmap string commitSha
}.

(** The errors the scripts and the library raise.  The scripts throw
    plain [Error]s; each constructor stands for one message. *)
Inductive error :=
| ObjectTypeError (o : sha)
    (* isomorphic-git: the object read as a tree is a blob *)
| UnsafeFilepathError (o : sha)
    (* isomorphic-git: the tree read holds a name the parser refuses;
       the message quotes that name *)
| RefNotFound (ref : string)
    (* isomorphic-git NotFoundError, from git.resolveRef *)
| RefDoesNotExist (ref : string)
    (* "Ref ... does not exist. Cannot remove file." *)
| SegmentNotFound (part : string) (treeSha : sha)
    (* "Path segment '...' not found in tree ..." (NotFound) *)
| NotADirectory (part : string)
    (* "... is not a directory." (TypeMismatch) *)
| PathIsFile (part : string)
    (* "Path segment '...' is a file, not a directory." *)
| PathNotFound (part : string)
    (* "Path '...' not found (missing '...')." *)
| MergeConflict (p : string)
    (* "Merge Conflict at file '...'. No resolution provided." *)
| ConcurrencyError (ref : string) (parentSha currentSha : option commitSha)
    (* "Concurrency Error: ..." (Stale) *)
| TypeError
    (* thrown by the runtime: Buffer.from on a non-string, reading a
       property of undefined *)
| OutOfFuel.

Inductive result (A : Type) :=
| Ok (a : A)
| Err (e : error).
Arguments Ok {A} _.
Arguments Err {A} _.

(** Computations that read and write the repository and may throw. *)
Definition M (A : Type) : Type := repo → result A * repo.

Global Instance M_ret : MRet M := λ A a st, (Ok a, st).
Global Instance M_bind : MBind M := λ A B f m st,
  match m st with
  | (Ok a, st') => f a st'
  | (Err e, st') => (Err e, st')
  end.

Definition throw {A} (e : error) : M A := λ st, (Err e, st).

(** [try { m } catch (e) { h }] *)
Definition try_catch {A} (m : M A) (h : error → M A) : M A := λ st,
  match m st with
  | (Ok a, st') => (Ok a, st')
  | (Err e, st') => h e st'
  end.

(** *** What [main] of a script throws *)

(** What these scripts throw: an error of the library or of a helper
    above, or one of their own messages. *)
Inductive failure :=
| Thrown (e : error)
| RefNotFoundError (refName : string)
    (* "Ref '...' not found." *)
| NotAFile (filePath : string) (kind : objtype)
    (* "Path '...' points to a ..., not a file." *)
| InsideFile (part : string)
    (* "Path '...' is inside a file, not a directory." *)
| FolderNotFound (targetPath : string)
    (* "Path '...' not found." *)
| BranchNotFound (branchName : string).
    (* "Branch '...' not found." *)

Inductive outcome (A : Type) :=
| Done (a : A)
| Failed (f : failure).
Arguments Done {A} _.
Arguments Failed {A} _.

(** *** The isomorphic-git calls the scripts make *)

(** The test the library's tree parser applies to every entry name of a
    tree it reads: [unsafeFilepath p] holds when it refuses the name
    [p], as it does ".".  The test is the library's own; the scripts and
    the properties below are stated for whatever test it is. *)
Class TreeParser := unsafeFilepath : string → bool.

Section scripts.
Context {parser : TreeParser}.

(** [GitTree] keeps its entries sorted by [comparePath], the comparison
    of the [path] strings; JavaScript's sort is stable. *)
Fixpoint insertEntry (e : entry) (l : list entry) : list entry :=
  match l with
  | [] => [e]
  | x :: l' =>
      if String.leb (path e) (path x) then e :: l else x :: insertEntry e l'
  end.

Definition sortEntries (l : list entry) : list entry := foldr insertEntry [] l.

(** [git.readTree({ oid })]: the entries of the tree; ObjectTypeError
    when the object is a blob, and UnsafeFilepathError when the tree
    holds a name the parser refuses. *)
Definition readTree (oid : sha) : M (list entry) := λ st,
  match oid with
  | TreeSha es => (Ok es, st)
  | UnsafeTreeSha _ => (Err (UnsafeFilepathError oid), st)
  | BlobSha _ => (Err (ObjectTypeError oid), st)
  end.

(** An object is written to the database only when it is not there yet. *)
Definition writeObject (o : sha) : M sha := λ st,
  (Ok o,
   if decide (o ∈ objects st) then st
   else Repo (objects st ++ [o]) (commits st) (refs st)).

(** The id of the tree with the entries [es]: one the library will not
    read when a name of [es] is refused by its parser. *)
Definition treeOid (es : list entry) : sha :=
  if existsb (λ e, unsafeFilepath (path e)) es then UnsafeTreeSha es
  else TreeSha es.

(** [git.writeTree({ tree })]: the write does not test the names. *)
Definition writeTree (tree : list entry) : M sha :=
  writeObject (treeOid (sortEntries tree)).

(** [git.writeBlob({ blob })] *)
Definition writeBlob (content : string) : M sha :=
  writeObject (BlobSha content).

(** [git.writeCommit({ commit })]; a commit given without a tree is
    rendered with the empty tree. *)
Definition writeCommit (message : string) (tree : option sha)
    (parent : list commitSha) (author : person) : M commitSha := λ st,
  let c := CommitSha (default emptyTree tree) parent author message in
  (Ok c,
   if decide (c ∈ commits st) then st
   else Repo (objects st) (commits st ++ [c]) (refs st)).

(** [git.readCommit({ oid })] followed by [.commit.tree] *)
Definition readCommitTree (oid : commitSha) : M sha := mret (commit_tree oid).

(** The places [git.resolveRef] looks a name up in, in this order. *)
Definition refpaths (ref : string) : list string :=
  [ref; "refs/" +:+ ref; "refs/tags/" +:+ ref; "refs/heads/" +:+ ref;
   "refs/remotes/" +:+ ref; "refs/remotes/" +:+ ref +:+ "/HEAD"].

(** [git.resolveRef({ ref })]; symbolic and packed refs are not
    modelled. *)
Definition resolveRef (ref : string) : M commitSha := λ st,
  match omap (λ p, refs st !! p) (refpaths ref) with
  | c :: _ => (Ok c, st)
  | [] => (Err (RefNotFound ref), st)
  end.

(** [git.writeRef({ ref, value, force: true })] *)
Definition writeRef (ref : string) (value : commitSha) : M unit := λ st,
  (Ok (), Repo (objects st) (commits st) (<[ref := value]> (refs st))).

(** The other writers of the repository.  The scripts hold no lock: while
    one of them computes, other processes may write objects and move
    refs.  [concurrently others] is the point where their effect
    [others] on the repository becomes visible to the script. *)
Definition concurrently (others : repo → repo) : M unit := λ st,
  (Ok (), others st).

(** *** Strings *)

(** [s.replace(/^\/+/, '')] *)
Fixpoint stripLeadingSlashes (s : string) : string :=
  match s with
  | String c s' => if decide (c = "/"%char) then stripLeadingSlashes s' else s
  | "" => ""
  end.

(** [s.split('/')] *)
Fixpoint splitSlash (s : string) : list string :=
  match s with
  | "" => [""]
  | String c s' =>
      if decide (c = "/"%char) then "" :: splitSlash s'
      else match splitSlash s' with
           | [] => [String c ""]
           | w :: ws => String c w :: ws
           end
  end.

(** [s.replace(pat, by)] for a string pattern: the first occurrence. *)
Fixpoint replaceFirst (pat by_ s : string) : string :=
  if String.prefix pat s
  then by_ +:+ String.substring (String.length pat)
                 (String.length s - String.length pat) s
  else match s with
       | "" => ""
       | String c s' => String c (replaceFirst pat by_ s')
       end.

(** ** add-file-deep.js *)

(** [upsertTree(dir, parentTreeSha, pathParts, fileBlobSha)].  The
    caller passes the result of a [split], which is never the empty
    array. *)
Fixpoint upsertTree (parentTreeSha : option sha) (pathParts : list string)
    (fileBlobSha : sha) : M sha :=
  match pathParts with
  | [] => throw TypeError
  | currentPart :: remainingParts =>
      entries ← match parentTreeSha with
                | Some t => readTree t
                | None => mret []
                end;
      let entries := filter (λ e, path e ≠ currentPart) entries in
      match remainingParts with
      | [] =>
          writeTree (entries ++ [Entry "100644" currentPart fileBlobSha blob])
      | _ :: _ =>
          existingEntry ← match parentTreeSha with
                          | Some t =>
                              es ← readTree t;
                              mret (find (λ e, bool_decide (path e = currentPart)) es)
                          | None => mret None
                          end;
          let existingSubTreeSha := oid <$> existingEntry in
          newSubTreeSha ← upsertTree existingSubTreeSha remainingParts fileBlobSha;
          writeTree (entries ++ [Entry "040000" currentPart newSubTreeSha tree])
      end
  end.

(** The author the two file scripts sign with; [now] is
    [Math.floor(Date.now() / 1000)]. *)
Definition apiBot (now : Z) : person := Person "API Bot" "bot@example.com" now 0.

(** [refs/heads/${refName.replace('refs/heads/', '')}] *)
Definition headsRef (refName : string) : string :=
  "refs/heads/" +:+ replaceFirst "refs/heads/" "" refName.

(** [main()] of add-file-deep.js, up to the outer [catch] that logs the
    error. *)
Definition add_file_deep (refName filePath fileContent : string) (now : Z)
    (others : repo → repo) : M commitSha :=
  (* STEP 1: resolve parent commit *)
  parentSha ← try_catch (c ← resolveRef refName; mret (Some c))
                 (λ _, mret None);
  (* STEP 2: get root tree *)
  rootTreeSha ← match parentSha with
                | Some p => t ← readCommitTree p; mret (Some t)
                | None => mret None
                end;
  (* STEP 3: create the blob *)
  blobSha ← writeBlob fileContent;
  (* STEP 4: recursive tree surgery *)
  let pathParts := splitSlash (stripLeadingSlashes filePath) in
  newRootTreeSha ← upsertTree rootTreeSha pathParts blobSha;
  (* STEP 5: create commit *)
  commitSha ← writeCommit ("Add " +:+ filePath) (Some newRootTreeSha)
                 (match parentSha with Some p => [p] | None => [] end)
                 (apiBot now);
  concurrently others;;
  (* STEP 6: update ref (manual compare-and-swap) *)
  currentSha ← try_catch (c ← resolveRef refName; mret (Some c))
                  (λ _, mret None);
  if decide (currentSha ≠ parentSha)
  then throw (ConcurrencyError refName parentSha currentSha)
  else writeRef (headsRef refName) commitSha;; mret commitSha.

(** ** remove-file-deep.js *)

(** [removeTreeEntry(dir, treeSha, pathParts)]; [None] is the [null]
    that signals an emptied tree. *)
Fixpoint removeTreeEntry (treeSha : sha) (pathParts : list string)
    : M (option sha) :=
  match pathParts with
  | [] => throw TypeError
  | currentPart :: remainingParts =>
      (* 1. read existing tree *)
      entries ← readTree treeSha;
      (* 2. find the target entry *)
      match list_find (λ e, path e = currentPart) entries with
      | None => throw (SegmentNotFound currentPart treeSha)
      | Some (entryIndex, entry) =>
          (* 3. determine action *)
          entries ←
            match remainingParts with
            | [] => mret (delete entryIndex entries)
            | _ :: _ =>
                if decide (type entry ≠ tree)
                then throw (NotADirectory currentPart)
                else
                  newSubTreeSha ← removeTreeEntry (oid entry) remainingParts;
                  match newSubTreeSha with
                  | None => mret (delete entryIndex entries)
                  | Some s =>
                      mret (<[entryIndex :=
                                Entry (mode entry) (path entry) s (type entry)]>
                              entries)
                  end
            end;
          (* 4. final check for this folder *)
          match entries with
          | [] => mret None
          | _ :: _ => t ← writeTree entries; mret (Some t)
          end
      end
  end.

(** [main()] of remove-file-deep.js.  A failed removal exits the
    process, so nothing after it runs. *)
Definition remove_file_deep (refName filePath : string) (now : Z)
    (others : repo → repo) : M commitSha :=
  (* STEP 1: resolve parent commit *)
  parentSha ← try_catch (resolveRef refName)
                 (λ _, throw (RefDoesNotExist refName));
  (* STEP 2: get root tree *)
  rootTreeSha ← readCommitTree parentSha;
  (* STEP 3: recursive removal *)
  let pathParts := splitSlash (stripLeadingSlashes filePath) in
  newRootTreeSha ← removeTreeEntry rootTreeSha pathParts;
  newRootTreeSha ← match newRootTreeSha with
                   | None => writeTree []
                   | Some t => mret t
                   end;
  (* STEP 4: create commit *)
  commitSha ← writeCommit ("Remove " +:+ filePath) (Some newRootTreeSha)
                 [parentSha] (apiBot now);
  concurrently others;;
  (* STEP 5: update ref (manual compare-and-swap) *)
  currentSha ← resolveRef refName;
  if decide (currentSha ≠ parentSha)
  then throw (ConcurrencyError refName (Some parentSha) (Some currentSha))
  else writeRef (headsRef refName) commitSha;; mret commitSha.

(** ** read-file.js *)

(** What [resolveBlobEntry] returns: [{ sha, mode, type }]. *)
Record target := Target {
  t_sha : sha;
  t_mode : option string;
  t_type : objtype
}.

(** The loop of [resolveBlobEntry] over the remaining [parts]; [prev] is
    [parts[i-1]] and [cur] holds [currentSha], [mode] and [type]. *)
Fixpoint walkParts (parts : list string) (prev : string) (cur : target)
    : M target :=
  match parts with
  | [] => mret cur
  | part :: rest =>
      if decide (t_type cur ≠ tree) then throw (PathIsFile prev)
      else
        es ← readTree (t_sha cur);
        match find (λ e, bool_decide (path e = part)) es with
        | None => throw (PathNotFound part)
        | Some e => walkParts rest part (Target (oid e) (Some (mode e)) (type e))
        end
  end.

(** [s.replace(/\/+$/, '')] *)
Fixpoint stripTrailingSlashes (s : string) : string :=
  match s with
  | "" => ""
  | String c s' =>
      match stripTrailingSlashes s' with
      | "" => if decide (c = "/"%char) then "" else String c ""
      | r => String c r
      end
  end.

(** [resolveBlobEntry(dir, rootTreeSha, targetPath)] on the split path. *)
Definition resolveBlobParts (rootTreeSha : sha) (parts : list string)
    : M target :=
  walkParts parts "" (Target rootTreeSha None tree).

Definition resolveBlobEntry (rootTreeSha : sha) (targetPath : string)
    : M target :=
  resolveBlobParts rootTreeSha
    (splitSlash (stripTrailingSlashes (stripLeadingSlashes targetPath))).

(** ** merge-branch.js *)

(** *** [Map] and [Set], which keep insertion order *)

Fixpoint Map_set {V} (k : string) (v : V) (m : list (string * V))
    : list (string * V) :=
  match m with
  | [] => [(k, v)]
  | kv :: m' => if decide (kv.1 = k) then (k, v) :: m' else kv :: Map_set k v m'
  end.

(** [new Map(pairs)] *)
Definition Map_new {V} (pairs : list (string * V)) : list (string * V) :=
  foldl (λ m kv, Map_set kv.1 kv.2 m) [] pairs.

(** [m.get(k)] *)
Definition Map_get {V} (k : string) (m : list (string * V)) : option V :=
  snd <$> find (λ kv, bool_decide (kv.1 = k)) m.

(** [m.keys()] *)
Definition Map_keys {V} (m : list (string * V)) : list string := m.*1.

(** [new Set(items)] *)
Definition Set_new (items : list string) : list string :=
  foldl (λ s k, if decide (k ∈ s) then s else s ++ [k]) [] items.

(** *** [resolutions[p]] on the object parsed from the command line *)

(** The value of a property read: an own property of [resolutions] (a
    string), a method inherited from [Object.prototype], or
    [undefined]. *)
Inductive jsval :=
| JUndefined
| JString (s : string)
| JInherited.

Definition Object_prototype : list string :=
  ["constructor"; "__defineGetter__"; "__defineSetter__"; "hasOwnProperty";
   "__lookupGetter__"; "__lookupSetter__"; "isPrototypeOf";
   "propertyIsEnumerable"; "toString"; "valueOf"; "__proto__";
   "toLocaleString"].

Definition getProperty (o : gmap string string) (p : string) : jsval :=
  match o !! p with
  | Some s => JString s
  | None => if decide (p ∈ Object_prototype) then JInherited else JUndefined
  end.

(** Truthiness, for [if (resolutions[p])]. *)
Definition truthy (v : jsval) : bool :=
  match v with
  | JUndefined => false
  | JString s => negb (bool_decide (s = ""))
  | JInherited => true
  end.

(** *** [mergeTrees] *)

(** [readEntries(sha)] *)
Definition readEntries (sha : option sha) : M (list (string * entry)) :=
  match sha with
  | None => mret (Map_new [])
  | Some s => res ← readTree s; mret (Map_new ((λ e, (path e, e)) <$> res))
  end.

(** [if (e) newEntries.push(e)] *)
Definition pushIf (newEntries : list entry) (e : option entry) : list entry :=
  match e with
  | Some e => newEntries ++ [e]
  | None => newEntries
  end.

Section mergeTrees.
(** The resolutions given on the command line. *)
Variable resolutions : gmap string string.

(** The body of [for (const p of allPaths)].  [mergeTrees] stands for
    the recursive call. *)
Definition mergeEntry
    (mergeTrees : option sha → option sha → option sha → M (option sha))
    (baseEntries ourEntries theirEntries : list (string * entry))
    (p : string) (newEntries : list entry) : M (list entry) :=
  let base := Map_get p baseEntries in
  let ours := Map_get p ourEntries in
  let theirs := Map_get p theirEntries in
  let baseSha := oid <$> base in
  let ourSha := oid <$> ours in
  let theirSha := oid <$> theirs in
  (* handle directories recursively *)
  let isDir := bool_decide (type <$> ours = Some tree)
               || bool_decide (type <$> theirs = Some tree) in
  if isDir then
    mergedSubTreeSha ← mergeTrees baseSha ourSha theirSha;
    match mergedSubTreeSha with
    | Some s => mret (newEntries ++ [Entry "040000" p s tree])
    | None => mret newEntries
    end
  (* merge file blobs *)
  else if decide (ourSha = theirSha) then mret (pushIf newEntries ours)
  else if decide (ourSha = baseSha ∧ theirSha ≠ baseSha)
  then mret (pushIf newEntries theirs)
  else if decide (ourSha ≠ baseSha ∧ theirSha = baseSha)
  then mret (pushIf newEntries ours)
  else
    (* conflict detected: check for a user-provided resolution *)
    let r := getProperty resolutions p in
    if truthy r then
      match r with
      | JString content =>
          resolvedSha ← writeBlob content;
          mret (newEntries ++ [Entry "100644" p resolvedSha blob])
      | _ => throw TypeError
      end
    else throw (MergeConflict p).

Fixpoint mergeLoop
    (mergeTrees : option sha → option sha → option sha → M (option sha))
    (baseEntries ourEntries theirEntries : list (string * entry))
    (allPaths : list string) (newEntries : list entry) : M (list entry) :=
  match allPaths with
  | [] => mret newEntries
  | p :: rest =>
      newEntries ← mergeEntry mergeTrees baseEntries ourEntries theirEntries
                     p newEntries;
      mergeLoop mergeTrees baseEntries ourEntries theirEntries rest newEntries
  end.

(** [mergeTrees(baseTreeSha, ourTreeSha, theirTreeSha)], with the
    depth of the recursion bounded by [fuel]. *)
Fixpoint mergeTrees_fuel (fuel : nat)
    (baseTreeSha ourTreeSha theirTreeSha : option sha) : M (option sha) :=
  match fuel with
  | O => throw OutOfFuel
  | S fuel =>
      baseEntries ← readEntries baseTreeSha;
      ourEntries ← readEntries ourTreeSha;
      theirEntries ← readEntries theirTreeSha;
      let allPaths := Set_new (Map_keys baseEntries ++ Map_keys ourEntries
                               ++ Map_keys theirEntries) in
      newEntries ← mergeLoop (mergeTrees_fuel fuel)
                     baseEntries ourEntries theirEntries allPaths [];
      match newEntries with
      | [] => mret None
      | _ :: _ => t ← writeTree newEntries; mret (Some t)
      end
  end.
End mergeTrees.

(** The nesting depth of a tree; the recursion of [mergeTrees] goes one
    level down at each call. *)
Fixpoint depth (s : sha) : nat :=
  match s with
  | BlobSha _ => 0
  | TreeSha es | UnsafeTreeSha es =>
      S (foldr (λ e n, max (depth (oid e)) n) 0 es)
  end.

Definition depth_opt (s : option sha) : nat := from_option depth 0 s.

Definition mergeTrees (resolutions : gmap string string)
    (baseTreeSha ourTreeSha theirTreeSha : option sha) : M (option sha) :=
  mergeTrees_fuel resolutions
    (S (max (depth_opt baseTreeSha)
            (max (depth_opt ourTreeSha) (depth_opt theirTreeSha))))
    baseTreeSha ourTreeSha theirTreeSha.

Definition mergeBot (now : Z) : person :=
  Person "Merge Bot" "bot@example.com" now 0.

(** [sourceBranch.startsWith('refs/') ? sourceBranch : `refs/heads/${sourceBranch}`] *)
Definition branchRef (b : string) : string :=
  if String.prefix "refs/" b then b else "refs/heads/" +:+ b.

(** [main()] of merge-branch.js.  [findMergeBase] is the library's
    search for the common ancestors of two commits. *)
Definition merge_branch (findMergeBase : commitSha → commitSha → list commitSha)
    (resolutions : gmap string string) (sourceBranch destBranch : string)
    (now : Z) (others : repo → repo) : M commitSha :=
  (* resolve branch references *)
  let sourceRef := branchRef sourceBranch in
  let destRef := branchRef destBranch in
  sourceSha ← resolveRef sourceRef;
  destSha ← resolveRef destRef;
  (* find merge base *)
  match findMergeBase destSha sourceSha with
  | [] => throw TypeError
  | baseSha :: _ =>
      (* read commit trees *)
      baseTree ← readCommitTree baseSha;
      sourceTree ← readCommitTree sourceSha;
      destTree ← readCommitTree destSha;
      (* perform 3-way merge *)
      newTreeSha ← mergeTrees resolutions
                     (Some baseTree) (Some destTree) (Some sourceTree);
      (* create merge commit and update reference *)
      mergeCommitSha ← writeCommit
                         ("Merge branch '" +:+ sourceBranch +:+ "' into '"
                          +:+ destBranch +:+ "'")
                         newTreeSha [destSha; sourceSha] (mergeBot now);
      concurrently others;;
      writeRef destRef mergeCommitSha;; mret mergeCommitSha
  end.

(** ** read-file.js, list-files.js and remove-branch.js: [main] *)

Definition Script (A : Type) : Type := repo → outcome A * repo.

Global Instance Script_ret : MRet Script := λ A a st, (Done a, st).
Global Instance Script_bind : MBind Script := λ A B f m st,
  match m st with
  | (Done a, st') => f a st'
  | (Failed e, st') => (Failed e, st')
  end.

Definition raise {A} (f : failure) : Script A := λ st, (Failed f, st).

(** A call of the library or of a helper above. *)
Definition call {A} (m : M A) : Script A := λ st,
  match m st with
  | (Ok a, st') => (Done a, st')
  | (Err e, st') => (Failed (Thrown e), st')
  end.

(** [try { m } catch (e) { h }] *)
Definition catch {A} (m : Script A) (h : failure → Script A) : Script A := λ st,
  match m st with
  | (Done a, st') => (Done a, st')
  | (Failed e, st') => h e st'
  end.

(** *** read-file.js *)

(** [git.readBlob({ oid })] *)
Definition readBlob (oid : sha) : M string := λ st,
  match oid with
  | BlobSha content => (Ok content, st)
  | _ => (Err (ObjectTypeError oid), st)
  end.

(** The loop of [isBinary] over the bytes of [chunk]. *)
Fixpoint hasZeroByte (chunk : string) : bool :=
  match chunk with
  | "" => false
  | String c chunk' =>
      if decide (c = "000"%char) then true else hasZeroByte chunk'
  end.

(** [isBinary(buffer)] *)
Definition isBinary (buffer : string) : bool :=
  let chunk := String.substring 0 (N.to_nat 8000) buffer in
  hasZeroByte chunk.

(** What [main] of read-file.js writes to the console. *)
Inductive line :=
| Warning (mode : option string)
    (* "Warning: File mode is ... (not standard 100644)" *)
| BinaryFileDetected (sha : sha) (size : nat)
    (* "[Binary File Detected] (SHA: ..., Size: ... bytes)" *)
| ContentSuppressed
    (* "(Content suppressed)" *)
| Content (text : string).
    (* the text, given by the bytes of the blob *)

(** [main()] of read-file.js, up to the outer [catch] that prints the
    message and exits. *)
Definition read_file (refName filePath : string) : Script (list line) :=
  (* STEP 1: resolve the commit *)
  commitSha ← catch (call (resolveRef refName))
                 (λ _, raise (RefNotFoundError refName));
  (* STEP 2: get root tree *)
  rootTreeSha ← call (readCommitTree commitSha);
  (* STEP 3: find the file *)
  target ← call (resolveBlobEntry rootTreeSha filePath);
  (* STEP 4: validation *)
  if decide (t_type target ≠ blob)
  then raise (NotAFile filePath (t_type target))
  else
    let warnings :=
      if decide (t_mode target ≠ Some "100644" ∧ t_mode target ≠ Some "100755")
      then [Warning (t_mode target)] else [] in
    (* STEP 5: read content *)
    content ← call (readBlob (t_sha target));
    (* STEP 6: output *)
    if isBinary content
    then mret (warnings ++ [BinaryFileDetected (t_sha target) (String.length content);
                            ContentSuppressed])
    else mret (warnings ++ [Content content]).

(** *** list-files.js *)

(** The loop of [resolveTreeSha] over the remaining [parts]; [cur] holds
    [currentSha] and [type]. *)
Fixpoint walkTree (targetPath : string) (parts : list string)
    (cur : sha * objtype) : Script (sha * objtype) :=
  match parts with
  | [] => mret cur
  | part :: rest =>
      if decide (cur.2 ≠ tree) then raise (InsideFile part)
      else
        es ← call (readTree cur.1);
        match find (λ e, bool_decide (path e = part)) es with
        | None => raise (FolderNotFound targetPath)
        | Some e => walkTree targetPath rest (oid e, type e)
        end
  end.

(** [resolveTreeSha(dir, rootTreeSha, targetPath)] *)
Definition resolveTreeSha (rootTreeSha : sha) (targetPath : string)
    : Script (sha * objtype) :=
  if decide (targetPath = "" ∨ targetPath = "." ∨ targetPath = "/")
  then mret (rootTreeSha, tree)
  else
    let parts :=
      splitSlash (stripTrailingSlashes (stripLeadingSlashes targetPath)) in
    walkTree targetPath parts (rootTreeSha, tree).

(** A row of the table [main] prints: mode, type, id and name. *)
Record row := Row {
  r_mode : string;
  r_type : objtype;
  r_sha : sha;
  r_name : string
}.

Inductive listing :=
| ItemIsFile (sha : sha)
    (* "(Item is a file, SHA: ...)" *)
| Contents (rows : list row).

(** [main()] of list-files.js, up to the outer [catch]. *)
Definition list_files (refName folderPath : string) : Script listing :=
  (* STEP 1: resolve the commit *)
  commitSha ← catch (call (resolveRef refName))
                 (λ _, raise (RefNotFoundError refName));
  (* STEP 2: get root tree *)
  rootTreeSha ← call (readCommitTree commitSha);
  (* STEP 3: navigate to target folder *)
  target ← resolveTreeSha rootTreeSha folderPath;
  if decide (target.2 = blob) then mret (ItemIsFile target.1)
  else
    (* STEP 4: list contents *)
    entries ← call (readTree target.1);
    mret (Contents
            ((λ entry,
                Row (mode entry) (type entry) (oid entry)
                  (if decide (type entry = tree) then path entry +:+ "/"
                   else path entry)) <$> entries)).

(** *** remove-branch.js *)

(** [branchName.startsWith('refs/heads/') ? branchName : `refs/heads/${branchName}`] *)
Definition fullRef (branchName : string) : string :=
  if String.prefix "refs/heads/" branchName then branchName
  else "refs/heads/" +:+ branchName.

(** [git.deleteRef({ ref })]; a ref that is not there is not an error. *)
Definition deleteRef (ref : string) : M unit := λ st,
  (Ok (), Repo (objects st) (commits st) (delete ref (refs st))).

(** [main()] of remove-branch.js, up to the outer [catch]. *)
Definition remove_branch (branchName : string) : Script unit :=
  (* STEP 1: normalize the ref name *)
  let fullRef := fullRef branchName in
  (* STEP 2: check if it exists *)
  catch (currentSha ← call (resolveRef fullRef); mret ())
    (λ _, raise (BranchNotFound branchName));;
  (* STEP 3: delete the ref *)
  call (deleteRef fullRef).

(** ** Predicates and helpers of the statements *)

(** *** Entries and trees *)

(** The order [comparePath] sorts by. *)
Definition path_le (a b : entry) : Prop := String.le (path a) (path b).

(** A list of entries is canonical when it is what [git.readTree]
    returns for a tree with unique names: sorted by path, no name
    twice. *)
Definition canonical (es : list entry) : Prop :=
  sortEntries es = es ∧ NoDup (path <$> es).

(** An entry is consistent when its [type] is the kind of the object it
    names, a directory has mode 040000, and no directory is empty. *)
Definition entry_ok (e : entry) : bool :=
  match type e, oid e with
  | tree, TreeSha (_ :: _) => bool_decide (mode e = "040000")
  | blob, BlobSha _ => true
  | _, _ => false
  end.

(** The names of the entries pass the parser's test. *)
Definition acceptedNames (es : list entry) : bool :=
  forallb (λ e, negb (unsafeFilepath (path e))) es.

(** The trees of a git repository: entries in canonical order, names
    unique and accepted by the parser (as they are in every tree the
    library reads), every entry consistent, at every level. *)
Fixpoint wf (s : sha) : bool :=
  match s with
  | BlobSha _ => true
  | TreeSha es =>
      bool_decide (canonical es) && acceptedNames es
      && forallb (λ e, entry_ok e && wf (oid e)) es
  | UnsafeTreeSha _ => false
  end.

(** The same for a root that may be absent ([null]). *)
Definition wf_opt (T : option sha) : bool := from_option wf true T.

(** Absent, or a well-formed tree. *)
Definition wfTreeOpt (T : option sha) : Prop :=
  match T with
  | None => True
  | Some (TreeSha es) => wf (TreeSha es) = true
  | Some _ => False
  end.

(** The entries of a tree, read off its id. *)
Definition treeEntries (s : sha) : list entry :=
  match s with
  | TreeSha es | UnsafeTreeSha es => es
  | BlobSha _ => []
  end.

(** The entries of a tree that may be absent: none when there is no
    tree, and no answer for a blob. *)
Definition entriesOf (T : option sha) : option (list entry) :=
  match T with
  | None => Some []
  | Some (BlobSha _) => None
  | Some s => Some (treeEntries s)
  end.

(** The entries [upsertTree] and [readEntries] start from: none when
    there is no tree, and no answer when the read throws. *)
Definition entriesRead (T : option sha) : option (list entry) :=
  match T with
  | None => Some []
  | Some (TreeSha es) => Some es
  | Some _ => None
  end.

(** [kind_ok e]: the [type] of the entry is the kind of the object it
    names. *)
Definition kind_ok (e : entry) : bool :=
  match type e, oid e with
  | tree, TreeSha _ => true
  | blob, BlobSha _ => true
  | _, _ => false
  end.

(** [coherent s]: at every level of the tree the names are unique and
    accepted by the parser, and every entry names an object of its
    type.  Nothing is asked of the order, of the modes, or of the
    directories being non-empty. *)
Fixpoint coherent (s : sha) : bool :=
  match s with
  | BlobSha _ => true
  | TreeSha es =>
      bool_decide (NoDup (path <$> es)) && acceptedNames es
      && forallb (λ e, kind_ok e && coherent (oid e)) es
  | UnsafeTreeSha _ => false
  end.

(** The same for a root that may be absent ([null]). *)
Definition coherent_opt (T : option sha) : bool := from_option coherent true T.

(** The entries of a tree that may be absent. *)
Definition entriesOpt (T : option sha) : list entry :=
  match T with
  | Some (TreeSha es) => es
  | _ => []
  end.

(** What [removeTreeEntry] returns for a tree: [null] when it is empty. *)
Definition pruned (T : option sha) : option sha :=
  match T with
  | Some (TreeSha (e :: es)) => Some (TreeSha (e :: es))
  | _ => None
  end.

(** [agree modes b t]: a name that the trees [b] and [t] both have is a
    directory in both or a file in both, at every level; with [modes], a
    file with the same content in both has the same mode in both. *)
Fixpoint agree (modes : bool) (b t : sha) : bool :=
  match b, t with
  | TreeSha bs, TreeSha ts =>
      forallb (λ eb,
        match findPath (path eb) ts with
        | None => true
        | Some et =>
            bool_decide (type eb = type et)
            && (negb modes || bool_decide (oid eb = oid et → mode eb = mode et))
            && agree modes (oid eb) (oid et)
        end) bs
  | _, _ => true
  end.

(** The same for trees that may be absent. *)
Definition agreeOpt (modes : bool) (b t : option sha) : Prop :=
  match b, t with
  | Some b, Some t => agree modes b t = true
  | _, _ => True
  end.

(** *** Paths *)

(** The tree reached from [root] by going down the directories [dirs]. *)
Fixpoint subtreeAt (root : sha) (dirs : list string) : option sha :=
  match dirs with
  | [] => Some root
  | d :: dirs =>
      match root with
      | TreeSha es =>
          match findPath d es with
          | Some e => if decide (type e = tree) then subtreeAt (oid e) dirs else None
          | None => None
          end
      | _ => None
      end
  end.

(** The path [segs] holds no name the parser refuses. *)
Definition accepted (segs : list string) : bool :=
  forallb (λ p, negb (unsafeFilepath p)) segs.


(** Two paths are unrelated when neither leads to the other. *)
Definition unrelated (q segs : list string) : Prop :=
  ¬ q `prefix_of` segs ∧ ¬ segs `prefix_of` q.

(** [segs] names nothing in [T]: going down [segs] through directories
    ends at a level that lacks the next name. *)
Fixpoint absentIn (T : option sha) (segs : list string) : Prop :=
  match segs with
  | [] => False
  | p :: rest =>
      match T with
      | None => True
      | Some (TreeSha es) =>
          match findPath p es with
          | None => True
          | Some e => rest ≠ [] ∧ type e = tree ∧ absentIn (Some (oid e)) rest
          end
      | Some _ => False
      end
  end.

(** *** The repository before and after *)

(** [st'] has the commits and refs of [st], and its objects. *)
Definition extends (st st' : repo) : Prop :=
  commits st' = commits st ∧ refs st' = refs st
  ∧ ∀ o, o ∈ objects st → o ∈ objects st'.

(** A computation that only adds objects. *)
Definition adds_objects {A} (m : M A) : Prop :=
  ∀ st r st', m st = (r, st') → extends st st'.

(** Another writer that moves refs while a script is at work. *)
Definition movingRefs (f : gmap string commitSha → gmap string commitSha)
    : repo → repo :=
  λ st, Repo (objects st) (commits st) (f (refs st)).

(** What [git.resolveRef] finds in a ref store. *)
Definition currentRef (ref : string) (rs : gmap string commitSha)
    : option commitSha :=
  head (omap (λ p, rs !! p) (refpaths ref)).

(** *** The pieces of [removeTreeEntry] and [mergeTrees] *)

(** Steps 4 and 5 of [removeTreeEntry], which are also the end of
    [mergeTrees]. *)
Definition finishTree (entries : list entry) : M (option sha) :=
  match entries with
  | [] => mret None
  | _ :: _ => t ← writeTree entries; mret (Some t)
  end.

(** [isDir] of the loop body. *)
Definition isDir (ourEntries theirEntries : list (string * entry)) (p : string)
    : bool :=
  bool_decide (type <$> Map_get p ourEntries = Some tree)
  || bool_decide (type <$> Map_get p theirEntries = Some tree).

(** The last branch of the loop body: a conflict at [p]. *)
Definition resolveConflict (resolutions : gmap string string) (p : string)
    : M (option entry) :=
  let r := getProperty resolutions p in
  if truthy r then
    match r with
    | JString content =>
        resolvedSha ← writeBlob content;
        mret (Some (Entry "100644" p resolvedSha blob))
    | _ => throw TypeError
    end
  else throw (MergeConflict p).

(** What the loop body pushes for the name [p], if anything; the lemma
    [mergeEntry_mergeName] relates it to [mergeEntry]. *)
Definition mergeName (resolutions : gmap string string)
    (rec : option sha → option sha → option sha → M (option sha))
    (bm om tm : list (string * entry)) (p : string) : M (option entry) :=
  let base := Map_get p bm in
  let ours := Map_get p om in
  let theirs := Map_get p tm in
  if isDir om tm p then
    sub ← rec (oid <$> base) (oid <$> ours) (oid <$> theirs);
    mret ((λ s, Entry "040000" p s tree) <$> sub)
  else if decide (oid <$> ours = oid <$> theirs) then mret ours
  else if decide (oid <$> ours = oid <$> base) then mret theirs
  else if decide (oid <$> theirs = oid <$> base) then mret ours
  else resolveConflict resolutions p.

(** The depth of the deepest of three trees. *)
Definition depth3 (b o t : option sha) : nat :=
  max (depth_opt b) (max (depth_opt o) (depth_opt t)).

(** Every entry of the [Map] sits under its own name. *)
Definition keyed (m : list (string * entry)) : Prop :=
  ∀ p e, Map_get p m = Some e → path e = p.

(** *** Paths, ref names and what is printed *)


(** A run of [n] slashes. *)
Fixpoint slashes (n : nat) : string :=
  match n with
  | O => ""
  | S n => String "/" (slashes n)
  end.

(** The parts [resolveTreeSha] walks: none for the root. *)
Definition folderParts (targetPath : string) : list string :=
  if decide (targetPath = "" ∨ targetPath = "." ∨ targetPath = "/") then []
  else splitSlash (stripTrailingSlashes (stripLeadingSlashes targetPath)).

(** A file is in the way of [segs] in the tree [t]: a name on the way to
    the last segment holds the blob [c]. *)
Definition fileInTheWay (t : sha) (segs : list string) (c : string) : Prop :=
  ∃ dirs x rest es e,
    segs = dirs ++ x :: rest ∧ rest ≠ []
    ∧ subtreeAt t dirs = Some (TreeSha es)
    ∧ findPath x es = Some e ∧ oid e = BlobSha c.

(** The lines read-file.js prints for a blob (STEP 6). *)
Definition shown (content : string) : list line :=
  if isBinary content
  then [BinaryFileDetected (BlobSha content) (String.length content);
        ContentSuppressed]
  else [Content content].

(** *** Example repositories *)

(** A parser for the examples: it refuses ".", ".." and every name that
    holds a slash or a backslash. *)
Definition exampleParser : TreeParser := λ p,
  bool_decide (p = "." ∨ p = "..")
  || existsb (λ c, bool_decide (c = "/"%char ∨ c = "\"%char))
       (String.list_ascii_of_string p).

(** The empty repository. *)
Definition st0 : repo := Repo [] [] ∅.

(** A regular file, an executable file and a directory, as entries. *)
Definition file (c : string) (n : string) : entry :=
  Entry "100644" n (BlobSha c) blob.
Definition exe (c : string) (n : string) : entry :=
  Entry "100755" n (BlobSha c) blob.
Definition dir (es : list entry) (n : string) : entry :=
  Entry "040000" n (TreeSha es) tree.

(** The tree that [add-file-deep.js <repo> main ./README.md X] writes
    over a root that holds the file [z]: its first entry is named ".". *)
Definition dotTree : sha :=
  UnsafeTreeSha [dir [file "X" "README.md"] "."; file "1" "z"].

(** A conflict on [src/a.txt], one level down. *)
Definition nestedBase : sha := TreeSha [dir [file "0" "a.txt"] "src"].
Definition nestedOurs : sha := TreeSha [dir [file "1" "a.txt"] "src"].
Definition nestedTheirs : sha := TreeSha [dir [file "2" "a.txt"] "src"].

(** A directory [d] that merges cleanly, then a conflict on the file
    [f]. *)
Definition laterBase : sha := TreeSha [dir [file "0" "x"] "d"; file "0" "f"].
Definition laterOurs : sha := TreeSha [dir [file "1" "x"] "d"; file "1" "f"].
Definition laterTheirs : sha :=
  TreeSha [dir [file "0" "x"; file "2" "y"] "d"; file "2" "f"].

(** A history in which [main] moves on while [feature] is merged into
    it. *)
Definition someone : person := Person "A" "a@example.com" 0 0.
Definition c0 : commitSha := CommitSha (TreeSha [file "0" "f"]) [] someone "init".
Definition c1 : commitSha :=
  CommitSha (TreeSha [file "1" "f"]) [c0] someone "on main".
Definition c2 : commitSha :=
  CommitSha (TreeSha [file "0" "f"; file "2" "g"]) [c0] someone "on feature".
Definition c3 : commitSha :=
  CommitSha (TreeSha [file "3" "f"]) [c1] someone "pushed meanwhile".
Definition history : repo :=
  Repo [] [c0; c1; c2]
    (<["refs/heads/main" := c1]> (<["refs/heads/feature" := c2]> ∅)).

(** * Properties *)

(** ** Facts about the library model *)

(** *** Sorting *)

Global Instance path_le_dec : RelDecision path_le.
Proof. intros a b. unfold path_le. apply _. Defined.

Global Instance path_le_trans : Transitive path_le.
Proof. intros a b c. unfold path_le. apply transitivity. Qed.

Lemma insertEntry_perm e l : insertEntry e l ≡ₚ e :: l.
Proof.
  induction l as [|x l IH]; simpl; [done|].
  destruct (String.leb _ _); [done|]. rewrite IH. apply Permutation_swap.
Qed.

Lemma sortEntries_perm l : sortEntries l ≡ₚ l.
Proof.
  induction l as [|x l IH]; simpl; [done|].
  by rewrite insertEntry_perm, IH.
Qed.

Lemma insertEntry_sorted e l :
  StronglySorted path_le l → StronglySorted path_le (insertEntry e l).
Proof.
  induction 1 as [|x l Hl IH Hx]; simpl.
  - repeat constructor.
  - destruct (String.leb (path e) (path x)) eqn:Hle.
    + constructor; [by constructor|].
      assert (path_le e x) as Hex by (unfold path_le, String.le; by rewrite Hle).
      constructor; [done|]. eapply Forall_impl; [apply Hx|].
      intros y Hy. by etrans.
    + constructor; [done|]. rewrite insertEntry_perm. constructor; [|done].
      destruct (total String.le (path e) (path x)) as [H|H]; [|done].
      unfold String.le in H. by rewrite Hle in H.
Qed.

Lemma sortEntries_sorted l : StronglySorted path_le (sortEntries l).
Proof.
  induction l; simpl; [constructor|]. by apply insertEntry_sorted.
Qed.

Lemma NoDup_path_inj (l : list entry) x y :
  NoDup (path <$> l) → x ∈ l → y ∈ l → path x = path y → x = y.
Proof.
  induction l as [|z l IH]; simpl; [by intros _ ?%elem_of_nil|].
  intros [Hz Hl]%NoDup_cons [->|Hx]%elem_of_cons [->|Hy]%elem_of_cons Hp;
    [done| | |by apply IH].
  - destruct Hz. rewrite Hp. by apply list_elem_of_fmap_2.
  - destruct Hz. rewrite <-Hp. by apply list_elem_of_fmap_2.
Qed.

(** The canonical list is the only sorted arrangement of its entries. *)
Lemma sortEntries_canonical l l' :
  canonical l' → l ≡ₚ l' → sortEntries l = l'.
Proof.
  intros [Hs Hnd] Hp.
  apply (StronglySorted_unique_strong path_le).
  - intros x1 x2 H1 H2 H12 H21.
    apply (NoDup_path_inj l'); [done| |done|].
    + by rewrite <-Hp, <-(sortEntries_perm l).
    + by apply (anti_symm String.le).
  - apply sortEntries_sorted.
  - rewrite <-Hs. apply sortEntries_sorted.
  - by rewrite sortEntries_perm.
Qed.

Lemma canonical_perm_NoDup (l l' : list entry) :
  l ≡ₚ l' → NoDup (path <$> l') → NoDup (path <$> l).
Proof. intros Hp. by rewrite Hp. Qed.

Lemma sortEntries_is_canonical l :
  NoDup (path <$> l) → canonical (sortEntries l).
Proof.
  intros Hnd. assert (NoDup (path <$> sortEntries l)) as Hs
    by (by rewrite sortEntries_perm).
  split; [|done].
  apply (StronglySorted_unique_strong path_le).
  - intros x1 x2 H1 H2 H12 H21.
    apply (NoDup_path_inj (sortEntries l)); [done| |done|].
    + by rewrite <-(sortEntries_perm (sortEntries l)).
    + by apply (anti_symm String.le).
  - apply sortEntries_sorted.
  - apply sortEntries_sorted.
  - by rewrite sortEntries_perm.
Qed.

(** *** Looking a name up *)

Lemma findPath_Some p (es : list entry) e :
  findPath p es = Some e → e ∈ es ∧ path e = p.
Proof.
  induction es as [|x es IH]; simpl; [done|].
  case_bool_decide.
  - intros [= ->]. split; [left|done].
  - intros [??]%IH. split; [by right|done].
Qed.

Lemma findPath_None p (es : list entry) :
  findPath p es = None ↔ p ∉ path <$> es.
Proof.
  induction es as [|x es IH]; simpl.
  - split; [intros _ ?%elem_of_nil; done|done].
  - rewrite not_elem_of_cons. case_bool_decide as Hx.
    + split; [done|]. by intros [? _].
    + rewrite IH. split; [done|]. by intros [_ ?].
Qed.

Lemma findPath_NoDup p (es : list entry) e :
  NoDup (path <$> es) → e ∈ es → path e = p → findPath p es = Some e.
Proof.
  intros Hnd He Hp. destruct (findPath p es) as [e'|] eqn:Hf.
  - apply findPath_Some in Hf as [??]. f_equal.
    apply (NoDup_path_inj es); congruence.
  - apply findPath_None in Hf. destruct Hf. rewrite <-Hp.
    by apply list_elem_of_fmap_2.
Qed.

Lemma findPath_perm p (l l' : list entry) :
  NoDup (path <$> l) → l ≡ₚ l' → findPath p l' = findPath p l.
Proof.
  intros Hnd Hp. destruct (findPath p l) as [e|] eqn:Hf.
  - apply findPath_Some in Hf as [??].
    apply findPath_NoDup; [by rewrite <-Hp|by rewrite <-Hp|done].
  - apply findPath_None. rewrite <-Hp. by apply findPath_None.
Qed.

Lemma list_find_findPath p (es : list entry) :
  snd <$> list_find (λ e, path e = p) es = findPath p es.
Proof.
  induction es as [|x es IH]; simpl; [done|].
  case_decide; case_bool_decide; try done.
  rewrite <-IH. by destruct (list_find _ es) as [[??]|].
Qed.

(** *** Running the effects *)

Ltac munfold :=
  unfold mbind, M_bind, mret, M_ret, throw, try_catch in *.

Lemma insertEntry_not_nil e l : insertEntry e l ≠ [].
Proof. destruct l; simpl; [done|]. by destruct (String.leb _ _). Qed.

Lemma sortEntries_nil_inv l : sortEntries l = [] → l = [].
Proof. destruct l; simpl; [done|]. intros H. by apply insertEntry_not_nil in H. Qed.

Lemma writeObject_run o st :
  ∃ st', writeObject o st = (Ok o, st')
         ∧ commits st' = commits st ∧ refs st' = refs st
         ∧ ∀ x, x ∈ objects st' ↔ x ∈ objects st ∨ x = o.
Proof.
  unfold writeObject. case_decide as Ho.
  - exists st. repeat split; try done; [by left|]. by intros [?| ->].
  - eexists. repeat split; simpl; try done.
    + rewrite elem_of_app, list_elem_of_singleton. done.
    + rewrite elem_of_app, list_elem_of_singleton. done.
Qed.

(** *** The ids of the trees written *)

Lemma acceptedNames_Forall es :
  acceptedNames es = true ↔ Forall (λ e, unsafeFilepath (path e) = false) es.
Proof.
  unfold acceptedNames. rewrite forallb_forall, Forall_forall.
  setoid_rewrite <-list_elem_of_In. setoid_rewrite negb_true_iff. done.
Qed.

Lemma acceptedNames_perm l l' :
  l ≡ₚ l' → acceptedNames l = true → acceptedNames l' = true.
Proof.
  rewrite !acceptedNames_Forall, !Forall_forall. intros Hp Hl e He.
  apply Hl. by rewrite Hp.
Qed.

Lemma acceptedNames_app l l' :
  acceptedNames (l ++ l') = acceptedNames l && acceptedNames l'.
Proof. apply forallb_app. Qed.

Lemma acceptedNames_filter (P : entry → Prop) `{!∀ e, Decision (P e)} l :
  acceptedNames l = true → acceptedNames (filter P l) = true.
Proof.
  rewrite !acceptedNames_Forall, !Forall_forall.
  intros Hl e [_ He]%list_elem_of_filter. by apply Hl.
Qed.

(** A tree whose names the parser accepts is written under the id of a
    tree the library reads. *)
Lemma treeOid_accepted es : acceptedNames es = true → treeOid es = TreeSha es.
Proof.
  unfold treeOid, acceptedNames. intros Hes.
  destruct (existsb _ es) eqn:E; [|done].
  apply existsb_exists in E as (e & He & Hu).
  rewrite forallb_forall in Hes. apply Hes in He. by rewrite Hu in He.
Qed.

(** A tree with a name the parser refuses is written under the id of a
    tree the library does not read. *)
Lemma treeOid_refused es e :
  e ∈ es → unsafeFilepath (path e) = true → treeOid es = UnsafeTreeSha es.
Proof.
  unfold treeOid. intros He Hu.
  destruct (existsb _ es) eqn:E; [done|].
  assert (existsb (λ e, unsafeFilepath (path e)) es = true) as E'.
  { apply existsb_exists. exists e. split; [by apply list_elem_of_In|done]. }
  congruence.
Qed.

(** The trees written that the library reads are those whose names the
    parser accepts. *)
Lemma treeOid_read es es' :
  treeOid es = TreeSha es' ↔ es' = es ∧ acceptedNames es = true.
Proof.
  split.
  - unfold treeOid, acceptedNames.
    destruct (existsb _ es) eqn:E; intros [= <-]. split; [done|].
    apply forallb_forall. intros e He. apply negb_true_iff.
    destruct (unsafeFilepath (path e)) eqn:Hu; [|done].
    assert (existsb (λ e, unsafeFilepath (path e)) es = true) as E'
      by (apply existsb_exists; eauto).
    congruence.
  - intros [-> Hes]. by apply treeOid_accepted.
Qed.


Lemma entriesOf_treeOid es : entriesOf (Some (treeOid es)) = Some es.
Proof. unfold treeOid. by destruct (existsb _ es). Qed.


(** ** remove-file-deep.js: pruning and failure *)

Lemma removeTreeEntry_cons es part rest st :
  removeTreeEntry (TreeSha es) (part :: rest) st =
    match list_find (λ e, path e = part) es with
    | None => (Err (SegmentNotFound part (TreeSha es)), st)
    | Some (i, e) =>
        match rest with
        | [] => finishTree (delete i es) st
        | _ :: _ =>
            if decide (type e ≠ tree) then (Err (NotADirectory part), st)
            else match removeTreeEntry (oid e) rest st with
                 | (Err err, st1) => (Err err, st1)
                 | (Ok None, st1) => finishTree (delete i es) st1
                 | (Ok (Some s), st1) =>
                     finishTree (<[i := Entry (mode e) (path e) s (type e)]> es) st1
                 end
        end
    end.
Proof.
  simpl. munfold. simpl.
  destruct (list_find _ es) as [[i e]|]; [|done].
  destruct rest as [|r rest]; [by destruct (delete i es)|].
  case_decide; [done|].
  by destruct (removeTreeEntry (oid e) (r :: rest) st) as [[[s|]|err] st1].
Qed.

Lemma finishTree_run entries st :
  ∃ st', finishTree entries st =
           (Ok (match entries with
                | [] => None
                | _ :: _ => Some (treeOid (sortEntries entries))
                end), st')
         ∧ commits st' = commits st ∧ refs st' = refs st
         ∧ (entries = [] → st' = st)
         ∧ ∀ x, x ∈ objects st' ↔
                x ∈ objects st
                ∨ (entries ≠ [] ∧ x = treeOid (sortEntries entries)).
Proof.
  destruct entries as [|e es]; simpl.
  - exists st. repeat split; try done; [by left|]. by intros [?|[? _]].
  - unfold finishTree, writeTree. munfold.
    destruct (writeObject_run (treeOid (sortEntries (e :: es))) st)
      as (st' & -> & ? & ? & Hobj).
    exists st'. repeat split; try done.
    + intros Hx%Hobj. destruct Hx; [by left|by right].
    + intros [?|[_ ->]]; apply Hobj; [by left|by right].
Qed.

(** A removal writes trees only, each with at least one entry, and only
    once the whole descent has succeeded. *)
Lemma removeTreeEntry_run treeSha pathParts st r st' :
  removeTreeEntry treeSha pathParts st = (r, st') →
  commits st' = commits st ∧ refs st' = refs st
  ∧ (∀ x, x ∈ objects st' → x ∈ objects st ∨ ∃ e es, x = treeOid (e :: es))
  ∧ (∀ x, x ∈ objects st → x ∈ objects st')
  ∧ match r with
    | Ok (Some t) => ∃ e es, t = treeOid (e :: es)
    | _ => st' = st
    end.
Proof.
  revert treeSha st r st'.
  induction pathParts as [|part rest IH]; intros treeSha st r st'.
  { simpl. intros [= <- <-]. repeat split; auto. }
  destruct treeSha as [c|es|es].
  1,3: simpl; munfold; simpl; intros [= <- <-]; repeat split; auto.
  rewrite removeTreeEntry_cons.
  assert (∀ entries st1 r st',
    commits st1 = commits st → refs st1 = refs st →
    (∀ x, x ∈ objects st1 → x ∈ objects st ∨ ∃ e es, x = treeOid (e :: es)) →
    (∀ x, x ∈ objects st → x ∈ objects st1) →
    (entries = [] → st1 = st) →
    finishTree entries st1 = (r, st') →
    commits st' = commits st ∧ refs st' = refs st
    ∧ (∀ x, x ∈ objects st' → x ∈ objects st ∨ ∃ e es, x = treeOid (e :: es))
    ∧ (∀ x, x ∈ objects st → x ∈ objects st')
    ∧ match r with
      | Ok (Some t) => ∃ e es, t = treeOid (e :: es)
      | _ => st' = st
      end) as Hfin.
  { clear. intros entries st1 r st' Hc Hr Ho Hm Hnil.
    destruct (finishTree_run entries st1) as (st2 & -> & ? & ? & Hst & Hobj).
    intros [= <- <-].
    assert (entries ≠ [] → ∃ e es, sortEntries entries = e :: es) as Hne.
    { intros Hne. destruct (sortEntries entries) eqn:E; [|eauto].
      by apply sortEntries_nil_inv in E. }
    repeat split; try congruence.
    - intros x [Hx|[Hx ->]]%Hobj; [auto|]. right.
      destruct (Hne Hx) as (e & es & ->). eauto.
    - intros x Hx. apply Hobj. left. auto.
    - destruct entries; [rewrite Hst, Hnil; done|].
      destruct (Hne ltac:(done)) as (e' & es' & ->). eauto. }
  destruct (list_find _ es) as [[i e]|] eqn:Hfind.
  2:{ intros [= <- <-]. repeat split; auto. }
  destruct rest as [|r' rest].
  { apply Hfin; auto. }
  case_decide; [intros [= <- <-]; repeat split; auto|].
  destruct (removeTreeEntry (oid e) (r' :: rest) st) as [[[s|]|err] st1] eqn:Hrec;
    apply IH in Hrec as (Hc & Hr & Ho & Hm & Hres).
  - apply Hfin; auto. intros Hnil.
    apply (f_equal length) in Hnil. rewrite length_insert in Hnil.
    apply list_find_Some in Hfind as (Hi%lookup_lt_Some & _). simpl in Hnil. lia.
  - subst st1. apply Hfin; auto.
  - subst st1. intros [= <- <-]. repeat split; auto.
Qed.

Lemma list_find_of_findPath p (es : list entry) e :
  findPath p es = Some e → ∃ i, list_find (λ x, path x = p) es = Some (i, e).
Proof.
  rewrite <-list_find_findPath.
  destruct (list_find _ es) as [[i x]|]; simpl; [|done].
  intros [= ->]. eauto.
Qed.

Lemma list_find_None_of_findPath p (es : list entry) :
  findPath p es = None → list_find (λ x, path x = p) es = None.
Proof.
  rewrite <-list_find_findPath. by destruct (list_find _ es) as [[i x]|].
Qed.

(** A failure below a chain of directories is the failure of the whole
    removal, and nothing has been written when it is raised. *)
Lemma removeTreeEntry_descend root dirs sub parts st err :
  subtreeAt root dirs = Some sub → parts ≠ [] →
  removeTreeEntry sub parts st = (Err err, st) →
  removeTreeEntry root (dirs ++ parts) st = (Err err, st).
Proof.
  revert root. induction dirs as [|d dirs IH]; intros root; cbn [subtreeAt].
  { by intros [= ->]. }
  rewrite <-app_comm_cons.
  destruct root as [c|es|es]; [done| |done].
  destruct (findPath d es) as [e|] eqn:Hf; [|done].
  case_decide as Ht; [|done]. intros Hsub Hne Herr.
  rewrite removeTreeEntry_cons.
  apply list_find_of_findPath in Hf as [i ->].
  specialize (IH _ Hsub Hne Herr).
  destruct (dirs ++ parts) as [|r l] eqn:Hl.
  { apply app_eq_nil in Hl as [_ ?]. done. }
  case_decide; [done|]. by rewrite IH.
Qed.

Lemma remove_file_deep_failure refName filePath now others st parentSha err st' :
  resolveRef refName st = (Ok parentSha, st) →
  removeTreeEntry (commit_tree parentSha)
    (splitSlash (stripLeadingSlashes filePath)) st = (Err err, st') →
  remove_file_deep refName filePath now others st = (Err err, st).
Proof.
  intros Href Hrm. pose proof (removeTreeEntry_run _ _ _ _ _ Hrm) as (_&_&_&_& ->).
  unfold remove_file_deep, readCommitTree. munfold. by rewrite Href, Hrm.
Qed.

(** C6.  [removeTreeEntry] fails with the NotFound error when the segment
    [part] is absent from the tree [es] the descent has reached, and with
    the TypeMismatch error when a non-terminal [part] names a blob there.
    Any failure of the removal leaves the repository exactly as it was:
    no tree has been written, and [main] stops before writing a commit or
    touching the ref. *)
Theorem remove_failure_leaves_repository root dirs es part rest st :
  subtreeAt root dirs = Some (TreeSha es) →
  (findPath part es = None →
     removeTreeEntry root (dirs ++ part :: rest) st
     = (Err (SegmentNotFound part (TreeSha es)), st))
  ∧ (∀ e, findPath part es = Some e → type e = blob → rest ≠ [] →
     removeTreeEntry root (dirs ++ part :: rest) st
     = (Err (NotADirectory part), st))
  ∧ (∀ pathParts err st',
       removeTreeEntry root pathParts st = (Err err, st') → st' = st)
  ∧ (∀ refName filePath now others parentSha err st',
       resolveRef refName st = (Ok parentSha, st) →
       commit_tree parentSha = root →
       removeTreeEntry root (splitSlash (stripLeadingSlashes filePath)) st
       = (Err err, st') →
       remove_file_deep refName filePath now others st = (Err err, st)).
Proof.
  intros Hsub. repeat split.
  - intros Hf. eapply removeTreeEntry_descend; [done..|].
    rewrite removeTreeEntry_cons. by rewrite (list_find_None_of_findPath _ _ Hf).
  - intros e Hf Ht Hrest. eapply removeTreeEntry_descend; [done..|].
    rewrite removeTreeEntry_cons.
    apply list_find_of_findPath in Hf as [i ->].
    destruct rest; [done|]. rewrite Ht. by case_decide.
  - intros pathParts err st' H.
    by pose proof (removeTreeEntry_run _ _ _ _ _ H) as (_&_&_&_& ->).
  - intros refName filePath now others parentSha err st' Href <- Hrm.
    by eapply remove_file_deep_failure.
Qed.

Lemma run_bind {A B} (m : M A) (f : A → M B) st :
  (m ≫= f) st = match m st with
                | (Ok a, st') => f a st'
                | (Err e, st') => (Err e, st')
                end.
Proof. done. Qed.

Lemma run_ret {A} (a : A) st : (mret a : M A) st = (Ok a, st).
Proof. done. Qed.

Lemma resolveRef_state ref st r st' : resolveRef ref st = (r, st') → st' = st.
Proof.
  unfold resolveRef. destruct (omap _ _); by intros [= _ <-].
Qed.



(** ** Well-formed trees *)

Lemma wf_tree es :
  wf (TreeSha es) = true ↔
  canonical es ∧ acceptedNames es = true
  ∧ Forall (λ e, entry_ok e = true ∧ wf (oid e) = true) es.
Proof.
  simpl. rewrite !andb_true_iff, bool_decide_eq_true, forallb_forall, Forall_forall.
  setoid_rewrite andb_true_iff. setoid_rewrite <-list_elem_of_In.
  split; [intros [[??]?]|intros (?&?&?)]; done.
Qed.

Lemma wf_entry es e :
  wf (TreeSha es) = true → e ∈ es → entry_ok e = true ∧ wf (oid e) = true.
Proof. intros (_ & _ & H)%wf_tree He. by apply (proj1 (Forall_forall _ _) H). Qed.

Lemma entry_ok_tree e :
  entry_ok e = true → type e = tree →
  mode e = "040000" ∧ ∃ x xs, oid e = TreeSha (x :: xs).
Proof.
  unfold entry_ok. intros H Ht. rewrite Ht in H.
  destruct (oid e) as [|[|x xs]|]; try done.
  apply bool_decide_eq_true in H. eauto.
Qed.

Lemma entry_ok_blob e :
  entry_ok e = true → type e = blob → ∃ c, oid e = BlobSha c.
Proof.
  unfold entry_ok. intros H Ht. rewrite Ht in H.
  destruct (oid e); [eauto|done..].
Qed.

Lemma coherent_tree es :
  coherent (TreeSha es) = true ↔
  NoDup (path <$> es) ∧ acceptedNames es = true
  ∧ Forall (λ e, kind_ok e = true ∧ coherent (oid e) = true) es.
Proof.
  simpl. rewrite !andb_true_iff, bool_decide_eq_true, forallb_forall, Forall_forall.
  setoid_rewrite andb_true_iff. setoid_rewrite <-list_elem_of_In.
  split; [intros [[??]?]|intros (?&?&?)]; done.
Qed.

Lemma entry_ok_kind e : entry_ok e = true → kind_ok e = true.
Proof. unfold entry_ok, kind_ok. by destruct (type e), (oid e) as [|[|]|]. Qed.

(** An entry that names an object of its type and whose object is read
    as a tree is a directory. *)
Lemma kind_ok_read e es :
  kind_ok e = true → entriesRead (Some (oid e)) = Some es → type e = tree.
Proof. unfold kind_ok. by destruct (type e), (oid e). Qed.

(** The well-formed trees are coherent. *)
Lemma wf_coherent s : wf s = true → coherent s = true.
Proof.
  induction s as [c|es IH|es IH] using sha_ind'; [done| |done].
  intros (Hcan & Hn & Hes)%wf_tree. apply coherent_tree.
  split_and!; [by destruct Hcan|done|].
  rewrite Forall_forall in *. intros e He. destruct (Hes e He).
  split; [by apply entry_ok_kind|by apply IH].
Qed.

(** What a read at the start of [upsertTree] finds in a coherent tree. *)
Lemma coherent_opt_read T es :
  coherent_opt T = true → entriesRead T = Some es →
  NoDup (path <$> es) ∧ acceptedNames es = true
  ∧ ∀ e, e ∈ es → kind_ok e = true ∧ coherent (oid e) = true.
Proof.
  destruct T as [[c|es'|es']|]; cbn [entriesRead coherent_opt from_option];
    intros Hco [= <-].
  - apply coherent_tree in Hco as (? & ? & Hes). split_and!; [done..|].
    by apply Forall_forall.
  - split_and!; [apply NoDup_nil_2|done|]. by intros e ?%elem_of_nil.
Qed.

(** ** add-file-deep.js: the upsert *)

Lemma upsertTree_blob c part rest X st :
  upsertTree (Some (BlobSha c)) (part :: rest) X st
  = (Err (ObjectTypeError (BlobSha c)), st).
Proof. done. Qed.

Lemma upsertTree_unsafe es part rest X st :
  upsertTree (Some (UnsafeTreeSha es)) (part :: rest) X st
  = (Err (UnsafeFilepathError (UnsafeTreeSha es)), st).
Proof. done. Qed.

Lemma upsertTree_leaf T es part X st :
  entriesRead T = Some es →
  upsertTree T [part] X st
  = writeTree (filter (λ e, path e ≠ part) es ++ [Entry "100644" part X blob]) st.
Proof. destruct T as [[| |]|]; intros [= <-]; done. Qed.

Lemma upsertTree_dir T es part rest X st :
  entriesRead T = Some es → rest ≠ [] →
  upsertTree T (part :: rest) X st
  = match upsertTree (oid <$> findPath part es) rest X st with
    | (Ok sub, st1) =>
        writeTree (filter (λ e, path e ≠ part) es
                   ++ [Entry "040000" part sub tree]) st1
    | (Err e, st1) => (Err e, st1)
    end.
Proof.
  intros HT Hrest.
  destruct T as [[| |]|]; simplify_eq/=; destruct rest as [|r rest]; try done;
    munfold; unfold readTree;
    by destruct (upsertTree _ (r :: rest) X st) as [[?|?] ?].
Qed.

Lemma writeTree_run entries st :
  ∃ st', writeTree entries st = (Ok (treeOid (sortEntries entries)), st')
         ∧ commits st' = commits st ∧ refs st' = refs st
         ∧ length (objects st') ≤ S (length (objects st)).
Proof.
  unfold writeTree, writeObject. case_decide; eexists; repeat split; simpl; try lia.
  rewrite length_app. simpl. lia.
Qed.

(** The result of a successful upsert, level by level. *)
Lemma upsertTree_Ok T part rest X st T' st' :
  upsertTree T (part :: rest) X st = (Ok T', st') →
  ∃ es new,
    entriesRead T = Some es
    ∧ T' = treeOid (sortEntries (filter (λ e, path e ≠ part) es ++ [new]))
    ∧ path new = part
    ∧ match rest with
      | [] => new = Entry "100644" part X blob
      | _ :: _ =>
          ∃ sub st1,
            upsertTree (oid <$> findPath part es) rest X st = (Ok sub, st1)
            ∧ new = Entry "040000" part sub tree
      end.
Proof.
  destruct (entriesRead T) as [es|] eqn:HT.
  2:{ destruct T as [[| |]|]; done. }
  destruct rest as [|r rest].
  - rewrite (upsertTree_leaf _ _ _ _ _ HT).
    destruct (writeTree_run (filter (λ e, path e ≠ part) es
                             ++ [Entry "100644" part X blob]) st)
      as (st2 & -> & _). intros [= <- <-]. eauto 10.
  - rewrite (upsertTree_dir _ _ _ _ _ _ HT) by done.
    destruct (upsertTree _ (r :: rest) X st) as [[sub|err] st1] eqn:Hsub; [|done].
    destruct (writeTree_run (filter (λ e, path e ≠ part) es
                             ++ [Entry "040000" part sub tree]) st1)
      as (st2 & -> & _). intros [= <- <-]. eauto 10.
Qed.

(** C2.  An upsert through a name that is a blob stops with the
    library's type error: the recursion is handed the blob's id as the
    tree to read. *)
Theorem upsert_through_blob_fails es e c part rest X st :
  findPath part es = Some e → oid e = BlobSha c → rest ≠ [] →
  upsertTree (Some (TreeSha es)) (part :: rest) X st
  = (Err (ObjectTypeError (BlobSha c)), st).
Proof.
  intros Hf Hoid Hrest. rewrite (upsertTree_dir _ es) by done.
  rewrite Hf. simpl. rewrite Hoid. by destruct rest.
Qed.

(** *** The tree an upsert writes *)

(** An entry that alone bears its name is the one a lookup finds. *)
Lemma findPath_only p (l : list entry) e :
  e ∈ l → path e = p → (∀ x, x ∈ l → path x = p → x = e) →
  findPath p l = Some e.
Proof.
  intros He Hp Honly. destruct (findPath p l) as [x|] eqn:Hf.
  - apply findPath_Some in Hf as [??]. f_equal. by apply Honly.
  - apply findPath_None in Hf. destruct Hf. rewrite <-Hp.
    by apply list_elem_of_fmap_2.
Qed.

(** The entry an upsert pushes is found under its name. *)
Lemma findPath_upserted p (es : list entry) new :
  path new = p →
  findPath p (sortEntries (filter (λ e, path e ≠ p) es ++ [new])) = Some new.
Proof.
  intros Hp. apply findPath_only; [| done |].
  - rewrite sortEntries_perm, elem_of_app, list_elem_of_singleton. by right.
  - intros x. rewrite sortEntries_perm, elem_of_app, list_elem_of_singleton.
    intros [[??]%list_elem_of_filter|?] ?; done.
Qed.

Lemma findPath_filter_ne x p (es : list entry) :
  x ≠ p → findPath x (filter (λ e, path e ≠ p) es) = findPath x es.
Proof.
  intros Hne. induction es as [|e es IH]; [done|].
  rewrite filter_cons. simpl. case_decide as Hp.
  - simpl. by rewrite IH.
  - rewrite IH. case_bool_decide; [congruence|done].
Qed.

Lemma findPath_app_ne x (l : list entry) new :
  path new ≠ x → findPath x (l ++ [new]) = findPath x l.
Proof.
  intros Hne. induction l as [|e l IH]; simpl.
  - by case_bool_decide.
  - by rewrite IH.
Qed.

Lemma NoDup_path_upserted p (es : list entry) new :
  NoDup (path <$> es) → path new = p →
  NoDup (path <$> (filter (λ e, path e ≠ p) es ++ [new])).
Proof.
  intros Hnd Hp. rewrite fmap_app. apply NoDup_app. split_and!.
  - apply (sublist_NoDup _ (path <$> es)); [done|].
    apply fmap_sublist, sublist_filter.
  - intros y (e & -> & [??]%list_elem_of_filter)%list_elem_of_fmap.
    simpl. rewrite list_elem_of_singleton. congruence.
  - simpl. apply NoDup_singleton.
Qed.

(** The other names of the level keep their entries. *)
Lemma findPath_upsert_other x p (es : list entry) new :
  NoDup (path <$> es) → path new = p → x ≠ p →
  findPath x (sortEntries (filter (λ e, path e ≠ p) es ++ [new]))
  = findPath x es.
Proof.
  intros Hnd Hp Hne.
  rewrite (findPath_perm x (filter (λ e, path e ≠ p) es ++ [new]));
    [|by apply NoDup_path_upserted|by rewrite sortEntries_perm].
  rewrite findPath_app_ne by congruence. by apply findPath_filter_ne.
Qed.

Lemma accepted_cons p rest :
  accepted (p :: rest) = true ↔ unsafeFilepath p = false ∧ accepted rest = true.
Proof. unfold accepted. simpl. by rewrite andb_true_iff, negb_true_iff. Qed.

(** At a level whose names the parser accepts, an upsert under an
    accepted name writes a tree the library reads. *)
Lemma treeOid_upserted p (es : list entry) new :
  acceptedNames es = true → unsafeFilepath p = false → path new = p →
  treeOid (sortEntries (filter (λ e, path e ≠ p) es ++ [new]))
  = TreeSha (sortEntries (filter (λ e, path e ≠ p) es ++ [new])).
Proof.
  intros Hes Hp Hnew. apply treeOid_accepted.
  apply (acceptedNames_perm (filter (λ e, path e ≠ p) es ++ [new])).
  { by rewrite sortEntries_perm. }
  rewrite acceptedNames_app, acceptedNames_filter by done.
  unfold acceptedNames. simpl. by rewrite Hnew, Hp.
Qed.

(** Under a name the parser refuses, it writes a tree the library does
    not read. *)
Lemma treeOid_upserted_refused p (es : list entry) new :
  unsafeFilepath p = true → path new = p →
  treeOid (sortEntries (filter (λ e, path e ≠ p) es ++ [new]))
  = UnsafeTreeSha (sortEntries (filter (λ e, path e ≠ p) es ++ [new])).
Proof.
  intros Hp Hnew. apply (treeOid_refused _ new); [|by rewrite Hnew].
  rewrite sortEntries_perm, elem_of_app, list_elem_of_singleton. by right.
Qed.

(** The result of a successful upsert in a coherent tree, along a path
    the parser accepts: every tree written is one the library reads. *)
Lemma upsertTree_Ok_coherent T part rest X st T' st' :
  coherent_opt T = true → accepted (part :: rest) = true →
  upsertTree T (part :: rest) X st = (Ok T', st') →
  ∃ es new,
    entriesRead T = Some es ∧ NoDup (path <$> es)
    ∧ T' = TreeSha (sortEntries (filter (λ e, path e ≠ part) es ++ [new]))
    ∧ path new = part
    ∧ match rest with
      | [] => new = Entry "100644" part X blob
      | _ :: _ =>
          ∃ sub st1,
            upsertTree (oid <$> findPath part es) rest X st = (Ok sub, st1)
            ∧ new = Entry "040000" part sub tree
            ∧ coherent_opt (oid <$> findPath part es) = true
            ∧ accepted rest = true
            ∧ ∀ e, findPath part es = Some e → type e = tree
      end.
Proof.
  intros Hco [Hp Hacc]%accepted_cons
    (es & new & HT & -> & Hnew & Hrest)%upsertTree_Ok.
  destruct (coherent_opt_read _ _ Hco HT) as (Hnd & Hnames & Hes).
  exists es, new. split_and!; [done..|by apply treeOid_upserted|done|].
  destruct rest as [|r rest]; [done|].
  destruct Hrest as (sub & st1 & Hsub & ->).
  exists sub, st1. split_and!; [done..| |done|].
  - destruct (findPath part es) as [e|] eqn:Hf; [|done].
    apply findPath_Some in Hf as [He _]. by destruct (Hes e He).
  - intros e Hf. pose proof Hf as [He _]%findPath_Some.
    destruct (Hes e He) as [Hk _]. rewrite Hf in Hsub.
    change (oid <$> Some e) with (Some (oid e)) in Hsub.
    destruct (upsertTree_Ok _ _ _ _ _ _ _ Hsub) as (es' & _ & HT' & _).
    by eapply kind_ok_read.
Qed.

(** *** Reading a path back *)

Lemma walkParts_cons x q prev es m st :
  walkParts (x :: q) prev (Target (TreeSha es) m tree) st
  = match findPath x es with
    | None => (Err (PathNotFound x), st)
    | Some e => walkParts q x (Target (oid e) (Some (mode e)) (type e)) st
    end.
Proof.
  simpl. munfold. unfold readTree.
  by destruct (findPath x es).
Qed.

Lemma walkParts_unsafe x q prev es m st :
  walkParts (x :: q) prev (Target (UnsafeTreeSha es) m tree) st
  = (Err (UnsafeFilepathError (UnsafeTreeSha es)), st).
Proof. done. Qed.

Lemma walkParts_state parts prev cur st r st' :
  walkParts parts prev cur st = (r, st') → st' = st.
Proof.
  revert prev cur. induction parts as [|x q IH]; intros prev cur; simpl.
  { by intros [= _ <-]. }
  case_decide; [by intros [= _ <-]|]. munfold.
  destruct (t_sha cur); simpl; [by intros [= _ <-]| |by intros [= _ <-]].
  destruct (find _ _); [apply IH|by intros [= _ <-]].
Qed.

Lemma upsert_read_back segs :
  ∀ T X st T' st' prev m st2,
    coherent_opt T = true → accepted segs = true →
    upsertTree T segs X st = (Ok T', st') →
    walkParts segs prev (Target T' m tree) st2
    = (Ok (Target X (Some "100644") blob), st2).
Proof.
  induction segs as [|p rest IH]; intros T X st T' st' prev m st2 Hco Hacc Hup;
    [done|].
  destruct (upsertTree_Ok_coherent _ _ _ _ _ _ _ Hco Hacc Hup)
    as (es & new & _ & _ & -> & Hp & Hnew).
  rewrite walkParts_cons, (findPath_upserted p es new Hp).
  destruct rest as [|r rest].
  - by subst new.
  - destruct Hnew as (sub & st1 & Hsub & -> & Hco' & Hacc' & _).
    simpl oid. simpl type. by eapply IH.
Qed.

Lemma unrelated_cons p q segs :
  unrelated (p :: q) (p :: segs) → unrelated q segs.
Proof.
  intros [H1 H2]. split; intros H; [apply H1|apply H2]; by apply prefix_cons.
Qed.

Lemma unrelated_nil_l segs : ¬ unrelated [] segs.
Proof. intros [H _]. apply H, prefix_nil. Qed.

Lemma unrelated_nil_r q : ¬ unrelated q [].
Proof. intros [_ H]. apply H, prefix_nil. Qed.

Lemma upsert_frame segs :
  ∀ T X st T' st' q prev prev' m m' st2 r,
    coherent_opt T = true → accepted segs = true →
    upsertTree T segs X st = (Ok T', st') →
    unrelated q segs →
    walkParts q prev (Target T' m tree) st2 = (Ok r, st2)
    ↔ ∃ t, T = Some t ∧ walkParts q prev' (Target t m' tree) st2 = (Ok r, st2).
Proof.
  induction segs as [|p rest IH]; intros T X st T' st' q prev prev' m m' st2 r
    Hco Hacc Hup Hun; [done|].
  destruct (upsertTree_Ok_coherent _ _ _ _ _ _ _ Hco Hacc Hup)
    as (es & new & HT & Hnd & -> & Hp & Hnew).
  destruct q as [|x q]; [by apply unrelated_nil_l in Hun|].
  rewrite walkParts_cons.
  destruct (decide (x = p)) as [->|Hne].
  - apply unrelated_cons in Hun.
    rewrite (findPath_upserted p es new Hp).
    destruct rest as [|r' rest]; [by apply unrelated_nil_r in Hun|].
    destruct Hnew as (sub & st1 & Hsub & -> & Hco' & Hacc' & Hty).
    simpl oid. simpl type. simpl mode.
    destruct (findPath p es) as [e|] eqn:Hf.
    + pose proof (Hty e eq_refl) as Ht.
      rewrite (IH (Some (oid e)) X st sub st1 q p p (Some "040000")
                 (Some (mode e)) st2 r Hco' Hacc' Hsub Hun).
      destruct T as [[|es'|]|]; simpl in HT; simplify_eq. split.
      * intros (t & [= <-] & Hw). eexists. split; [done|].
        by rewrite walkParts_cons, Hf, Ht.
      * intros (t & [= <-] & Hw). eexists. split; [done|].
        by rewrite walkParts_cons, Hf, Ht in Hw.
    + rewrite (IH None X st sub st1 q p p (Some "040000") None st2 r
                 eq_refl Hacc' Hsub Hun).
      split; [by intros (? & ? & _)|]. intros (t & -> & Hw).
      destruct t as [|es'|]; simpl in HT; simplify_eq.
      by rewrite walkParts_cons, Hf in Hw.
  - rewrite (findPath_upsert_other x p es new Hnd Hp Hne). split.
    + intros Hw. destruct T as [[|es'|]|]; simpl in HT; simplify_eq.
      eexists. split; [done|]. by rewrite walkParts_cons.
    + intros (t & -> & Hw). destruct t as [|es'|]; simpl in HT; simplify_eq.
      by rewrite walkParts_cons in Hw.
Qed.

Lemma upsertTree_writes segs :
  ∀ T X st r st',
    upsertTree T segs X st = (r, st') →
    commits st' = commits st ∧ refs st' = refs st
    ∧ length (objects st') ≤ length (objects st) + length segs.
Proof.
  induction segs as [|p rest IH]; intros T X st r st'.
  { simpl. intros [= _ <-]. split_and!; [done..|lia]. }
  destruct (entriesRead T) as [es|] eqn:HT.
  2:{ destruct T as [[| |]|]; try done.
      - rewrite upsertTree_blob. intros [= _ <-]. split_and!; [done..|lia].
      - rewrite upsertTree_unsafe. intros [= _ <-]. split_and!; [done..|lia]. }
  destruct rest as [|r' rest].
  - rewrite (upsertTree_leaf _ _ _ _ _ HT).
    destruct (writeTree_run (filter (λ e, path e ≠ p) es
                             ++ [Entry "100644" p X blob]) st)
      as (st2 & -> & ? & ? & ?). intros [= _ <-].
    split_and!; [done..|simpl; lia].
  - rewrite (upsertTree_dir _ _ _ _ _ _ HT) by done.
    destruct (upsertTree _ (r' :: rest) X st) as [[sub|err] st1] eqn:Hsub;
      apply IH in Hsub as (? & ? & ?).
    + destruct (writeTree_run (filter (λ e, path e ≠ p) es
                               ++ [Entry "040000" p sub tree]) st1)
        as (st2 & -> & ? & ? & ?). intros [= _ <-].
      split_and!; [congruence..|simpl in *; lia].
    + intros [= _ <-]. split_and!; [done..|simpl in *; lia].
Qed.

(** Past the blob an upsert wrote, a read stops: the segment is a file. *)
Lemma upsert_read_below segs :
  ∀ T X st T' st' prev m st2 x q,
    coherent_opt T = true → accepted segs = true →
    upsertTree T segs X st = (Ok T', st') →
    ∃ part,
      walkParts (segs ++ x :: q) prev (Target T' m tree) st2
      = (Err (PathIsFile part), st2).
Proof.
  induction segs as [|p rest IH]; intros T X st T' st' prev m st2 x q
    Hco Hacc Hup; [done|].
  destruct (upsertTree_Ok_coherent _ _ _ _ _ _ _ Hco Hacc Hup)
    as (es & new & _ & _ & -> & Hp & Hnew).
  rewrite <-app_comm_cons, walkParts_cons, (findPath_upserted p es new Hp).
  destruct rest as [|r rest].
  - subst new. exists p. done.
  - destruct Hnew as (sub & st1 & Hsub & -> & Hco' & Hacc' & _).
    simpl oid. simpl type. by eapply IH.
Qed.

(** A read of a path through a name the parser refuses, in the tree the
    upsert of that path wrote, throws: the tree written at the level of
    that name is not one the library reads. *)
Lemma upsert_unsafe_read_back segs :
  ∀ T X st T' st' prev m st2,
    coherent_opt T = true → accepted segs = false →
    upsertTree T segs X st = (Ok T', st') →
    ∃ o, walkParts segs prev (Target T' m tree) st2
         = (Err (UnsafeFilepathError o), st2).
Proof.
  induction segs as [|p rest IH]; intros T X st T' st' prev m st2 Hco Hacc Hup;
    [done|].
  destruct (unsafeFilepath p) eqn:Hp.
  { apply upsertTree_Ok in Hup as (es & new & _ & -> & Hnew & _).
    rewrite treeOid_upserted_refused by done. eexists. apply walkParts_unsafe. }
  assert (accepted rest = false) as Hrest.
  { unfold accepted in *. simpl in Hacc. by rewrite Hp in Hacc. }
  pose proof Hup as (es & new & HT & -> & Hnew & Hsub)%upsertTree_Ok.
  destruct (coherent_opt_read _ _ Hco HT) as (Hnd & Hnames & Hes).
  rewrite treeOid_upserted by done.
  rewrite walkParts_cons, (findPath_upserted p es new Hnew).
  destruct rest as [|r rest]; [done|].
  destruct Hsub as (sub & st1 & Hsub & ->). simpl oid. simpl type.
  eapply IH; [|done..].
  destruct (findPath p es) as [e|] eqn:Hf; [|done].
  apply findPath_Some in Hf as [He _]. by destruct (Hes e He).
Qed.

(** C8.  Take a successful upsert of [X] at the path [segs] in a
    coherent tree (at every level the names are unique and accepted by
    the library's parser, and every entry names an object of its type).
    When the parser accepts every name of [segs], reading [segs] back
    finds the blob [X]; a path that neither leads to [segs] nor
    continues it resolves in the new tree exactly when it resolved in
    the old one, to the same id, mode and type; and a path that
    continues [segs] does not resolve any more.  When the parser refuses
    a name of [segs], reading [segs] back throws UnsafeFilepathError.
    In both cases at most one tree per segment of [segs] has been
    written. *)
Theorem upsert_round_trip_and_frame T segs X st T' st' :
  coherent_opt T = true →
  upsertTree T segs X st = (Ok T', st') →
  (accepted segs = true →
   (∀ st2, resolveBlobParts T' segs st2
           = (Ok (Target X (Some "100644") blob), st2))
   ∧ (∀ q r st2,
        unrelated q segs →
        resolveBlobParts T' q st2 = (Ok r, st2)
        ↔ ∃ t, T = Some t ∧ resolveBlobParts t q st2 = (Ok r, st2))
   ∧ (∀ x q st2,
        ∃ part, resolveBlobParts T' (segs ++ x :: q) st2
                = (Err (PathIsFile part), st2)))
  ∧ (accepted segs = false →
     ∀ st2, ∃ o, resolveBlobParts T' segs st2
                 = (Err (UnsafeFilepathError o), st2))
  ∧ length (objects st') ≤ length (objects st) + length segs.
Proof.
  intros Hco Hup. split_and!.
  - intros Hacc. split_and!.
    + intros st2. by eapply upsert_read_back.
    + intros q r st2 Hun. by eapply upsert_frame.
    + intros x q st2. by eapply upsert_read_below.
  - intros Hacc st2. by eapply upsert_unsafe_read_back.
  - by apply upsertTree_writes in Hup as (_ & _ & ?).
Qed.

(** ** Removing what an upsert added *)

Lemma walkParts_not_found_absent segs :
  ∀ t prev m st part st',
    walkParts segs prev (Target t m tree) st = (Err (PathNotFound part), st') →
    absentIn (Some t) segs.
Proof.
  induction segs as [|p rest IH]; intros t prev m st part st'; [done|].
  destruct t as [c|es|es]; [done| |done]. rewrite walkParts_cons. simpl.
  destruct (findPath p es) as [e|]; [|done].
  destruct rest as [|r rest]; [done|].
  destruct (type e) eqn:Ht; [by simpl|].
  intros H. split_and!; [done..|]. by eapply IH.
Qed.

Lemma filter_path_absent p (es : list entry) :
  findPath p es = None → filter (λ e, path e ≠ p) es = es.
Proof.
  intros Hf%findPath_None. induction es as [|e es IH]; [done|].
  rewrite fmap_cons, not_elem_of_cons in Hf. destruct Hf as [??].
  rewrite filter_cons_True by done. by rewrite IH.
Qed.

Lemma filter_path_present p (es : list entry) e :
  NoDup (path <$> es) → findPath p es = Some e →
  es ≡ₚ e :: filter (λ x, path x ≠ p) es.
Proof.
  induction es as [|x es IH]; [done|]. rewrite fmap_cons.
  intros [Hx Hnd]%NoDup_cons. simpl. case_bool_decide as Hp.
  - intros [= ->]. rewrite filter_cons_False by (by intros ?).
    rewrite filter_path_absent; [done|].
    apply findPath_None. by rewrite <-Hp.
  - intros Hf. rewrite filter_cons_True by done.
    rewrite (IH Hnd Hf) at 1. apply Permutation_swap.
Qed.

(** Where the pushed entry sits in the tree the upsert wrote. *)
Lemma list_find_upserted p (es : list entry) new :
  path new = p →
  ∃ i, list_find (λ x, path x = p)
         (sortEntries (filter (λ e, path e ≠ p) es ++ [new])) = Some (i, new)
       ∧ delete i (sortEntries (filter (λ e, path e ≠ p) es ++ [new]))
         ≡ₚ filter (λ e, path e ≠ p) es
       ∧ ∀ y, <[i := y]> (sortEntries (filter (λ e, path e ≠ p) es ++ [new]))
              ≡ₚ y :: filter (λ e, path e ≠ p) es.
Proof.
  intros Hp. set (L := sortEntries _).
  destruct (list_find_of_findPath p L new) as [i Hi].
  { by apply findPath_upserted. }
  exists i. split; [done|].
  apply list_find_Some in Hi as (Hi & _ & _).
  assert (delete i L ≡ₚ filter (λ e, path e ≠ p) es) as Hdel.
  { apply (Permutation_cons_inv (a := new)).
    rewrite <-(delete_Permutation L i new Hi). unfold L.
    rewrite sortEntries_perm. by rewrite Permutation_app_comm. }
  split; [done|]. intros y. rewrite <-Hdel.
  rewrite insert_take_drop by (by eapply lookup_lt_Some).
  rewrite delete_take_drop. by rewrite Permutation_middle.
Qed.

Lemma finishTree_canonical entries es st :
  canonical es → acceptedNames es = true → entries ≡ₚ es →
  ∃ st', finishTree entries st = (Ok (pruned (Some (TreeSha es))), st').
Proof.
  intros Hc Ha Hp. destruct (finishTree_run entries st) as (st' & -> & _).
  exists st'. f_equal. destruct entries as [|x xs].
  - apply Permutation_nil_l in Hp as <-. done.
  - rewrite (sortEntries_canonical _ es Hc Hp), (treeOid_accepted es Ha).
    destruct es; [by apply Permutation_nil_r in Hp|done].
Qed.

Lemma remove_upsert segs :
  ∀ T X st,
    wf_opt T = true → accepted segs = true → absentIn T segs →
    ∃ T' st1,
      upsertTree T segs X st = (Ok T', st1)
      ∧ ∀ st2, ∃ st3, removeTreeEntry T' segs st2 = (Ok (pruned T), st3).
Proof.
  induction segs as [|p rest IH]; intros T X st Hwf Hacc Habs; [done|].
  apply accepted_cons in Hacc as [Hsafe Hacc].
  assert (∃ es, entriesRead T = Some es ∧ canonical es
                ∧ acceptedNames es = true
                ∧ pruned T = pruned (Some (TreeSha es))
                ∧ match findPath p es with
                  | None => True
                  | Some e =>
                      rest ≠ [] ∧ type e = tree
                      ∧ absentIn (Some (oid e)) rest
                      ∧ entry_ok e = true ∧ wf (oid e) = true
                  end) as (es & HT & Hcan & Hnames & Hpr & Hf).
  { destruct T as [[c|es|es]|]; simpl in Habs; [done| |done|].
    - exists es. pose proof Hwf as (Hcan & Hn & _)%wf_tree.
      split_and!; try done.
      destruct (findPath p es) as [e|] eqn:Hf; [|done].
      destruct Habs as (? & ? & ?). apply findPath_Some in Hf as [He _].
      destruct (wf_entry _ _ Hwf He). done.
    - exists []. split_and!; try done. split; [done|]. apply NoDup_nil_2. }
  rewrite Hpr. clear Hpr.
  set (F := filter (λ e, path e ≠ p) es).
  assert (∀ new, path new = p →
            treeOid (sortEntries (F ++ [new])) = TreeSha (sortEntries (F ++ [new])))
    as Hid by (intros; by apply treeOid_upserted).
  destruct (findPath p es) as [e|] eqn:Hfind.
  - (* the directory exists: the upsert went into it *)
    destruct Hf as (Hrest & Ht & Habs' & Hok & Hwfe).
    destruct (IH (Some (oid e)) X st Hwfe Hacc Habs') as (sub & st1 & Hsub & Hrm).
    destruct (entry_ok_tree e Hok Ht) as (Hmode & x & xs & Hoid).
    rewrite (upsertTree_dir _ _ _ _ _ _ HT Hrest), Hfind. simpl fmap.
    rewrite Hsub. fold F.
    destruct (writeTree_run (F ++ [Entry "040000" p sub tree]) st1)
      as (st2 & -> & _). rewrite Hid by done.
    eexists _, _. split; [done|]. intros st3.
    destruct (list_find_upserted p es (Entry "040000" p sub tree) eq_refl)
      as (i & Hi & _ & Hins).
    rewrite removeTreeEntry_cons. fold F in Hi, Hins |- *. rewrite Hi.
    destruct rest as [|r rest]; [done|]. simpl oid. simpl type.
    case_decide; [done|].
    destruct (Hrm st3) as (st4 & ->). simpl pruned. rewrite Hoid. simpl.
    apply finishTree_canonical; [done..|]. rewrite Hins.
    assert (path e = p) as Hp by (by apply findPath_Some in Hfind as [??]).
    rewrite (filter_path_present p es e); [|by destruct Hcan|done].
    fold F. destruct e; simpl in *. by subst.
  - (* the name is new at this level *)
    assert (F = es) as HF by (by apply filter_path_absent).
    destruct rest as [|r rest].
    + rewrite (upsertTree_leaf _ _ _ _ _ HT). fold F.
      destruct (writeTree_run (F ++ [Entry "100644" p X blob]) st)
        as (st2 & -> & _). rewrite Hid by done.
      eexists _, _. split; [done|]. intros st3.
      destruct (list_find_upserted p es (Entry "100644" p X blob) eq_refl)
        as (i & Hi & Hdel & _).
      rewrite removeTreeEntry_cons. fold F in Hi, Hdel |- *. rewrite Hi.
      apply finishTree_canonical; [done..|]. by rewrite Hdel, HF.
    + destruct (IH None X st eq_refl Hacc I) as (sub & st1 & Hsub & Hrm).
      rewrite (upsertTree_dir _ _ _ _ _ _ HT) by done. rewrite Hfind.
      simpl fmap. rewrite Hsub. fold F.
      destruct (writeTree_run (F ++ [Entry "040000" p sub tree]) st1)
        as (st2 & -> & _). rewrite Hid by done.
      eexists _, _. split; [done|]. intros st3.
      destruct (list_find_upserted p es (Entry "040000" p sub tree) eq_refl)
        as (i & Hi & Hdel & _).
      rewrite removeTreeEntry_cons. fold F in Hi, Hdel |- *. rewrite Hi.
      simpl oid. simpl type. case_decide; [done|].
      destruct (Hrm st3) as (st4 & ->). simpl pruned.
      apply finishTree_canonical; [done..|]. by rewrite Hdel, HF.
Qed.

(** The upsert of a path that is not found in a well-formed tree
    succeeds, whatever the names of the path. *)
Lemma upsert_absent segs :
  ∀ T X st,
    wf_opt T = true → absentIn T segs →
    ∃ T' st1, upsertTree T segs X st = (Ok T', st1).
Proof.
  induction segs as [|p rest IH]; intros T X st Hwf Habs; [done|].
  assert (∃ es, entriesRead T = Some es
                ∧ match findPath p es with
                  | None => True
                  | Some e => absentIn (Some (oid e)) rest ∧ wf (oid e) = true
                  end) as (es & HT & Hf).
  { destruct T as [[c|es|es]|]; simpl in Habs; [done| |done|].
    - exists es. split; [done|].
      destruct (findPath p es) as [e|] eqn:Hf; [|done].
      destruct Habs as (? & ? & ?). apply findPath_Some in Hf as [He _].
      destruct (wf_entry _ _ Hwf He). done.
    - by exists []. }
  destruct rest as [|r rest].
  - rewrite (upsertTree_leaf _ _ _ _ _ HT).
    destruct (writeTree_run (filter (λ e, path e ≠ p) es
                             ++ [Entry "100644" p X blob]) st)
      as (st2 & -> & _). eauto.
  - rewrite (upsertTree_dir _ _ _ _ _ _ HT) by done.
    destruct (IH (oid <$> findPath p es) X st) as (sub & st1 & ->).
    + by destruct (findPath p es) as [e|]; [destruct Hf|].
    + by destruct (findPath p es) as [e|]; [destruct Hf|].
    + destruct (writeTree_run (filter (λ e, path e ≠ p) es
                               ++ [Entry "040000" p sub tree]) st1)
        as (st2 & -> & _). eauto.
Qed.

Lemma removeTreeEntry_unsafe es part rest st :
  removeTreeEntry (UnsafeTreeSha es) (part :: rest) st
  = (Err (UnsafeFilepathError (UnsafeTreeSha es)), st).
Proof. done. Qed.

(** The removal of a path through a name the parser refuses, from the
    tree the upsert of that path wrote, throws: it cannot read the tree
    written at the level of that name. *)
Lemma remove_unsafe_upsert segs :
  ∀ T X st T' st' st2,
    coherent_opt T = true → accepted segs = false →
    upsertTree T segs X st = (Ok T', st') →
    ∃ o, removeTreeEntry T' segs st2 = (Err (UnsafeFilepathError o), st2).
Proof.
  induction segs as [|p rest IH]; intros T X st T' st' st2 Hco Hacc Hup;
    [done|].
  destruct (unsafeFilepath p) eqn:Hp.
  { apply upsertTree_Ok in Hup as (es & new & _ & -> & Hnew & _).
    rewrite treeOid_upserted_refused by done.
    eexists. apply removeTreeEntry_unsafe. }
  assert (accepted rest = false) as Hrest.
  { unfold accepted in *. simpl in Hacc. by rewrite Hp in Hacc. }
  pose proof Hup as (es & new & HT & -> & Hnew & Hsub)%upsertTree_Ok.
  destruct (coherent_opt_read _ _ Hco HT) as (Hnd & Hnames & Hes).
  rewrite treeOid_upserted by done.
  destruct (list_find_upserted p es new Hnew) as (i & Hi & _).
  rewrite removeTreeEntry_cons, Hi.
  destruct rest as [|r rest]; [done|].
  destruct Hsub as (sub & st1 & Hsub & ->). simpl oid. simpl type.
  case_decide; [done|].
  destruct (IH (oid <$> findPath p es) X st sub st1 st2) as (o & ->);
    [|done..|by exists o].
  destruct (findPath p es) as [e|] eqn:Hf; [|done].
  apply findPath_Some in Hf as [He _]. by destruct (Hes e He).
Qed.

(** C9.  For a well-formed tree [t] (canonical order, names unique and
    accepted by the library's parser, entries consistent, no empty
    directory) in which the path [segs] is not found, the upsert of a
    blob at [segs] succeeds.  When the parser accepts every name of
    [segs], removing [segs] from the result (with the empty root written
    by [main] when the removal returns [null]) gives back the id [t];
    when it refuses one, the removal throws UnsafeFilepathError. *)
Theorem remove_after_upsert t segs X st part :
  wf t = true →
  resolveBlobParts t segs st = (Err (PathNotFound part), st) →
  ∃ T' st1,
    upsertTree (Some t) segs X st = (Ok T', st1)
    ∧ (accepted segs = true →
       ∀ st2, ∃ st3,
         (r ← removeTreeEntry T' segs;
          match r with
          | None => writeTree []
          | Some s => mret s
          end) st2 = (Ok t, st3))
    ∧ (accepted segs = false →
       ∀ st2, ∃ o,
         (r ← removeTreeEntry T' segs;
          match r with
          | None => writeTree []
          | Some s => mret s
          end) st2 = (Err (UnsafeFilepathError o), st2)).
Proof.
  intros Hwf Habs%walkParts_not_found_absent.
  destruct (accepted segs) eqn:Hacc.
  - destruct (remove_upsert segs (Some t) X st Hwf Hacc Habs)
      as (T' & st1 & Hup & Hrm).
    exists T', st1. split_and!; [done| |done]. intros _ st2.
    destruct (Hrm st2) as (st3 & Hr). rewrite run_bind, Hr.
    destruct t as [c|[|e es]|es]; unfold pruned.
    + by destruct segs.
    + destruct (writeTree_run [] st3) as (st4 & -> & _). by exists st4.
    + by exists st3.
    + done.
  - destruct (upsert_absent segs (Some t) X st Hwf Habs) as (T' & st1 & Hup).
    exists T', st1. split_and!; [done..|]. intros _ st2.
    destruct (remove_unsafe_upsert segs (Some t) X st T' st1 st2)
      as (o & Hr); [by apply wf_coherent|done..|].
    exists o. by rewrite run_bind, Hr.
Qed.

(** ** merge-branch.js *)

(** *** What the scripts' computations leave of the repository *)

Global Instance extends_preorder : PreOrder extends.
Proof.
  split.
  - intros st. by split_and!.
  - intros s1 s2 s3 (?&?&?) (?&?&?). split_and!; [congruence..|auto].
Qed.

Lemma adds_objects_ret {A} (a : A) : adds_objects (mret a).
Proof. intros st r st' [= _ <-]. done. Qed.

Lemma adds_objects_throw {A} e : adds_objects (throw e : M A).
Proof. intros st r st' [= _ <-]. done. Qed.

Lemma adds_objects_bind {A B} (m : M A) (f : A → M B) :
  adds_objects m → (∀ a, adds_objects (f a)) → adds_objects (m ≫= f).
Proof.
  intros Hm Hf st r st'. rewrite run_bind.
  destruct (m st) as [[a|e] st1] eqn:E.
  - intros H. etrans; [by eapply Hm|by eapply Hf].
  - intros [= _ <-]. by eapply Hm.
Qed.

Lemma adds_objects_writeObject o : adds_objects (writeObject o).
Proof.
  intros st r st' H.
  destruct (writeObject_run o st) as (st2 & Hw & ? & ? & Hobj).
  rewrite Hw in H. injection H as _ <-. split_and!; [done..|].
  intros x ?. apply Hobj. by left.
Qed.

Lemma adds_objects_readTree s : adds_objects (readTree s).
Proof. intros st r st'. destruct s; intros [= _ <-]; done. Qed.

Lemma adds_objects_readEntries s : adds_objects (readEntries s).
Proof.
  destruct s as [s|]; simpl; [|apply adds_objects_ret].
  apply adds_objects_bind; [apply adds_objects_readTree|].
  intros. apply adds_objects_ret.
Qed.

Lemma readEntries_state s st r st' : readEntries s st = (r, st') → st' = st.
Proof.
  destruct s as [[c|es|es]|]; simpl; munfold; simpl; by intros [= _ <-].
Qed.

Lemma adds_objects_mergeEntry res rec bm om tm p acc :
  (∀ b o t, adds_objects (rec b o t)) →
  adds_objects (mergeEntry res rec bm om tm p acc).
Proof.
  intros Hrec. unfold mergeEntry.
  destruct (_ || _).
  { apply adds_objects_bind; [done|]. intros [s|]; apply adds_objects_ret. }
  repeat case_decide; try apply adds_objects_ret.
  destruct (truthy _); [|apply adds_objects_throw].
  destruct (getProperty _ _); try apply adds_objects_throw.
  apply adds_objects_bind; [apply adds_objects_writeObject|].
  intros. apply adds_objects_ret.
Qed.

Lemma adds_objects_mergeLoop res rec bm om tm names :
  (∀ b o t, adds_objects (rec b o t)) →
  ∀ acc, adds_objects (mergeLoop res rec bm om tm names acc).
Proof.
  intros Hrec. induction names as [|p names IH]; intros acc; simpl.
  - apply adds_objects_ret.
  - apply adds_objects_bind; [by apply adds_objects_mergeEntry|done].
Qed.

Lemma adds_objects_mergeTrees_fuel res n :
  ∀ b o t, adds_objects (mergeTrees_fuel res n b o t).
Proof.
  induction n as [|n IH]; intros b o t; simpl; [apply adds_objects_throw|].
  repeat (apply adds_objects_bind; [apply adds_objects_readEntries|]; intros ?).
  apply adds_objects_bind; [by apply adds_objects_mergeLoop|].
  intros [|??]; [apply adds_objects_ret|].
  apply adds_objects_bind; [apply adds_objects_writeObject|].
  intros. apply adds_objects_ret.
Qed.

Lemma adds_objects_mergeTrees res b o t : adds_objects (mergeTrees res b o t).
Proof. apply adds_objects_mergeTrees_fuel. Qed.

(** *** The [Map] of a tree's entries *)

Lemma Map_set_elem {V} k (v : V) m k' v' :
  (k', v') ∈ Map_set k v m → (k', v') = (k, v) ∨ (k', v') ∈ m.
Proof.
  induction m as [|[k0 v0] m IH]; simpl.
  - intros ->%list_elem_of_singleton. by left.
  - case_decide.
    + intros [->|?]%elem_of_cons; [by left|right; by right].
    + intros [->|[?|?]%IH]%elem_of_cons; [right; by left|by left|right; by right].
Qed.

Lemma Map_new_elem {V} (pairs : list (string * V)) k v :
  (k, v) ∈ Map_new pairs → (k, v) ∈ pairs.
Proof.
  unfold Map_new. rewrite <-(app_nil_l pairs) at 2.
  assert (∀ m, (k, v) ∈ foldl (λ m kv, Map_set kv.1 kv.2 m) m pairs →
               (k, v) ∈ m ++ pairs) as H; [|by intros ?%H].
  induction pairs as [|[k0 v0] pairs IH]; intros m; simpl.
  { by rewrite app_nil_r. }
  intros [Hin|Hin]%IH%elem_of_app; rewrite elem_of_app, elem_of_cons; [|auto].
  apply Map_set_elem in Hin as [?|?]; auto.
Qed.

Lemma Map_get_elem {V} k (m : list (string * V)) v :
  Map_get k m = Some v → (k, v) ∈ m.
Proof.
  unfold Map_get. destruct (find _ m) as [[k' v']|] eqn:Hf; [|done].
  intros [= <-]. apply find_some in Hf as [Hin Hk].
  apply bool_decide_eq_true in Hk. simpl in Hk. subst.
  by apply list_elem_of_In.
Qed.

(** An entry found under [p] in the [Map] of a tree is an entry of the
    tree, named [p]. *)
Lemma readEntries_get s st m p e :
  readEntries s st = (Ok m, st) → Map_get p m = Some e →
  path e = p ∧ ∃ es, s = Some (TreeSha es) ∧ e ∈ es.
Proof.
  destruct s as [[c|es|es]|]; simpl; munfold; simpl; [done| |done|].
  - intros [= <-] Hg%Map_get_elem%Map_new_elem.
    apply list_elem_of_fmap in Hg as (e' & [= -> ->] & ?). eauto.
  - intros [= <-]. done.
Qed.

Lemma Map_set_fresh {V} k (v : V) m :
  k ∉ m.*1 → Map_set k v m = m ++ [(k, v)].
Proof.
  induction m as [|[k0 v0] m IH]; simpl; [done|].
  rewrite not_elem_of_cons. intros [??]. case_decide; [done|].
  by rewrite IH.
Qed.

Lemma Map_new_NoDup {V} (pairs : list (string * V)) :
  NoDup pairs.*1 → Map_new pairs = pairs.
Proof.
  unfold Map_new.
  assert (∀ m, NoDup (m ++ pairs).*1 →
               foldl (λ m kv, Map_set kv.1 kv.2 m) m pairs = m ++ pairs) as H.
  { induction pairs as [|[k v] pairs IH]; intros m; simpl.
    { by rewrite app_nil_r. }
    intros Hnd. rewrite cons_middle, app_assoc in Hnd |- *.
    rewrite <-IH by done. f_equal. apply Map_set_fresh.
    rewrite !fmap_app in Hnd. apply NoDup_app in Hnd as (Hnd & _ & _).
    apply NoDup_app in Hnd as (_ & Hk & _). intros Hin.
    apply (Hk _ Hin). simpl. by left. }
  intros Hnd. by apply (H []).
Qed.

Lemma Map_get_entries p (es : list entry) :
  Map_get p ((λ e, (path e, e)) <$> es) = findPath p es.
Proof.
  unfold Map_get. induction es as [|e es IH]; simpl; [done|].
  case_bool_decide; [done|]. apply IH.
Qed.

(** For a tree with unique names the [Map] is the entry list itself. *)
Lemma readEntries_canonical es st :
  NoDup (path <$> es) →
  readEntries (Some (TreeSha es)) st = (Ok ((λ e, (path e, e)) <$> es), st).
Proof.
  intros Hnd. simpl. munfold. simpl. rewrite Map_new_NoDup; [done|].
  by rewrite <-list_fmap_compose.
Qed.

(** *** One name of one level *)

Lemma mergeEntry_mergeName res rec bm om tm p acc st :
  mergeEntry res rec bm om tm p acc st
  = match mergeName res rec bm om tm p st with
    | (Ok o, st') => (Ok (pushIf acc o), st')
    | (Err e, st') => (Err e, st')
    end.
Proof.
  unfold mergeEntry, mergeName, isDir, resolveConflict.
  destruct (_ || _).
  { rewrite !run_bind.
    by destruct (rec _ _ _ st) as [[[s|]|e] st']. }
  destruct (decide (oid <$> Map_get p om = oid <$> Map_get p tm)) as [H1|H1];
    [done|].
  destruct (decide (oid <$> Map_get p om = oid <$> Map_get p bm
                    ∧ oid <$> Map_get p tm ≠ oid <$> Map_get p bm)) as [H2|H2].
  { destruct H2 as [H2 _]. by rewrite (decide_True _ _ H2). }
  destruct (decide (oid <$> Map_get p om ≠ oid <$> Map_get p bm
                    ∧ oid <$> Map_get p tm = oid <$> Map_get p bm)) as [H3|H3].
  { destruct H3 as [H3 H4]. by rewrite (decide_False _ _ H3), (decide_True _ _ H4). }
  rewrite decide_False.
  2:{ intros Hob. apply H2. split; [done|]. congruence. }
  rewrite decide_False.
  2:{ intros Htb. apply H3. split; [|done]. intros Hob. apply H2.
      split; [done|]. congruence. }
  destruct (truthy _); [|done].
  by destruct (getProperty res p) as [|content|].
Qed.

Lemma adds_objects_mergeName res rec bm om tm p :
  (∀ b o t, adds_objects (rec b o t)) →
  adds_objects (mergeName res rec bm om tm p).
Proof.
  intros Hrec st r st' H.
  apply (adds_objects_mergeEntry res rec bm om tm p [] Hrec st
           (match r with Ok o => Ok (pushIf [] o) | Err e => Err e end)).
  rewrite mergeEntry_mergeName, H. by destruct r.
Qed.

(** The loop is the names' outcomes, pushed in order. *)
Lemma mergeLoop_cons res rec bm om tm p names acc st :
  mergeLoop res rec bm om tm (p :: names) acc st
  = match mergeName res rec bm om tm p st with
    | (Ok o, st1) => mergeLoop res rec bm om tm names (pushIf acc o) st1
    | (Err e, st1) => (Err e, st1)
    end.
Proof.
  simpl. rewrite run_bind, mergeEntry_mergeName.
  by destruct (mergeName _ _ _ _ _ _ _) as [[?|?] ?].
Qed.

Lemma mergeLoop_acc res rec bm om tm names :
  ∀ acc st,
    mergeLoop res rec bm om tm names acc st
    = match mergeLoop res rec bm om tm names [] st with
      | (Ok out, st') => (Ok (acc ++ out), st')
      | (Err e, st') => (Err e, st')
      end.
Proof.
  induction names as [|p names IH]; intros acc st.
  { simpl. by rewrite !run_ret, app_nil_r. }
  rewrite !mergeLoop_cons.
  destruct (mergeName _ _ _ _ _ _ _) as [[o|e] st1]; [|done].
  rewrite (IH (pushIf acc o)), (IH (pushIf [] o)).
  destruct (mergeLoop _ _ _ _ _ names [] st1) as [[out|e] st2]; [|done].
  destruct o; simpl; by rewrite <-?app_assoc.
Qed.

Lemma mergeLoop_app res rec bm om tm pre post acc st :
  mergeLoop res rec bm om tm (pre ++ post) acc st
  = match mergeLoop res rec bm om tm pre acc st with
    | (Ok acc1, st1) => mergeLoop res rec bm om tm post acc1 st1
    | (Err e, st1) => (Err e, st1)
    end.
Proof.
  revert acc st. induction pre as [|p pre IH]; intros acc st; [done|].
  rewrite <-app_comm_cons, !mergeLoop_cons.
  destruct (mergeName _ _ _ _ _ _ _) as [[o|e] st1]; [apply IH|done].
Qed.

(** The recursion is only entered for directories; two stand-ins for it
    that agree there give the same loop. *)
Lemma mergeName_ext res rec1 rec2 bm om tm p st :
  (isDir om tm p = true →
   rec1 (oid <$> Map_get p bm) (oid <$> Map_get p om) (oid <$> Map_get p tm) st
   = rec2 (oid <$> Map_get p bm) (oid <$> Map_get p om) (oid <$> Map_get p tm) st) →
  mergeName res rec1 bm om tm p st = mergeName res rec2 bm om tm p st.
Proof.
  intros H. unfold mergeName. destruct (isDir om tm p); [|done].
  by rewrite !run_bind, H.
Qed.

Lemma mergeLoop_ext res rec1 rec2 bm om tm names :
  (∀ p st, p ∈ names → isDir om tm p = true →
   rec1 (oid <$> Map_get p bm) (oid <$> Map_get p om) (oid <$> Map_get p tm) st
   = rec2 (oid <$> Map_get p bm) (oid <$> Map_get p om) (oid <$> Map_get p tm) st) →
  ∀ acc st,
    mergeLoop res rec1 bm om tm names acc st
    = mergeLoop res rec2 bm om tm names acc st.
Proof.
  induction names as [|p names IH]; intros H acc st; [done|].
  rewrite !mergeLoop_cons.
  rewrite (mergeName_ext res rec1 rec2) by (intros; apply H; [by left|done]).
  destruct (mergeName _ _ _ _ _ _ _) as [[o|e] st1]; [|done].
  apply IH. intros. apply H; [by right|done].
Qed.

(** *** Enough fuel *)

Lemma depth_entry es (e : entry) : e ∈ es → depth (oid e) < depth (TreeSha es).
Proof.
  simpl. induction es as [|x es IH]; [by intros ?%elem_of_nil|].
  intros [->|?%IH]%elem_of_cons; simpl; lia.
Qed.

Lemma depth_get s st m p :
  readEntries s st = (Ok m, st) →
  depth_opt (oid <$> Map_get p m) ≤ pred (depth_opt s).
Proof.
  intros Hr. destruct (Map_get p m) as [e|] eqn:Hg; simpl; [|lia].
  destruct (readEntries_get _ _ _ _ _ Hr Hg) as (_ & es & -> & He).
  apply depth_entry in He. simpl in *. lia.
Qed.

Lemma depth_isDir o t st om tm p :
  readEntries o st = (Ok om, st) → readEntries t st = (Ok tm, st) →
  isDir om tm p = true → 0 < max (depth_opt o) (depth_opt t).
Proof.
  intros Ho Ht. unfold isDir.
  intros [H|H]%orb_true_iff; apply bool_decide_eq_true in H.
  - destruct (Map_get p om) as [e|] eqn:Hg; [|done].
    destruct (readEntries_get _ _ _ _ _ Ho Hg) as (_ & es & -> & He). simpl. lia.
  - destruct (Map_get p tm) as [e|] eqn:Hg; [|done].
    destruct (readEntries_get _ _ _ _ _ Ht Hg) as (_ & es & -> & He). simpl. lia.
Qed.

Lemma mergeTrees_fuel_enough res n :
  ∀ m b o t st,
    depth3 b o t < n → depth3 b o t < m →
    mergeTrees_fuel res n b o t st = mergeTrees_fuel res m b o t st.
Proof.
  induction n as [|n IH]; intros m b o t st Hn Hm; [lia|].
  destruct m as [|m]; [lia|]. simpl. rewrite !run_bind.
  destruct (readEntries b st) as [[bm|e] st1] eqn:Hb; [|done].
  pose proof (readEntries_state _ _ _ _ Hb) as ->.
  rewrite !run_bind.
  destruct (readEntries o st) as [[om|e] st1] eqn:Ho; [|done].
  pose proof (readEntries_state _ _ _ _ Ho) as ->.
  rewrite !run_bind.
  destruct (readEntries t st) as [[tm|e] st1] eqn:Ht; [|done].
  pose proof (readEntries_state _ _ _ _ Ht) as ->.
  rewrite !run_bind.
  rewrite (mergeLoop_ext res (mergeTrees_fuel res n) (mergeTrees_fuel res m));
    [done|].
  intros p s _ Hdir.
  pose proof (depth_get _ _ _ p Hb). pose proof (depth_get _ _ _ p Ho).
  pose proof (depth_get _ _ _ p Ht).
  pose proof (depth_isDir _ _ _ _ _ p Ho Ht Hdir).
  unfold depth3 in *. apply IH; lia.
Qed.

(** [mergeTrees] satisfies the equation of the source function: the fuel
    it starts with is enough for every recursive call. *)
Lemma mergeTrees_unfold res b o t st :
  mergeTrees res b o t st
  = (baseEntries ← readEntries b;
     ourEntries ← readEntries o;
     theirEntries ← readEntries t;
     let allPaths := Set_new (Map_keys baseEntries ++ Map_keys ourEntries
                              ++ Map_keys theirEntries) in
     newEntries ← mergeLoop res (mergeTrees res)
                    baseEntries ourEntries theirEntries allPaths [];
     match newEntries with
     | [] => mret None
     | _ :: _ => t ← writeTree newEntries; mret (Some t)
     end) st.
Proof.
  unfold mergeTrees at 1. simpl. rewrite !run_bind.
  destruct (readEntries b st) as [[bm|e] st1] eqn:Hb; [|done].
  pose proof (readEntries_state _ _ _ _ Hb) as ->.
  rewrite !run_bind.
  destruct (readEntries o st) as [[om|e] st1] eqn:Ho; [|done].
  pose proof (readEntries_state _ _ _ _ Ho) as ->.
  rewrite !run_bind.
  destruct (readEntries t st) as [[tm|e] st1] eqn:Ht; [|done].
  pose proof (readEntries_state _ _ _ _ Ht) as ->.
  rewrite !run_bind.
  rewrite (mergeLoop_ext res (mergeTrees_fuel res _) (mergeTrees res)); [done|].
  intros p s _ Hdir.
  pose proof (depth_get _ _ _ p Hb). pose proof (depth_get _ _ _ p Ho).
  pose proof (depth_get _ _ _ p Ht).
  pose proof (depth_isDir _ _ _ _ _ p Ho Ht Hdir).
  unfold mergeTrees. apply mergeTrees_fuel_enough; unfold depth3 in *; lia.
Qed.

(** [mergeTrees] never runs out of fuel. *)
Lemma mergeTrees_fuel_total res n :
  ∀ b o t st st',
    depth3 b o t < n → mergeTrees_fuel res n b o t st ≠ (Err OutOfFuel, st').
Proof.
  induction n as [|n IH]; intros b o t st st' Hn; [lia|].
  simpl. rewrite !run_bind.
  destruct (readEntries b st) as [[bm|e] st1] eqn:Hb.
  2:{ destruct b as [[| |]|]; simpl in Hb; munfold; simpl in Hb; by simplify_eq. }
  pose proof (readEntries_state _ _ _ _ Hb) as ->.
  rewrite !run_bind.
  destruct (readEntries o st) as [[om|e] st1] eqn:Ho.
  2:{ destruct o as [[| |]|]; simpl in Ho; munfold; simpl in Ho; by simplify_eq. }
  pose proof (readEntries_state _ _ _ _ Ho) as ->.
  rewrite !run_bind.
  destruct (readEntries t st) as [[tm|e] st1] eqn:Ht.
  2:{ destruct t as [[| |]|]; simpl in Ht; munfold; simpl in Ht; by simplify_eq. }
  pose proof (readEntries_state _ _ _ _ Ht) as ->.
  rewrite !run_bind.
  generalize (Set_new (Map_keys bm ++ Map_keys om ++ Map_keys tm)) as names.
  intros names.
  assert (∀ p, isDir om tm p = true →
               depth3 (oid <$> Map_get p bm) (oid <$> Map_get p om)
                 (oid <$> Map_get p tm) < n) as Hdepth.
  { intros p Hdir.
    pose proof (depth_get _ _ _ p Hb). pose proof (depth_get _ _ _ p Ho).
    pose proof (depth_get _ _ _ p Ht).
    pose proof (depth_isDir _ _ _ _ _ p Ho Ht Hdir).
    unfold depth3 in *. lia. }
  clear Hb Ho Ht.
  destruct (mergeLoop _ _ _ _ _ names [] st) as [[[|x out]|e] st1] eqn:Hl;
    [done| |].
  { rewrite run_bind. unfold writeTree.
    by destruct (writeObject_run (treeOid (sortEntries (x :: out))) st1)
      as (? & -> & _). }
  intros [= -> ->]. revert Hl. generalize (@nil entry) as acc. revert st.
  induction names as [|p names IHn]; intros st acc; [done|].
  rewrite mergeLoop_cons.
  destruct (mergeName _ _ _ _ _ _ _) as [[o'|e] st1] eqn:Hm; [by apply IHn|].
  intros [= -> ->]. revert Hm. unfold mergeName, resolveConflict.
  destruct (isDir om tm p) eqn:Hdir.
  - rewrite run_bind.
    destruct (mergeTrees_fuel _ _ _ _ _ _) as [[s|e] st1] eqn:Hrec; [done|].
    intros [= -> ->]. revert Hrec. by apply IH, Hdepth.
  - repeat case_decide; try done.
    destruct (truthy _); [|done]. by destruct (getProperty res p).
Qed.

(** *** [Set] *)

Lemma Set_new_spec (items : list string) :
  NoDup (Set_new items) ∧ ∀ x, x ∈ Set_new items ↔ x ∈ items.
Proof.
  unfold Set_new.
  assert (∀ s, NoDup s →
     NoDup (foldl (λ s k, if decide (k ∈ s) then s else s ++ [k]) s items)
     ∧ ∀ x, x ∈ foldl (λ s k, if decide (k ∈ s) then s else s ++ [k]) s items
            ↔ x ∈ s ∨ x ∈ items) as H.
  { induction items as [|k items IH]; intros s Hs; simpl.
    { split; [done|]. intros x. rewrite elem_of_nil. naive_solver. }
    case_decide as Hk.
    - destruct (IH s Hs) as [? Hx]. split; [done|]. intros x.
      rewrite Hx, elem_of_cons. naive_solver.
    - destruct (IH (s ++ [k])) as [? Hx].
      { apply NoDup_app. split_and!; [done| |apply NoDup_singleton].
        intros x ? ->%list_elem_of_singleton. done. }
      split; [done|]. intros x.
      rewrite Hx, elem_of_app, list_elem_of_singleton, elem_of_cons. naive_solver. }
  destruct (H [] (NoDup_nil_2)) as [? Hx]. split; [done|].
  intros x. rewrite Hx, elem_of_nil. naive_solver.
Qed.

(** *** The entries a level produces *)

Lemma readEntries_keyed s st m : readEntries s st = (Ok m, st) → keyed m.
Proof. intros Hr p e Hg. by destruct (readEntries_get _ _ _ _ _ Hr Hg). Qed.

Section level.
Variable res : gmap string string.
Variable rec : option sha → option sha → option sha → M (option sha).
Variables bm om tm : list (string * entry).
Hypothesis Hom : keyed om.
Hypothesis Htm : keyed tm.
Hypothesis Hrec : ∀ b o t, adds_objects (rec b o t).

Lemma mergeName_path p st e st' :
  mergeName res rec bm om tm p st = (Ok (Some e), st') → path e = p.
Proof.
  unfold mergeName, resolveConflict. destruct (isDir om tm p).
  { rewrite run_bind. destruct (rec _ _ _ st) as [[[s|]|?] ?]; try done.
    by intros [= <- _]. }
  destruct (decide (_ = _)); [intros [= H _]; by apply Hom|].
  destruct (decide (_ = _)); [intros [= H _]; by apply Htm|].
  destruct (decide (_ = _)); [intros [= H _]; by apply Hom|].
  destruct (truthy (getProperty res p)); [|done].
  destruct (getProperty res p) as [|content|]; try done.
  rewrite run_bind. unfold writeBlob.
  destruct (writeObject_run (BlobSha content) st) as (? & -> & _).
  by intros [= <- _].
Qed.

Lemma mergeLoop_paths names :
  ∀ st out st',
    mergeLoop res rec bm om tm names [] st = (Ok out, st') →
    ∀ e, e ∈ out → path e ∈ names.
Proof.
  induction names as [|p names IH]; intros st out st'.
  { intros [= <- _] e ?%elem_of_nil. done. }
  rewrite mergeLoop_cons.
  destruct (mergeName _ _ _ _ _ _ _) as [[o|?] st1] eqn:Hn; [|done].
  rewrite mergeLoop_acc.
  destruct (mergeLoop _ _ _ _ _ names [] st1) as [[out2|?] st2] eqn:Hl; [|done].
  intros [= <- _] e [He|He]%elem_of_app.
  - destruct o as [e'|]; [|by apply elem_of_nil in He].
    apply list_elem_of_singleton in He as ->.
    apply mergeName_path in Hn as ->. by left.
  - right. by eapply IH.
Qed.

(** What the level holds under a name is what the loop body pushed for
    that name. *)
Lemma mergeLoop_lookup names :
  NoDup names →
  ∀ st out st',
    mergeLoop res rec bm om tm names [] st = (Ok out, st') →
    NoDup (path <$> out)
    ∧ ∀ p, p ∈ names →
        ∃ s1 s2,
          extends st s1 ∧ extends s2 st'
          ∧ mergeName res rec bm om tm p s1 = (Ok (findPath p out), s2).
Proof.
  induction 1 as [|q names Hq Hnd IH]; intros st out st'.
  { intros [= <- _]. split; [apply NoDup_nil_2|]. by intros p ?%elem_of_nil. }
  rewrite mergeLoop_cons.
  destruct (mergeName _ _ _ _ _ _ _) as [[o|?] st1] eqn:Hn; [|done].
  rewrite mergeLoop_acc.
  destruct (mergeLoop _ _ _ _ _ names [] st1) as [[out2|?] st2] eqn:Hl; [|done].
  intros [= <- <-].
  pose proof (mergeLoop_paths _ _ _ _ Hl) as Hpaths.
  destruct (IH _ _ _ Hl) as [Hnd2 Hlook].
  assert (extends st st1) as Hst by (by eapply adds_objects_mergeName).
  assert (extends st1 st2) as Hst2.
  { eapply (adds_objects_mergeLoop res rec bm om tm names); done. }
  assert (findPath q out2 = None) as Hq2.
  { apply findPath_None. intros (e & -> & He)%list_elem_of_fmap.
    apply Hq. by apply Hpaths. }
  split.
  - destruct o as [e|]; [|done]. simpl.
    apply NoDup_cons. split; [|done].
    rewrite (mergeName_path _ _ _ _ Hn). by apply findPath_None.
  - intros p [->|Hp]%elem_of_cons.
    + exists st, st1. split_and!; [done..|].
      rewrite Hn. do 2 f_equal. destruct o as [e|]; simpl; [|done].
      rewrite (mergeName_path _ _ _ _ Hn). by rewrite bool_decide_true.
    + destruct (Hlook p Hp) as (s1 & s2 & ? & ? & Hm).
      exists s1, s2. split_and!; [by etrans|done|].
      rewrite Hm. do 2 f_equal. destruct o as [e|]; simpl; [|done].
      rewrite (mergeName_path _ _ _ _ Hn).
      rewrite bool_decide_false; [done|]. by intros ->.
Qed.

(** Conversely, the outcomes of the names, run in order, are the
    outcome of the loop. *)
Lemma mergeLoop_eval (g : string → option entry) names :
  (∀ p s, p ∈ names →
     ∃ s', mergeName res rec bm om tm p s = (Ok (g p), s')) →
  ∀ st, ∃ st',
    mergeLoop res rec bm om tm names [] st = (Ok (omap g names), st').
Proof.
  induction names as [|p names IH]; intros Hg st.
  { by exists st. }
  rewrite mergeLoop_cons.
  destruct (Hg p st) as (st1 & ->); [by left|].
  rewrite mergeLoop_acc.
  destruct (IH (λ q s Hq, Hg q s (list_elem_of_further _ _ _ Hq)) st1) as (st2 & ->).
  exists st2. simpl. by destruct (g p).
Qed.

End level.

(** The levels of [mergeTrees]: the three reads, the loop over the union
    of the names, and the tree written from what the loop pushed. *)
Lemma mergeTrees_Ok res b o t st r st' :
  mergeTrees res b o t st = (Ok r, st') →
  ∃ bm om tm newEntries st1,
    readEntries b st = (Ok bm, st)
    ∧ readEntries o st = (Ok om, st)
    ∧ readEntries t st = (Ok tm, st)
    ∧ mergeLoop res (mergeTrees res) bm om tm
        (Set_new (Map_keys bm ++ Map_keys om ++ Map_keys tm)) [] st
      = (Ok newEntries, st1)
    ∧ extends st1 st'
    ∧ r = match newEntries with
          | [] => None
          | _ :: _ => Some (treeOid (sortEntries newEntries))
          end.
Proof.
  rewrite mergeTrees_unfold, !run_bind.
  destruct (readEntries b st) as [[bm|e] s] eqn:Hb; [|done].
  pose proof (readEntries_state _ _ _ _ Hb) as ->. rewrite !run_bind.
  destruct (readEntries o st) as [[om|e] s] eqn:Ho; [|done].
  pose proof (readEntries_state _ _ _ _ Ho) as ->. rewrite !run_bind.
  destruct (readEntries t st) as [[tm|e] s] eqn:Ht; [|done].
  pose proof (readEntries_state _ _ _ _ Ht) as ->. rewrite !run_bind.
  destruct (mergeLoop _ _ _ _ _ _ [] st) as [[ne|e] st1] eqn:Hl; [|done].
  intros H. exists bm, om, tm, ne, st1. split_and!; try done.
  - destruct ne as [|x ne]; [by injection H as _ <-|].
    revert H. rewrite run_bind. unfold writeTree.
    destruct (writeObject_run (treeOid (sortEntries (x :: ne))) st1)
      as (st2 & -> & ? & ? & Hobj).
    intros [= _ <-]. split_and!; [done..|]. intros y ?. apply Hobj. by left.
  - destruct ne as [|x ne]; [by injection H as <- _|].
    revert H. rewrite run_bind. unfold writeTree.
    destruct (writeObject_run (treeOid (sortEntries (x :: ne))) st1)
      as (? & -> & _). by intros [= <- _].
Qed.

(** The rule of the loop body, read off a successful run of it. *)
Lemma mergeName_rule res rec bm om tm p s1 found s2 :
  mergeName res rec bm om tm p s1 = (Ok found, s2) →
  let base := Map_get p bm in
  let ours := Map_get p om in
  let theirs := Map_get p tm in
  (type <$> ours = Some tree ∨ type <$> theirs = Some tree →
   ∃ sub,
     rec (oid <$> base) (oid <$> ours) (oid <$> theirs) s1 = (Ok sub, s2)
     ∧ found = (λ s, Entry "040000" p s tree) <$> sub)
  ∧ (type <$> ours ≠ Some tree → type <$> theirs ≠ Some tree →
     (oid <$> ours = oid <$> theirs → found = ours)
     ∧ (oid <$> ours = oid <$> base → oid <$> theirs ≠ oid <$> base →
        found = theirs)
     ∧ (oid <$> theirs = oid <$> base → oid <$> ours ≠ oid <$> base →
        found = ours)
     ∧ (oid <$> ours ≠ oid <$> theirs → oid <$> ours ≠ oid <$> base →
        oid <$> theirs ≠ oid <$> base →
        ∃ content,
          res !! p = Some content ∧ content ≠ ""
          ∧ found = Some (Entry "100644" p (BlobSha content) blob)
          ∧ BlobSha content ∈ objects s2)).
Proof.
  intros Hm base ours theirs. unfold mergeName, isDir in Hm.
  fold base ours theirs in Hm. split.
  - intros Hdir.
    assert (bool_decide (type <$> ours = Some tree)
            || bool_decide (type <$> theirs = Some tree) = true) as Hd.
    { apply orb_true_iff.
      destruct Hdir; [left|right]; by apply bool_decide_eq_true. }
    rewrite Hd in Hm. revert Hm. rewrite run_bind.
    destruct (rec _ _ _ s1) as [[sub|?] ?]; [|done].
    intros [= <- <-]. eauto.
  - intros Ho Ht. rewrite !bool_decide_false in Hm by done. simpl in Hm.
    split_and!.
    + intros H. rewrite decide_True in Hm by done. by injection Hm as <- _.
    + intros H1 H2. rewrite decide_False in Hm by congruence.
      rewrite decide_True in Hm by done. by injection Hm as <- _.
    + intros H1 H2. rewrite decide_False in Hm by congruence.
      rewrite decide_False in Hm by done. rewrite decide_True in Hm by done.
      by injection Hm as <- _.
    + intros H1 H2 H3. rewrite !decide_False in Hm by done.
      unfold resolveConflict, getProperty in Hm.
      destruct (res !! p) as [content|] eqn:Hres; simpl in Hm.
      * case_bool_decide as Hc; simpl in Hm; [done|].
        rewrite run_bind in Hm. unfold writeBlob in Hm.
        destruct (writeObject_run (BlobSha content) s1)
          as (s & Hw & _ & _ & Hobj).
        rewrite Hw in Hm. injection Hm as <- <-.
        exists content. split_and!; try done. apply Hobj. by right.
      * by case_decide.
Qed.

(** Under each name of the union, the merged tree holds what the loop
    body pushed for that name. *)
Lemma mergeTrees_lookup res b o t st r st' :
  mergeTrees res b o t st = (Ok r, st') →
  ∃ bm om tm merged,
    readEntries b st = (Ok bm, st)
    ∧ readEntries o st = (Ok om, st)
    ∧ readEntries t st = (Ok tm, st)
    ∧ entriesOf r = Some merged
    ∧ ∀ p,
        p ∈ Map_keys bm ++ Map_keys om ++ Map_keys tm →
        ∃ s1 s2,
          extends s2 st'
          ∧ mergeName res (mergeTrees res) bm om tm p s1
            = (Ok (findPath p merged), s2).
Proof.
  intros (bm & om & tm & ne & st1 & Hb & Ho & Ht & Hl & Hst & ->)%mergeTrees_Ok.
  exists bm, om, tm, (sortEntries ne). split_and!; try done.
  { destruct ne; [done|apply entriesOf_treeOid]. }
  intros p Hp.
  destruct (Set_new_spec (Map_keys bm ++ Map_keys om ++ Map_keys tm))
    as [Hnd Hin].
  destruct (mergeLoop_lookup res (mergeTrees res) bm om tm
              (readEntries_keyed _ _ _ Ho) (readEntries_keyed _ _ _ Ht)
              (adds_objects_mergeTrees res) _ Hnd _ _ _ Hl) as [Hndp Hlook].
  destruct (Hlook p) as (s1 & s2 & _ & Hs2 & Hm); [by apply Hin|].
  rewrite (findPath_perm p ne) by (done || by rewrite sortEntries_perm).
  exists s1, s2. split; [by etrans|done].
Qed.

(** C4.  For every name [p] of the union of the three entry sets, the
    merged tree of a successful [mergeTrees] holds under [p] what the
    per-name rule says: for a directory on our or their side, the result
    of merging the three ids at that name, and nothing when that result
    is empty; otherwise our entry when both sides agree, their entry when
    only they changed, our entry when only we changed, and for a
    conflict a fresh blob, mode 100644, of the resolution, which is the
    non-empty string that [resolutions] holds under the entry name [p]. *)
Theorem merge_follows_per_name_rule res b o t st r st' :
  mergeTrees res b o t st = (Ok r, st') →
  ∃ bm om tm merged,
    readEntries b st = (Ok bm, st)
    ∧ readEntries o st = (Ok om, st)
    ∧ readEntries t st = (Ok tm, st)
    ∧ entriesOf r = Some merged
    ∧ ∀ p,
        p ∈ Map_keys bm ++ Map_keys om ++ Map_keys tm →
        let base := Map_get p bm in
        let ours := Map_get p om in
        let theirs := Map_get p tm in
        let found := findPath p merged in
        (type <$> ours = Some tree ∨ type <$> theirs = Some tree →
         ∃ s1 s2 sub,
           mergeTrees res (oid <$> base) (oid <$> ours) (oid <$> theirs) s1
           = (Ok sub, s2)
           ∧ found = (λ s, Entry "040000" p s tree) <$> sub)
        ∧ (type <$> ours ≠ Some tree → type <$> theirs ≠ Some tree →
           (oid <$> ours = oid <$> theirs → found = ours)
           ∧ (oid <$> ours = oid <$> base → oid <$> theirs ≠ oid <$> base →
              found = theirs)
           ∧ (oid <$> theirs = oid <$> base → oid <$> ours ≠ oid <$> base →
              found = ours)
           ∧ (oid <$> ours ≠ oid <$> theirs → oid <$> ours ≠ oid <$> base →
              oid <$> theirs ≠ oid <$> base →
              ∃ content,
                res !! p = Some content ∧ content ≠ ""
                ∧ found = Some (Entry "100644" p (BlobSha content) blob)
                ∧ BlobSha content ∈ objects st')).
Proof.
  intros (bm & om & tm & merged & Hb & Ho & Ht & Hr & Hlook)%mergeTrees_lookup.
  exists bm, om, tm, merged. split_and!; try done.
  intros p Hp. destruct (Hlook p Hp) as (s1 & s2 & (_ & _ & Hs2) & Hm).
  destruct (mergeName_rule _ _ _ _ _ _ _ _ _ Hm) as [Hdir Hblob].
  split.
  - intros Hd. destruct (Hdir Hd) as (sub & ? & ?). eauto.
  - intros H1 H2. destruct (Hblob H1 H2) as (? & ? & ? & Hc).
    split_and!; try done.
    intros ???. destruct Hc as (content & ? & ? & ? & Hobj); [done..|].
    exists content. split_and!; try done. auto.
Qed.

Lemma merge_branch_failure fmb res src dst now others st
    sourceSha destSha baseSha bases err st1 :
  resolveRef (branchRef src) st = (Ok sourceSha, st) →
  resolveRef (branchRef dst) st = (Ok destSha, st) →
  fmb destSha sourceSha = baseSha :: bases →
  mergeTrees res (Some (commit_tree baseSha)) (Some (commit_tree destSha))
    (Some (commit_tree sourceSha)) st = (Err err, st1) →
  merge_branch fmb res src dst now others st = (Err err, st1).
Proof.
  intros Hs Hd Hf Hm. unfold merge_branch.
  rewrite run_bind, Hs, run_bind, Hd, Hf. unfold readCommitTree.
  do 3 (rewrite run_bind, run_ret). by rewrite run_bind, Hm.
Qed.

(** C3.  When the loop of [mergeTrees], having merged the names before
    it, reaches a name [p] that is a directory on neither side, whose
    three ids differ pairwise, and for which [resolutions[p]] is falsy,
    the merge of that level throws the Merge Conflict error naming the
    entry name [p], in the state reached before [p]: nothing is written
    from then on.  An error of the merge of a subdirectory is the error
    of the level that holds it.  A failed [mergeTrees] has written no
    commit and moved no ref, and [main] then stops before writing the
    merge commit and the ref. *)
Theorem merge_conflict_aborts :
  (∀ res b o t st bm om tm pre p post acc st1,
     readEntries b st = (Ok bm, st) →
     readEntries o st = (Ok om, st) →
     readEntries t st = (Ok tm, st) →
     Set_new (Map_keys bm ++ Map_keys om ++ Map_keys tm) = pre ++ p :: post →
     mergeLoop res (mergeTrees res) bm om tm pre [] st = (Ok acc, st1) →
     type <$> Map_get p om ≠ Some tree → type <$> Map_get p tm ≠ Some tree →
     oid <$> Map_get p om ≠ oid <$> Map_get p tm →
     oid <$> Map_get p om ≠ oid <$> Map_get p bm →
     oid <$> Map_get p tm ≠ oid <$> Map_get p bm →
     truthy (getProperty res p) = false →
     mergeTrees res b o t st = (Err (MergeConflict p), st1))
  ∧ (∀ res b o t st bm om tm pre p post acc st1 err st2,
       readEntries b st = (Ok bm, st) →
       readEntries o st = (Ok om, st) →
       readEntries t st = (Ok tm, st) →
       Set_new (Map_keys bm ++ Map_keys om ++ Map_keys tm) = pre ++ p :: post →
       mergeLoop res (mergeTrees res) bm om tm pre [] st = (Ok acc, st1) →
       type <$> Map_get p om = Some tree ∨ type <$> Map_get p tm = Some tree →
       mergeTrees res (oid <$> Map_get p bm) (oid <$> Map_get p om)
         (oid <$> Map_get p tm) st1 = (Err err, st2) →
       mergeTrees res b o t st = (Err err, st2))
  ∧ (∀ res b o t st err st',
       mergeTrees res b o t st = (Err err, st') →
       commits st' = commits st ∧ refs st' = refs st)
  ∧ (∀ fmb res src dst now others st sourceSha destSha baseSha bases err st1,
       resolveRef (branchRef src) st = (Ok sourceSha, st) →
       resolveRef (branchRef dst) st = (Ok destSha, st) →
       fmb destSha sourceSha = baseSha :: bases →
       mergeTrees res (Some (commit_tree baseSha)) (Some (commit_tree destSha))
         (Some (commit_tree sourceSha)) st = (Err err, st1) →
       merge_branch fmb res src dst now others st = (Err err, st1)
       ∧ commits st1 = commits st ∧ refs st1 = refs st).
Proof.
  split_and!.
  - intros res b o t st bm om tm pre p post acc st1 Hb Ho Ht Hnames Hpre
      Hdo Hdt H1 H2 H3 Hres.
    rewrite mergeTrees_unfold, !run_bind, Hb, !run_bind, Ho, !run_bind, Ht.
    rewrite !run_bind. cbv zeta. rewrite Hnames, mergeLoop_app, Hpre.
    rewrite mergeLoop_cons. unfold mergeName, isDir.
    rewrite !bool_decide_false by done. simpl.
    rewrite !decide_False by done. unfold resolveConflict. by rewrite Hres.
  - intros res b o t st bm om tm pre p post acc st1 err st2 Hb Ho Ht Hnames
      Hpre Hdir Hsub.
    rewrite mergeTrees_unfold, !run_bind, Hb, !run_bind, Ho, !run_bind, Ht.
    rewrite !run_bind. cbv zeta. rewrite Hnames, mergeLoop_app, Hpre.
    rewrite mergeLoop_cons. unfold mergeName, isDir.
    assert (bool_decide (type <$> Map_get p om = Some tree)
            || bool_decide (type <$> Map_get p tm = Some tree) = true) as ->.
    { apply orb_true_iff.
      destruct Hdir; [left|right]; by apply bool_decide_eq_true. }
    by rewrite run_bind, Hsub.
  - intros res b o t st err st' H.
    by destruct (adds_objects_mergeTrees res b o t _ _ _ H) as (? & ? & _).
  - intros fmb res src dst now others st sourceSha destSha baseSha bases err st1
      Hs Hd Hf Hm.
    split; [by eapply merge_branch_failure|].
    by destruct (adds_objects_mergeTrees _ _ _ _ _ _ _ Hm) as (? & ? & _).
Qed.




(** ** The ref update *)

Lemma resolveRef_currentRef ref st :
  resolveRef ref st
  = match currentRef ref (refs st) with
    | Some c => (Ok c, st)
    | None => (Err (RefNotFound ref), st)
    end.
Proof. unfold resolveRef, currentRef. by destruct (omap _ _). Qed.

Lemma try_resolveRef_run refName st :
  try_catch (c ← resolveRef refName; mret (Some c)) (λ _, mret None) st
  = (Ok (currentRef refName (refs st)), st).
Proof.
  unfold try_catch. rewrite run_bind, resolveRef_currentRef.
  by destruct (currentRef refName (refs st)).
Qed.

Lemma writeCommit_run message t parents author st :
  ∃ st', writeCommit message t parents author st
         = (Ok (CommitSha (default emptyTree t) parents author message), st')
         ∧ refs st' = refs st ∧ objects st' = objects st.
Proof. unfold writeCommit. case_decide; eauto. Qed.

(** The two file scripts compare before they write: when the ref no
    longer holds the parent they started from, they write no ref. *)
Lemma add_file_deep_stale refName filePath content now f st r st' :
  currentRef refName (f (refs st)) ≠ currentRef refName (refs st) →
  add_file_deep refName filePath content now (movingRefs f) st = (r, st') →
  (∀ c, r ≠ Ok c) ∧ (refs st' = refs st ∨ refs st' = f (refs st)).
Proof.
  intros Hmoved. unfold add_file_deep.
  rewrite run_bind, try_resolveRef_run.
  set (parentSha := currentRef refName (refs st)) in *.
  rewrite run_bind.
  assert (match parentSha with
          | Some p => t ← readCommitTree p; mret (Some t)
          | None => mret None
          end st = (Ok (commit_tree <$> parentSha), st)) as ->
    by by destruct parentSha.
  rewrite run_bind. unfold writeBlob.
  destruct (writeObject_run (BlobSha content) st) as (st1 & -> & _ & Hr1 & _).
  rewrite run_bind.
  destruct (upsertTree _ _ _ st1) as [[newRoot|e] st2] eqn:Hup.
  2:{ intros [= <- <-]. apply upsertTree_writes in Hup as (_ & Hr2 & _).
      split; [done|]. left. congruence. }
  apply upsertTree_writes in Hup as (_ & Hr2 & _).
  rewrite run_bind.
  destruct (writeCommit_run ("Add " +:+ filePath) (Some newRoot)
              (match parentSha with Some p => [p] | None => [] end)
              (apiBot now) st2) as (st3 & -> & Hr3 & _).
  rewrite run_bind. unfold concurrently. rewrite run_bind.
  rewrite try_resolveRef_run.
  assert (currentRef refName (refs (movingRefs f st3)) ≠ parentSha) as Hcur.
  { simpl. by rewrite Hr3, Hr2, Hr1. }
  rewrite (decide_True _ _ Hcur).
  intros [= <- <-]. split; [done|]. right. simpl. congruence.
Qed.

Lemma remove_file_deep_stale refName filePath now f st r st' :
  currentRef refName (f (refs st)) ≠ currentRef refName (refs st) →
  remove_file_deep refName filePath now (movingRefs f) st = (r, st') →
  (∀ c, r ≠ Ok c) ∧ (refs st' = refs st ∨ refs st' = f (refs st)).
Proof.
  intros Hmoved. unfold remove_file_deep.
  rewrite run_bind. unfold try_catch. rewrite resolveRef_currentRef.
  destruct (currentRef refName (refs st)) as [parentSha|] eqn:Hpar.
  2:{ intros [= <- <-]. split; [done|]. by left. }
  rewrite run_bind. unfold readCommitTree at 1. rewrite run_ret, run_bind.
  destruct (removeTreeEntry _ _ st) as [[newRoot|e] st1] eqn:Hrm.
  2:{ intros [= <- <-]. apply removeTreeEntry_run in Hrm as (_ & Hr & _).
      split; [done|]. left. congruence. }
  apply removeTreeEntry_run in Hrm as (_ & Hr1 & _).
  rewrite run_bind.
  assert (∃ t st2, match newRoot with
                   | Some t => mret t
                   | None => writeTree []
                   end st1 = (Ok t, st2) ∧ refs st2 = refs st1)
    as (t & st2 & -> & Hr2).
  { destruct newRoot; [by eexists _, _|].
    destruct (writeTree_run [] st1) as (st2 & -> & _ & ? & _). eauto. }
  rewrite run_bind.
  destruct (writeCommit_run ("Remove " +:+ filePath) (Some t) [parentSha]
              (apiBot now) st2) as (st3 & -> & Hr3 & _).
  rewrite run_bind. unfold concurrently. rewrite run_bind.
  rewrite resolveRef_currentRef.
  assert (currentRef refName (refs (movingRefs f st3))
          = currentRef refName (f (refs st))) as ->.
  { simpl. by rewrite Hr3, Hr2, Hr1. }
  assert (refs (movingRefs f st3) = f (refs st)) as Hrefs.
  { simpl. by rewrite Hr3, Hr2, Hr1. }
  destruct (currentRef refName (f (refs st))) as [c|] eqn:Hcur.
  - rewrite decide_True by congruence.
    intros [= <- <-]. split; [done|]. by right.
  - intros [= <- <-]. split; [done|]. by right.
Qed.

(** C1.  [main] of merge-branch.js writes the destination ref without
    comparing: once the three trees merge, the script succeeds and the
    ref holds the merge commit whatever the other writers [f] did to the
    ref store since the script read the ref, a move of the destination
    ref included. *)
Theorem merge_branch_forces_the_ref fmb res src dst now f st
    sourceSha destSha baseSha bases newTree st1 :
  resolveRef (branchRef src) st = (Ok sourceSha, st) →
  resolveRef (branchRef dst) st = (Ok destSha, st) →
  fmb destSha sourceSha = baseSha :: bases →
  mergeTrees res (Some (commit_tree baseSha)) (Some (commit_tree destSha))
    (Some (commit_tree sourceSha)) st = (Ok newTree, st1) →
  ∃ c st',
    merge_branch fmb res src dst now (movingRefs f) st = (Ok c, st')
    ∧ c = CommitSha (default emptyTree newTree) [destSha; sourceSha]
            (mergeBot now)
            ("Merge branch '" +:+ src +:+ "' into '" +:+ dst +:+ "'")
    ∧ refs st' = <[branchRef dst := c]> (f (refs st)).
Proof.
  intros Hs Hd Hf Hm. unfold merge_branch.
  rewrite run_bind, Hs, run_bind, Hd, Hf. unfold readCommitTree.
  do 3 (rewrite run_bind, run_ret). rewrite run_bind, Hm.
  destruct (adds_objects_mergeTrees _ _ _ _ _ _ _ Hm) as (_ & Hr1 & _).
  rewrite run_bind.
  destruct (writeCommit_run
              ("Merge branch '" +:+ src +:+ "' into '" +:+ dst +:+ "'")
              newTree [destSha; sourceSha] (mergeBot now) st1)
    as (st2 & -> & Hr2 & _).
  rewrite run_bind. unfold concurrently. rewrite run_bind. unfold writeRef.
  rewrite run_ret. eexists _, _. split_and!; [done..|].
  simpl. congruence.
Qed.

(** ** Fast-forward and no-op merges *)

Lemma wfTreeOpt_canonical T : wfTreeOpt T → canonical (entriesOpt T).
Proof.
  destruct T as [[c|es|es]|]; simpl; try done.
  - by intros [? _]%wf_tree.
  - intros _. split; [done|apply NoDup_nil_2].
Qed.

Lemma wfTreeOpt_accepted T : wfTreeOpt T → acceptedNames (entriesOpt T) = true.
Proof.
  destruct T as [[c|es|es]|]; simpl; try done.
  by intros (_ & ? & _)%wf_tree.
Qed.

Lemma readEntries_wf T st :
  wfTreeOpt T →
  readEntries T st = (Ok ((λ e, (path e, e)) <$> entriesOpt T), st).
Proof.
  destruct T as [[c|es|es]|]; simpl; try done.
  intros [[_ ?] _]%wf_tree. by apply readEntries_canonical.
Qed.

Lemma wfTreeOpt_entry T p e :
  wfTreeOpt T → findPath p (entriesOpt T) = Some e →
  path e = p ∧ entry_ok e = true ∧ wf (oid e) = true.
Proof.
  destruct T as [[c|es|es]|]; simpl; try done.
  intros Hwf [He Hp]%findPath_Some. by destruct (wf_entry _ _ Hwf He).
Qed.

(** A directory entry of a well-formed tree is rebuilt by the loop body
    as it was, and names a well-formed, non-empty tree. *)
Lemma wfTreeOpt_dir T p e :
  wfTreeOpt T → findPath p (entriesOpt T) = Some e → type e = tree →
  e = Entry "040000" p (oid e) tree
  ∧ wfTreeOpt (Some (oid e)) ∧ entriesOpt (Some (oid e)) ≠ [].
Proof.
  intros HT Hf Ht. destruct (wfTreeOpt_entry _ _ _ HT Hf) as (Hp & Hok & Hwf).
  destruct (entry_ok_tree e Hok Ht) as (Hmode & x & xs & Hoid).
  split_and!.
  - destruct e; simpl in *. by subst.
  - by rewrite Hoid in Hwf |- *.
  - by rewrite Hoid.
Qed.

Lemma agreeOpt_entry modes b t p eb et :
  wfTreeOpt b → wfTreeOpt t → agreeOpt modes b t →
  findPath p (entriesOpt b) = Some eb → findPath p (entriesOpt t) = Some et →
  type eb = type et
  ∧ (modes = true → oid eb = oid et → mode eb = mode et)
  ∧ agreeOpt modes (Some (oid eb)) (Some (oid et)).
Proof.
  destruct b as [[c|bs|bs]|], t as [[c'|ts|ts]|]; simpl; try done.
  intros _ _ Hag [Hb Hp]%findPath_Some Ht.
  rewrite forallb_forall in Hag. apply list_elem_of_In, Hag in Hb.
  rewrite Hp, Ht in Hb. apply andb_true_iff in Hb as [Hb ?].
  apply andb_true_iff in Hb as [?%bool_decide_eq_true Hm].
  split_and!; [done| |done].
  intros ->. simpl in Hm. by apply bool_decide_eq_true in Hm.
Qed.

Lemma depth_findPath T p :
  depth_opt (oid <$> findPath p (entriesOpt T)) ≤ pred (depth_opt T).
Proof.
  destruct (findPath p (entriesOpt T)) as [e|] eqn:Hf; simpl; [|lia].
  destruct T as [[c|es|es]|]; simpl in Hf; try done.
  apply findPath_Some in Hf as [He _]. apply depth_entry in He.
  simpl in *. lia.
Qed.

Lemma depth_dir T p e :
  findPath p (entriesOpt T) = Some e → 0 < depth_opt T.
Proof. destruct T as [[c|es|es]|]; simpl; try done. lia. Qed.

(** The entries of [ts], looked up in the order of [names]. *)
Lemma omap_findPath_perm (names : list string) (ts : list entry) :
  NoDup names → NoDup (path <$> ts) → (∀ e, e ∈ ts → path e ∈ names) →
  omap (λ p, findPath p ts) names ≡ₚ ts.
Proof.
  intros Hn Ht Hin. apply NoDup_Permutation.
  - clear Hin. induction Hn as [|p names Hp Hn IH]; simpl; [apply NoDup_nil_2|].
    destruct (findPath p ts) as [e|] eqn:Hf; [|done].
    apply NoDup_cons. split; [|done].
    intros (q & Hq & Hfq)%list_elem_of_omap.
    apply findPath_Some in Hf as [_ <-]. apply findPath_Some in Hfq as [_ <-].
    done.
  - by apply NoDup_fmap_1 in Ht.
  - intros e. rewrite list_elem_of_omap. split.
    + by intros (q & _ & [? _]%findPath_Some).
    + intros He. exists (path e). split; [by apply Hin|].
      by apply findPath_NoDup.
Qed.

(** A level whose names yield the entries of [ts] yields the tree [ts],
    or nothing when [ts] is empty. *)
Lemma mergeTrees_assemble res b o t (ts : list entry) st :
  wfTreeOpt b → wfTreeOpt o → wfTreeOpt t →
  canonical ts → acceptedNames ts = true →
  (∀ e, e ∈ ts →
        path e ∈ path <$> (entriesOpt b ++ entriesOpt o ++ entriesOpt t)) →
  (∀ p s,
     ∃ s', mergeName res (mergeTrees res)
             ((λ e, (path e, e)) <$> entriesOpt b)
             ((λ e, (path e, e)) <$> entriesOpt o)
             ((λ e, (path e, e)) <$> entriesOpt t) p s
           = (Ok (findPath p ts), s')) →
  ∃ st', mergeTrees res b o t st = (Ok (pruned (Some (TreeSha ts))), st').
Proof.
  intros Hb Ho Ht Hts Hacc Hin Hname.
  rewrite mergeTrees_unfold, !run_bind, (readEntries_wf b) by done.
  rewrite !run_bind, (readEntries_wf o) by done.
  rewrite !run_bind, (readEntries_wf t) by done.
  rewrite !run_bind. cbv zeta. unfold Map_keys.
  rewrite <-!list_fmap_compose, <-!fmap_app.
  set (names := Set_new _).
  destruct (mergeLoop_eval res (mergeTrees res) _ _ _
              (λ p, findPath p ts) names (λ p s _, Hname p s) st) as (st1 & ->).
  destruct (Set_new_spec ((fst ∘ (λ e : entry, (path e, e)))
                          <$> entriesOpt b ++ entriesOpt o ++ entriesOpt t))
    as [Hnd Hnames]. fold names in Hnd, Hnames.
  assert (omap (λ p, findPath p ts) names ≡ₚ ts) as Hperm.
  { apply omap_findPath_perm; [done|by destruct Hts|].
    intros e He. apply Hnames. by apply Hin. }
  destruct (finishTree_canonical _ ts st1 Hts Hacc Hperm) as (st2 & Hfin).
  exists st2. rewrite <-Hfin. unfold finishTree.
  by destruct (omap _ names).
Qed.

Section both_merges.
Variable res : gmap string string.

(** Both merges, for trees that may be absent: [t] comes out, as [null]
    when it is absent. *)
Lemma merge_takes_theirs n :
  ∀ b t st,
    max (depth_opt b) (depth_opt t) < n →
    wfTreeOpt b → wfTreeOpt t → (t ≠ None → entriesOpt t ≠ []) →
    agreeOpt false b t →
    (agreeOpt true b t → ∃ st', mergeTrees res b b t st = (Ok t, st'))
    ∧ ∃ st', mergeTrees res b t b st = (Ok t, st').
Proof.
  induction n as [|n IH]; intros b t st Hn Hb Ht Hne Hag; [lia|].
  assert (pruned (Some (TreeSha (entriesOpt t))) = t) as Hpr.
  { destruct t as [[c|[|e es]|es]|]; simpl in *; try done. by destruct Hne. }
  assert (∀ e, e ∈ entriesOpt t →
               path e ∈ path <$> (entriesOpt b ++ entriesOpt b ++ entriesOpt t))
    as Hin1.
  { intros e He. apply list_elem_of_fmap_2. rewrite !elem_of_app. auto. }
  assert (∀ e, e ∈ entriesOpt t →
               path e ∈ path <$> (entriesOpt b ++ entriesOpt t ++ entriesOpt b))
    as Hin2.
  { intros e He. apply list_elem_of_fmap_2. rewrite !elem_of_app. auto. }
  (* the recursive call on the ids found under a name *)
  assert (∀ modes p,
            agreeOpt modes b t →
            isDir ((λ e, (path e, e)) <$> entriesOpt b)
                  ((λ e, (path e, e)) <$> entriesOpt t) p = true →
            let b' := oid <$> findPath p (entriesOpt b) in
            let t' := oid <$> findPath p (entriesOpt t) in
            max (depth_opt b') (depth_opt t') < n
            ∧ wfTreeOpt b' ∧ wfTreeOpt t' ∧ (t' ≠ None → entriesOpt t' ≠ [])
            ∧ agreeOpt modes b' t'
            ∧ (λ s, Entry "040000" p s tree) <$> t'
              = findPath p (entriesOpt t)) as Hsub.
  { intros modes p Hagm Hdir b' t'. unfold isDir in Hdir.
    rewrite !Map_get_entries in Hdir.
    pose proof (depth_findPath b p). pose proof (depth_findPath t p).
    unfold b', t'.
    destruct (findPath p (entriesOpt b)) as [eb|] eqn:Hfb;
      destruct (findPath p (entriesOpt t)) as [et|] eqn:Hft; simpl in *.
    - destruct (agreeOpt_entry _ _ _ _ _ _ Hb Ht Hagm Hfb Hft) as (Hty & _ & ?).
      assert (type eb = tree ∧ type et = tree) as [Htb Htt].
      { rewrite <-Hty in Hdir. rewrite orb_diag in Hdir.
        apply bool_decide_eq_true in Hdir. split; congruence. }
      destruct (wfTreeOpt_dir _ _ _ Hb Hfb Htb) as (_ & ? & _).
      destruct (wfTreeOpt_dir _ _ _ Ht Hft Htt) as (<- & ? & ?).
      pose proof (depth_dir _ _ _ Hfb). split_and!; try done. lia.
    - assert (type eb = tree) as Htb.
      { rewrite orb_false_r in Hdir. apply bool_decide_eq_true in Hdir.
        congruence. }
      destruct (wfTreeOpt_dir _ _ _ Hb Hfb Htb) as (_ & ? & _).
      pose proof (depth_dir _ _ _ Hfb). split_and!; try done. lia.
    - assert (type et = tree) as Htt.
      { apply bool_decide_eq_true in Hdir. congruence. }
      destruct (wfTreeOpt_dir _ _ _ Ht Hft Htt) as (<- & ? & ?).
      pose proof (depth_dir _ _ _ Hft). split_and!; try done. lia.
    - done. }
  split.
  - (* fast-forward: base and ours are [b] *)
    intros Hagt.
    destruct (mergeTrees_assemble res b b t (entriesOpt t) st)
      as (st' & Hm);
      [done..|by apply wfTreeOpt_canonical|by apply wfTreeOpt_accepted|done| |];
      [|exists st'; by rewrite Hm, Hpr].
    intros p s. unfold mergeName. rewrite !Map_get_entries.
    destruct (isDir _ _ p) eqn:Hdir.
    + destruct (Hsub true p Hagt Hdir) as (Hd & Hb' & Ht' & Hne' & Hag' & Heq).
      assert (agreeOpt false (oid <$> findPath p (entriesOpt b))
                (oid <$> findPath p (entriesOpt t))) as Hag0.
      { by destruct (Hsub false p Hag Hdir) as (_ & _ & _ & _ & ? & _). }
      destruct (IH _ _ s Hd Hb' Ht' Hne' Hag0) as [Hff _].
      destruct (Hff Hag') as (s' & Hrec).
      exists s'. by rewrite run_bind, Hrec, run_ret, Heq.
    + exists s. unfold isDir in Hdir. rewrite !Map_get_entries in Hdir.
      apply orb_false_iff in Hdir as [Hdb Hdt].
      apply bool_decide_eq_false in Hdb, Hdt.
      case_decide as Heq; [|by rewrite decide_True].
      rewrite run_ret. do 2 f_equal.
      destruct (findPath p (entriesOpt b)) as [eb|] eqn:Hfb;
        destruct (findPath p (entriesOpt t)) as [et|] eqn:Hft; try done.
      simpl in Heq. injection Heq as Heq.
      destruct (agreeOpt_entry _ _ _ _ _ _ Hb Ht Hagt Hfb Hft) as (Hty & Hm & _).
      apply findPath_Some in Hfb as [_ Hpb]. apply findPath_Some in Hft as [_ Hpt].
      specialize (Hm eq_refl Heq).
      destruct eb, et; simpl in *. by subst.
  - (* no-op: base and theirs are [b] *)
    destruct (mergeTrees_assemble res b t b (entriesOpt t) st)
      as (st' & Hm);
      [done..|by apply wfTreeOpt_canonical|by apply wfTreeOpt_accepted|done| |];
      [|exists st'; by rewrite Hm, Hpr].
    intros p s. unfold mergeName. rewrite !Map_get_entries.
    destruct (isDir _ _ p) eqn:Hdir.
    + assert (isDir ((λ e, (path e, e)) <$> entriesOpt b)
                    ((λ e, (path e, e)) <$> entriesOpt t) p = true) as Hdir'.
      { unfold isDir in *. by rewrite orb_comm. }
      destruct (Hsub false p Hag Hdir') as (Hd & Hb' & Ht' & Hne' & Hag' & Heq).
      destruct (IH _ _ s Hd Hb' Ht' Hne' Hag') as [_ (s' & Hrec)].
      exists s'. by rewrite run_bind, Hrec, run_ret, Heq.
    + exists s. destruct (decide (_ = _)) as [Heq|Heq]; [done|].
      by rewrite decide_True.
Qed.
End both_merges.

(** C7.  For well-formed trees [B] and [T], [T] not empty, that agree on
    which names are directories: the merge with base [B], ours [T] and
    theirs [B] returns the id [T]; and the merge with base [B], ours [B]
    and theirs [T] returns the id [T] when, moreover, a file with the
    same content in both has the same mode in both. *)
Theorem merge_fast_forward_and_no_op res bs ts st :
  wf (TreeSha bs) = true → wf (TreeSha ts) = true → ts ≠ [] →
  agree false (TreeSha bs) (TreeSha ts) = true →
  (agree true (TreeSha bs) (TreeSha ts) = true →
   ∃ st', mergeTrees res (Some (TreeSha bs)) (Some (TreeSha bs))
            (Some (TreeSha ts)) st = (Ok (Some (TreeSha ts)), st'))
  ∧ ∃ st', mergeTrees res (Some (TreeSha bs)) (Some (TreeSha ts))
             (Some (TreeSha bs)) st = (Ok (Some (TreeSha ts)), st').
Proof.
  intros Hb Ht Hne Hag.
  apply (merge_takes_theirs res
           (S (max (depth (TreeSha bs)) (depth (TreeSha ts))))
           (Some (TreeSha bs)) (Some (TreeSha ts)) st); try done.
  unfold depth_opt. simpl. lia.
Qed.

(** ** Further properties of the scripts *)


(** * Further properties of the scripts *)

(** ** The paths given on the command line *)


Lemma append_String c s x : String c s +:+ x = String c (s +:+ x).
Proof. done. Qed.


Lemma splitSlash_not_nil s : splitSlash s ≠ [].
Proof.
  induction s as [|c s IH]; simpl; [done|].
  case_decide; [done|]. by destruct (splitSlash s).
Qed.

Lemma splitSlash_concat s : String.concat "/" (splitSlash s) = s.
Proof.
  induction s as [|c s IH]; simpl; [done|].
  pose proof (splitSlash_not_nil s) as Hne.
  case_decide as Hc.
  - subst c. destruct (splitSlash s) as [|w ws]; [done|].
    simpl in *. by rewrite IH.
  - destruct (splitSlash s) as [|w ws]; [done|]. simpl in *.
    destruct ws; simpl in *; by rewrite <-IH.
Qed.

Lemma splitSlash_no_slash s part i :
  part ∈ splitSlash s → String.get i part ≠ Some "/"%char.
Proof.
  revert part i. induction s as [|c s IH]; intros part i; simpl.
  { intros ->%list_elem_of_singleton. by destruct i. }
  pose proof (splitSlash_not_nil s) as Hne.
  case_decide as Hc.
  - intros [->|Hin]%elem_of_cons; [by destruct i|by apply IH].
  - destruct (splitSlash s) as [|w ws]; [done|].
    intros [->|Hin]%elem_of_cons.
    + destruct i as [|i]; simpl; [congruence|]. apply IH. by left.
    + apply IH. by right.
Qed.

(** X1.  [split('/')] cuts a path at its slashes and nowhere else: the
    parts, joined by slashes, are the path again, no part holds a slash,
    and there is always at least one part, so that [upsertTree] and
    [removeTreeEntry] are never called by [main] with an empty array. *)
Theorem splitSlash_joins_back s :
  String.concat "/" (splitSlash s) = s
  ∧ splitSlash s ≠ []
  ∧ ∀ part i, part ∈ splitSlash s → String.get i part ≠ Some "/"%char.
Proof.
  split_and!.
  - apply splitSlash_concat.
  - apply splitSlash_not_nil.
  - intros part i. apply splitSlash_no_slash.
Qed.

Lemma stripLeadingSlashes_slashes n s :
  stripLeadingSlashes (slashes n +:+ s) = stripLeadingSlashes s.
Proof. induction n as [|n IH]; simpl; auto. Qed.

Lemma stripLeadingSlashes_all n : stripLeadingSlashes (slashes n) = "".
Proof. induction n as [|n IH]; simpl; auto. Qed.

Lemma stripTrailingSlashes_all n : stripTrailingSlashes (slashes n) = "".
Proof. induction n as [|n IH]; simpl; [done|]. by rewrite IH. Qed.

Lemma stripTrailingSlashes_slashes s n :
  stripTrailingSlashes (s +:+ slashes n) = stripTrailingSlashes s.
Proof.
  induction s as [|c s IH]; simpl; [apply stripTrailingSlashes_all|].
  by rewrite IH.
Qed.

Lemma strip_both n s m :
  stripTrailingSlashes (stripLeadingSlashes (slashes n +:+ s +:+ slashes m))
  = stripTrailingSlashes (stripLeadingSlashes s).
Proof.
  rewrite stripLeadingSlashes_slashes.
  induction s as [|c s IH].
  { change ("" +:+ slashes m) with (slashes m).
    by rewrite stripLeadingSlashes_all. }
  change (String c s +:+ slashes m) with (String c (s +:+ slashes m)).
  cbn [stripLeadingSlashes]. case_decide; [done|].
  change (String c (s +:+ slashes m)) with (String c s +:+ slashes m).
  apply stripTrailingSlashes_slashes.
Qed.

(** X2.  read-file.js reads a path whatever slashes are put before and
    after it; add-file-deep.js drops the slashes before a path only. *)
Theorem resolveBlobEntry_ignores_outer_slashes root n targetPath m :
  resolveBlobEntry root (slashes n +:+ targetPath +:+ slashes m)
  = resolveBlobEntry root targetPath
  ∧ splitSlash (stripLeadingSlashes (slashes n +:+ targetPath))
    = splitSlash (stripLeadingSlashes targetPath).
Proof.
  split.
  - unfold resolveBlobEntry. by rewrite strip_both.
  - by rewrite stripLeadingSlashes_slashes.
Qed.


(** ** remove-file-deep.js: what a removal does to the tree *)

(** *** Removal and reading walk the same way *)

Lemma remove_like_walk segs :
  ∀ T prev m st, segs ≠ [] →
    match walkParts segs prev (Target T m tree) st with
    | (Ok _, _) => ∃ r st', removeTreeEntry T segs st = (Ok r, st')
    | (Err (PathNotFound part), _) =>
        ∃ t, removeTreeEntry T segs st = (Err (SegmentNotFound part t), st)
    | (Err (PathIsFile part), _) =>
        removeTreeEntry T segs st = (Err (NotADirectory part), st)
    | (Err e, _) => removeTreeEntry T segs st = (Err e, st)
    end.
Proof.
  induction segs as [|p rest IH]; intros T prev m st Hne; [done|].
  destruct T as [c|es|es]; [done| |done].
  rewrite walkParts_cons, removeTreeEntry_cons.
  destruct (findPath p es) as [e|] eqn:Hf.
  2:{ rewrite (list_find_None_of_findPath _ _ Hf). eauto. }
  destruct (list_find_of_findPath _ _ _ Hf) as [i ->].
  destruct rest as [|r rest].
  { simpl. destruct (finishTree_run (delete i es) st) as (st' & -> & _). eauto. }
  destruct (decide (type e ≠ tree)) as [Ht|Ht].
  { simpl. rewrite decide_True by done. done. }
  apply dec_stable in Ht.
  specialize (IH (oid e) p (Some (mode e)) st ltac:(done)).
  replace (Target (oid e) (Some (mode e)) (type e))
    with (Target (oid e) (Some (mode e)) tree) by (by rewrite Ht).
  destruct (walkParts (r :: rest) p _ st) as [[tgt|err] st1].
  - destruct IH as (r1 & st' & ->).
    destruct r1 as [s|].
    + destruct (finishTree_run (<[i:=Entry (mode e) (path e) s (type e)]> es) st')
        as (st2 & -> & _). eauto.
    + destruct (finishTree_run (delete i es) st') as (st2 & -> & _). eauto.
  - destruct err; try (by rewrite IH). by destruct IH as (t & ->); eauto.
Qed.

(** X3.  [removeTreeEntry] goes down a tree as the walk of
    [resolveBlobEntry] does: it succeeds on the paths the walk resolves,
    a file or a directory at the end alike; where the walk misses a
    segment the removal misses the same segment, where the walk is
    stopped by a file the removal is stopped by the same file, and an
    error of the library is the same for both.  A failed removal leaves
    the repository as it was. *)
Theorem removeTreeEntry_follows_resolveBlobParts root segs st :
  segs ≠ [] →
  match resolveBlobParts root segs st with
  | (Ok _, _) => ∃ r st', removeTreeEntry root segs st = (Ok r, st')
  | (Err (PathNotFound part), _) =>
      ∃ t, removeTreeEntry root segs st = (Err (SegmentNotFound part t), st)
  | (Err (PathIsFile part), _) =>
      removeTreeEntry root segs st = (Err (NotADirectory part), st)
  | (Err e, _) => removeTreeEntry root segs st = (Err e, st)
  end.
Proof. intros Hne. by apply remove_like_walk. Qed.

(** *** Canonical entry lists under deletion and replacement *)

Lemma canonical_iff (es : list entry) :
  canonical es ↔ StronglySorted path_le es ∧ NoDup (path <$> es).
Proof.
  split.
  - intros [Hs Hnd]. split; [|done]. rewrite <-Hs. apply sortEntries_sorted.
  - intros [Hs Hnd]. split; [|done].
    apply (StronglySorted_unique_strong path_le).
    + intros x1 x2 H1 H2 H12 H21.
      apply (NoDup_path_inj es); [done| |done|].
      * by rewrite <-(sortEntries_perm es).
      * by apply (anti_symm String.le).
    + apply sortEntries_sorted.
    + done.
    + apply sortEntries_perm.
Qed.

Lemma StronglySorted_same_paths (l l' : list entry) :
  path <$> l = path <$> l' →
  StronglySorted path_le l → StronglySorted path_le l'.
Proof.
  revert l'. induction l as [|x l IH]; intros [|x' l']; try done.
  rewrite !fmap_cons. intros [= Hx Hl] [Hfa Hs]%StronglySorted_cons.
  apply StronglySorted_cons. split; [|by apply IH].
  apply Forall_forall. intros y Hy.
  assert (path y ∈ path <$> l) as (z & Hz & Hzl)%list_elem_of_fmap.
  { rewrite Hl. by apply list_elem_of_fmap_2. }
  rewrite Forall_forall in Hfa. specialize (Hfa z Hzl).
  unfold path_le in *. congruence.
Qed.

Lemma canonical_delete i (es : list entry) :
  canonical es → canonical (delete i es).
Proof.
  rewrite !canonical_iff. intros [Hs Hnd]. split.
  - destruct (es !! i) as [e|] eqn:Hi.
    + rewrite delete_take_drop.
      rewrite <-(take_drop_middle es i e Hi) in Hs.
      apply StronglySorted_app in Hs as (H12 & H1 & H2).
      apply StronglySorted_cons in H2 as [_ H2].
      apply StronglySorted_app. split_and!; [|done..].
      intros x1 x2 ??. apply H12; [done|by right].
    + apply lookup_ge_None in Hi.
      rewrite delete_take_drop, take_ge, drop_ge, app_nil_r by lia. done.
  - apply (sublist_NoDup _ (path <$> es)); [done|].
    apply fmap_sublist, sublist_delete.
Qed.

Lemma canonical_insert i (es : list entry) e e' :
  es !! i = Some e → path e' = path e →
  canonical es → canonical (<[i := e']> es).
Proof.
  intros Hi Hp. rewrite !canonical_iff.
  assert (path <$> <[i := e']> es = path <$> es) as Heq.
  { rewrite list_fmap_insert. apply list_insert_id.
    by rewrite list_lookup_fmap, Hi, Hp. }
  intros [Hs Hnd]. split; [|by rewrite Heq].
  by apply (StronglySorted_same_paths es).
Qed.

Lemma findPath_delete_eq i (es : list entry) e :
  NoDup (path <$> es) → es !! i = Some e →
  findPath (path e) (delete i es) = None.
Proof.
  intros Hnd Hi. apply findPath_None.
  rewrite (delete_Permutation es i e Hi), fmap_cons in Hnd.
  by apply NoDup_cons in Hnd as [? _].
Qed.

Lemma findPath_delete_ne x i (es : list entry) e :
  NoDup (path <$> es) → es !! i = Some e → x ≠ path e →
  findPath x (delete i es) = findPath x es.
Proof.
  intros Hnd Hi Hne.
  rewrite (findPath_perm x (e :: delete i es) es).
  - simpl. by rewrite bool_decide_false by (by intros ?).
  - by rewrite <-(delete_Permutation es i e Hi).
  - by rewrite <-(delete_Permutation es i e Hi).
Qed.

Lemma findPath_insert_eq i (es : list entry) e e' :
  NoDup (path <$> es) → es !! i = Some e → path e' = path e →
  findPath (path e) (<[i := e']> es) = Some e'.
Proof.
  intros Hnd Hi Hp. apply findPath_NoDup; [| |done].
  - rewrite list_fmap_insert, list_insert_id; [done|].
    by rewrite list_lookup_fmap, Hi, Hp.
  - apply list_elem_of_lookup. exists i. apply list_lookup_insert_eq.
    by eapply lookup_lt_Some.
Qed.

Lemma findPath_insert_ne x i (es : list entry) e e' :
  NoDup (path <$> es) → es !! i = Some e → path e' = path e → x ≠ path e →
  findPath x (<[i := e']> es) = findPath x es.
Proof.
  intros Hnd Hi Hp Hne.
  assert (<[i := e']> es ≡ₚ e' :: delete i es) as Hperm.
  { rewrite insert_take_drop by (by eapply lookup_lt_Some).
    rewrite delete_take_drop. by rewrite Permutation_middle. }
  assert (NoDup (path <$> (e' :: delete i es))) as Hnd'.
  { rewrite fmap_cons, Hp. rewrite (delete_Permutation es i e Hi) in Hnd.
    by rewrite fmap_cons in Hnd. }
  rewrite (findPath_perm x (e' :: delete i es)); [|done|done].
  simpl. rewrite bool_decide_false by congruence.
  by apply (findPath_delete_ne x i es e).
Qed.

Lemma acceptedNames_delete i (es : list entry) :
  acceptedNames es = true → acceptedNames (delete i es) = true.
Proof. rewrite !acceptedNames_Forall. apply Forall_delete. Qed.

Lemma acceptedNames_insert i (es : list entry) e e' :
  es !! i = Some e → path e' = path e →
  acceptedNames es = true → acceptedNames (<[i := e']> es) = true.
Proof.
  rewrite !acceptedNames_Forall. intros Hi Hp Hes.
  apply Forall_insert; [done|]. rewrite Hp.
  by apply (proj1 (Forall_lookup _ _) Hes i e).
Qed.

(** *** What a successful removal returns *)

Lemma unrelated_head_ne (x : string) q p :
  unrelated (x :: q) [p] → x ≠ p.
Proof.
  intros [_ H] ->. apply H. by apply prefix_cons, prefix_nil.
Qed.

Lemma walkParts_empty q prev m st r st' :
  q ≠ [] → walkParts q prev (Target (TreeSha []) m tree) st ≠ (Ok r, st').
Proof. destruct q as [|x q]; [done|]. intros _. by rewrite walkParts_cons. Qed.

Lemma remove_result segs :
  ∀ T st r st',
    wf T = true → removeTreeEntry T segs st = (Ok r, st') →
    ∃ es',
      r = pruned (Some (TreeSha es'))
      ∧ wf (TreeSha es') = true
      ∧ (∀ prev m st2, ∃ part,
           walkParts segs prev (Target (TreeSha es') m tree) st2
           = (Err (PathNotFound part), st2))
      ∧ (∀ q prev prev' m m' tgt st2,
           unrelated q segs →
           walkParts q prev (Target (TreeSha es') m tree) st2 = (Ok tgt, st2)
           ↔ walkParts q prev' (Target T m' tree) st2 = (Ok tgt, st2)).
Proof.
  induction segs as [|p rest IH]; intros T st r st' Hwf; [done|].
  destruct T as [c|es|es]; [done| |done].
  pose proof Hwf as (Hcan & Hnames & Hall)%wf_tree.
  pose proof Hcan as [_ Hnd].
  rewrite removeTreeEntry_cons.
  destruct (list_find _ es) as [[i e]|] eqn:Hfind; [|done].
  pose proof Hfind as (Hi & Hp & _)%list_find_Some.
  assert (findPath p es = Some e) as Hf.
  { rewrite <-list_find_findPath. by rewrite Hfind. }
  assert (entry_ok e = true ∧ wf (oid e) = true) as [Hok Hwfe].
  { apply (wf_entry es); [done|]. by eapply list_elem_of_lookup_2. }
  (* the level that loses its entry *)
  assert (∀ s s' r',
    finishTree (delete i es) s = (Ok r', s') →
    r' = pruned (Some (TreeSha (delete i es)))
    ∧ wf (TreeSha (delete i es)) = true
    ∧ (∀ prev m st2, ∃ part,
         walkParts (p :: rest) prev (Target (TreeSha (delete i es)) m tree) st2
         = (Err (PathNotFound part), st2))
    ∧ (∀ x q prev prev' m m' tgt st2,
         x ≠ p →
         walkParts (x :: q) prev (Target (TreeSha (delete i es)) m tree) st2
         = (Ok tgt, st2)
         ↔ walkParts (x :: q) prev' (Target (TreeSha es) m' tree) st2
           = (Ok tgt, st2))) as Hdel.
  { intros s s' r' Hfin.
    destruct (finishTree_canonical (delete i es) (delete i es) s)
      as (s2 & Hfin2);
      [by apply canonical_delete|by apply acceptedNames_delete|done|].
    rewrite Hfin2 in Hfin. injection Hfin as <- _. split_and!.
    - done.
    - apply wf_tree. split_and!;
        [by apply canonical_delete|by apply acceptedNames_delete
        |by apply Forall_delete].
    - intros prev m st2. exists p. rewrite walkParts_cons. subst p.
      by rewrite (findPath_delete_eq i es e).
    - intros x q prev prev' m m' tgt st2 Hne. rewrite !walkParts_cons.
      rewrite (findPath_delete_ne x i es e) by (done || congruence). done. }
  destruct rest as [|r0 rest].
  { intros (-> & ? & ? & Hfr)%Hdel. exists (delete i es). split_and!; try done.
    intros [|x q] prev prev' m m' tgt st2 Hun; [by apply unrelated_nil_l in Hun|].
    apply Hfr. by eapply unrelated_head_ne. }
  destruct (decide (type e ≠ tree)) as [Ht|Ht]; [done|]. apply dec_stable in Ht.
  destruct (removeTreeEntry (oid e) (r0 :: rest) st) as [[r1|err] st1] eqn:Hrec;
    [|by destruct err].
  destruct (IH _ _ _ _ Hwfe Hrec) as (es1 & -> & Hwf1 & Hnf1 & Hfr1).
  destruct es1 as [|x1 xs]; simpl pruned.
  - (* the directory is emptied: its entry goes *)
    intros (-> & ? & ? & Hfr)%Hdel. exists (delete i es). split_and!; try done.
    intros [|x q] prev prev' m m' tgt st2 Hun; [by apply unrelated_nil_l in Hun|].
    destruct (decide (x = p)) as [->|Hne]; [|by apply Hfr].
    apply unrelated_cons in Hun.
    rewrite !walkParts_cons, Hf. subst p.
    rewrite (findPath_delete_eq i es e) by done. rewrite Ht.
    split; [done|]. intros Hw.
    apply (Hfr1 q (path e) (path e) None (Some (mode e)) tgt st2 Hun) in Hw.
    apply walkParts_empty in Hw; [done|].
    intros ->. by apply unrelated_nil_l in Hun.
  - (* the directory is kept, with its new tree *)
    set (e' := Entry (mode e) (path e) (TreeSha (x1 :: xs)) (type e)).
    assert (canonical (<[i := e']> es)) as Hcan'
      by (by apply (canonical_insert i es e)).
    assert (acceptedNames (<[i := e']> es) = true) as Hnames'
      by (by apply (acceptedNames_insert i es e)).
    destruct (finishTree_canonical (<[i := e']> es) (<[i := e']> es) st1)
      as (s2 & Hfin2); [done..|].
    unfold e' in Hfin2. rewrite Hfin2. fold e'.
    intros [= <- _]. exists (<[i := e']> es). split_and!.
    + done.
    + apply wf_tree. split_and!; [done..|]. apply Forall_insert; [done|].
      split; [|done]. unfold entry_ok, e'. simpl. rewrite Ht.
      destruct (entry_ok_tree e Hok Ht) as [-> _]. by apply bool_decide_eq_true.
    + intros prev m st2. rewrite walkParts_cons. subst p.
      rewrite (findPath_insert_eq i es e e') by done.
      unfold e'. cbn [oid mode type]. rewrite Ht. apply Hnf1.
    + intros [|x q] prev prev' m m' tgt st2 Hun; [by apply unrelated_nil_l in Hun|].
      rewrite !walkParts_cons. destruct (decide (x = p)) as [->|Hne].
      * apply unrelated_cons in Hun. rewrite Hf. subst p.
        rewrite (findPath_insert_eq i es e e') by done.
        unfold e'. cbn [oid mode type]. rewrite Ht. apply Hfr1. done.
      * rewrite (findPath_insert_ne x i es e e') by (done || congruence). done.
Qed.

(** X4.  After a successful removal from a well-formed tree the path
    removed is not found any more in the tree returned, the empty tree
    when the removal returned [null]. *)
Theorem removed_path_is_not_found root segs st r st' st2 :
  wf root = true →
  removeTreeEntry root segs st = (Ok r, st') →
  ∃ part,
    resolveBlobParts (default emptyTree r) segs st2
    = (Err (PathNotFound part), st2).
Proof.
  intros Hwf Hrm.
  destruct (remove_result _ _ _ _ _ Hwf Hrm) as (es' & -> & _ & Hgone & _).
  replace (default emptyTree (pruned (Some (TreeSha es')))) with (TreeSha es')
    by (by destruct es').
  apply Hgone.
Qed.

(** X5.  A removal from a well-formed tree touches no other path: a path
    that neither leads to the path removed nor continues it resolves in
    the tree returned exactly when it resolved before, to the same id,
    mode and type. *)
Theorem remove_keeps_the_other_paths root segs st r st' q tgt st2 :
  wf root = true →
  removeTreeEntry root segs st = (Ok r, st') →
  unrelated q segs →
  resolveBlobParts (default emptyTree r) q st2 = (Ok tgt, st2)
  ↔ resolveBlobParts root q st2 = (Ok tgt, st2).
Proof.
  intros Hwf Hrm Hun.
  destruct (remove_result _ _ _ _ _ Hwf Hrm) as (es' & -> & _ & _ & Hframe).
  replace (default emptyTree (pruned (Some (TreeSha es')))) with (TreeSha es')
    by (by destruct es').
  by apply Hframe.
Qed.

(** X6.  A removal keeps trees well-formed: from a tree whose entries
    are sorted, uniquely named and consistent at every level, with no
    empty directory, it returns such a tree, or [null], and never an
    empty tree. *)
Theorem remove_keeps_trees_well_formed root segs st r st' :
  wf root = true →
  removeTreeEntry root segs st = (Ok r, st') →
  wf (default emptyTree r) = true ∧ r ≠ Some emptyTree.
Proof.
  intros Hwf Hrm.
  destruct (remove_result _ _ _ _ _ Hwf Hrm) as (es' & -> & Hwf' & _).
  by destruct es'.
Qed.


(** ** add-file-deep.js: what an upsert does to the tree *)

Lemma wfTreeOpt_entriesRead T es :
  wfTreeOpt T → entriesRead T = Some es → wf (TreeSha es) = true.
Proof. destruct T as [[c|es'|es']|]; simpl; [done| |done|]; by intros ? [= <-]. Qed.

Lemma upsert_sub_wf T es p r rest X st sub st1 :
  wfTreeOpt T → entriesRead T = Some es →
  upsertTree (oid <$> findPath p es) (r :: rest) X st = (Ok sub, st1) →
  wfTreeOpt (oid <$> findPath p es).
Proof.
  intros HT Hes Hsub. pose proof (wfTreeOpt_entriesRead _ _ HT Hes) as Hwf.
  destruct (findPath p es) as [e|] eqn:Hf; [|done].
  apply findPath_Some in Hf as [He _].
  destruct (wf_entry _ _ Hwf He) as [_ Hwfe].
  change (oid <$> Some e) with (Some (oid e)) in *.
  destruct (oid e) as [c|es2|es2];
    [by rewrite upsertTree_blob in Hsub|done|done].
Qed.

Lemma upsert_wf segs :
  ∀ T c st T' st',
    wfTreeOpt T → accepted segs = true →
    upsertTree T segs (BlobSha c) st = (Ok T', st') →
    wf T' = true ∧ ∃ x xs, T' = TreeSha (x :: xs).
Proof.
  induction segs as [|p rest IH]; intros T c st T' st' HT Hacc; [done|].
  apply accepted_cons in Hacc as [Hsafe Hacc].
  intros Hup. pose proof Hup as (es & new & Hes & -> & Hp & Hnew)%upsertTree_Ok.
  pose proof (wfTreeOpt_entriesRead _ _ HT Hes)
    as ([_ Hnd] & Hnames & Hall)%wf_tree.
  pose proof (treeOid_upserted p es new Hnames Hsafe Hp) as Hid.
  rewrite Hid. apply treeOid_read in Hid as [_ Hnames'].
  assert (entry_ok new = true ∧ wf (oid new) = true) as Hnewok.
  { destruct rest as [|r rest]; [by subst new|].
    destruct Hnew as (sub & st1 & Hsub & ->).
    pose proof (upsert_sub_wf _ _ _ _ _ _ _ _ _ HT Hes Hsub) as Hwfs.
    destruct (IH _ _ _ _ _ Hwfs Hacc Hsub) as (Hwf & x & xs & ->).
    split; [|done]. unfold entry_ok. by simpl. }
  split.
  - apply wf_tree. split_and!.
    + apply sortEntries_is_canonical. by apply NoDup_path_upserted.
    + done.
    + rewrite sortEntries_perm. apply Forall_app. split.
      * apply Forall_forall. intros x [_ Hx]%list_elem_of_filter.
        by apply (proj1 (Forall_forall _ _) Hall).
      * by apply Forall_singleton.
  - destruct (sortEntries _) as [|x xs] eqn:E; [|eauto].
    apply sortEntries_nil_inv in E. by destruct (filter _ es).
Qed.

Lemma upsert_None_total segs :
  ∀ X st, segs ≠ [] → ∃ T' st', upsertTree None segs X st = (Ok T', st').
Proof.
  induction segs as [|p rest IH]; intros X st Hne; [done|].
  destruct rest as [|r rest].
  - rewrite (upsertTree_leaf None []) by done.
    destruct (writeTree_run (filter (λ e, path e ≠ p) [] ++ [Entry "100644" p X blob]) st)
      as (st' & -> & _). eauto.
  - rewrite (upsertTree_dir None []) by done. simpl fmap.
    destruct (IH X st ltac:(done)) as (sub & st1 & ->).
    destruct (writeTree_run (filter (λ e, path e ≠ p) [] ++ [Entry "040000" p sub tree]) st1)
      as (st' & -> & _). eauto.
Qed.

Lemma upsert_outcome segs :
  ∀ es X st,
    wf (TreeSha es) = true → segs ≠ [] →
    match upsertTree (Some (TreeSha es)) segs X st with
    | (Ok _, _) => ∀ c, ¬ fileInTheWay (TreeSha es) segs c
    | (Err e, st') =>
        st' = st
        ∧ ∃ c, fileInTheWay (TreeSha es) segs c ∧ e = ObjectTypeError (BlobSha c)
    end.
Proof.
  induction segs as [|p rest IH]; intros es X st Hwf Hne; [done|].
  destruct rest as [|r rest].
  { rewrite (upsertTree_leaf _ es) by done.
    destruct (writeTree_run (filter (λ e, path e ≠ p) es ++ [Entry "100644" p X blob]) st)
      as (st' & -> & _).
    intros c (dirs & x & rest & es' & e & Hsegs & Hrest & _).
    apply (f_equal length) in Hsegs. rewrite length_app in Hsegs.
    destruct rest; [done|]. simpl in Hsegs. lia. }
  rewrite (upsertTree_dir _ es) by done.
  destruct (findPath p es) as [e|] eqn:Hf.
  2:{ simpl fmap.
      destruct (upsert_None_total (r :: rest) X st ltac:(done)) as (sub & st1 & ->).
      destruct (writeTree_run (filter (λ e, path e ≠ p) es ++ [Entry "040000" p sub tree]) st1)
        as (st' & -> & _).
      intros c (dirs & x & rest' & es' & e & Hsegs & Hrest & Hsub & Hfx & _).
      destruct dirs as [|d dirs]; simpl in Hsegs; injection Hsegs as <- _.
      - simpl in Hsub. injection Hsub as <-. congruence.
      - simpl in Hsub. by rewrite Hf in Hsub. }
  pose proof Hf as [He _]%findPath_Some.
  destruct (wf_entry _ _ Hwf He) as [Hok Hwfe]. simpl fmap.
  destruct (oid e) as [c|es2|es2] eqn:Hoid; [| |done].
  { rewrite upsertTree_blob. split; [done|]. exists c. split; [|done].
    exists [], p, (r :: rest), es, e. by split_and!. }
  assert (type e = tree) as Ht.
  { unfold entry_ok in Hok. rewrite Hoid in Hok. by destruct (type e). }
  specialize (IH es2 X st Hwfe ltac:(done)).
  destruct (upsertTree (Some (TreeSha es2)) (r :: rest) X st) as [[sub|err] st1].
  - destruct (writeTree_run (filter (λ e, path e ≠ p) es ++ [Entry "040000" p sub tree]) st1)
      as (st' & -> & _).
    intros c (dirs & x & rest' & es' & e' & Hsegs & Hrest & Hsub & Hfx & Hc).
    destruct dirs as [|d dirs]; simpl in Hsegs; injection Hsegs as <- Hsegs.
    + simpl in Hsub. injection Hsub as <-. congruence.
    + simpl in Hsub. rewrite Hf, Ht, Hoid in Hsub.
      rewrite decide_True in Hsub by done.
      apply (IH c). by exists dirs, x, rest', es', e'.
  - destruct IH as (-> & c & (dirs & x & rest' & es' & e' & Hsegs & Hrest & Hsub & Hfx & Hc)
                    & ->).
    split; [done|]. exists c. split; [|done].
    exists (p :: dirs), x, rest', es', e'. split_and!; try done.
    + simpl. by rewrite Hsegs.
    + simpl. rewrite Hf, Ht, Hoid. by rewrite decide_True.
Qed.

Lemma upsert_again segs :
  ∀ T X st T' st',
    wfTreeOpt T → accepted segs = true →
    upsertTree T segs X st = (Ok T', st') →
    T' ∈ objects st'
    ∧ (∀ o, o ∈ objects st → o ∈ objects st')
    ∧ ∀ st2, (∀ o, o ∈ objects st' → o ∈ objects st2) →
        upsertTree (Some T') segs X st2 = (Ok T', st2).
Proof.
  induction segs as [|p rest IH]; intros T X st T' st' HT Hacc; [done|].
  apply accepted_cons in Hacc as [Hsafe Hacc].
  destruct (entriesRead T) as [es|] eqn:Hes.
  2:{ destruct T as [[| |]|]; done. }
  pose proof (wfTreeOpt_entriesRead _ _ HT Hes)
    as ([_ Hnd] & Hnames & Hall)%wf_tree.
  set (F := filter (λ e, path e ≠ p) es).
  assert (∀ new, path new = p →
            treeOid (sortEntries (F ++ [new])) = TreeSha (sortEntries (F ++ [new])))
    as Hid by (intros; by apply treeOid_upserted).
  (* writing the level a second time *)
  assert (∀ new st1 st',
    path new = p →
    writeTree (F ++ [new]) st1 = (Ok T', st') →
    T' = TreeSha (sortEntries (F ++ [new]))
    ∧ T' ∈ objects st'
    ∧ (∀ o, o ∈ objects st1 → o ∈ objects st')
    ∧ ∀ st2, (∀ o, o ∈ objects st' → o ∈ objects st2) →
        writeTree (filter (λ e, path e ≠ p) (sortEntries (F ++ [new])) ++ [new]) st2
        = (Ok T', st2)) as Hlevel.
  { intros new st1 st2 Hp. unfold writeTree. rewrite (Hid new Hp).
    destruct (writeObject_run (TreeSha (sortEntries (F ++ [new]))) st1)
      as (s & -> & _ & _ & Hobj).
    intros [= <- <-]. split_and!; [done|apply Hobj; by right| |].
    { intros o Ho. apply Hobj. by left. }
    intros st2 Hsub.
    assert (NoDup (path <$> (F ++ [new]))) as Hnd'
      by (by apply NoDup_path_upserted).
    pose proof (sortEntries_is_canonical _ Hnd') as Hcan.
    rewrite (sortEntries_canonical _ (sortEntries (F ++ [new])) Hcan).
    2:{ rewrite <-Permutation_cons_append. symmetry.
        apply filter_path_present; [by destruct Hcan|].
        by apply findPath_upserted. }
    rewrite (Hid new Hp).
    unfold writeObject. rewrite decide_True; [done|].
    apply Hsub, Hobj. by right. }
  destruct rest as [|r rest].
  - rewrite (upsertTree_leaf _ es) by done. fold F.
    intros (-> & ? & ? & Hagain)%Hlevel; [|done]. split_and!; [done..|].
    intros st2 Hsub. rewrite (upsertTree_leaf _ (sortEntries (F ++ [Entry "100644" p X blob])))
      by done.
    by apply Hagain.
  - rewrite (upsertTree_dir _ es) by done. fold F.
    destruct (upsertTree _ (r :: rest) X st) as [[sub|err] st1] eqn:Hsub; [|done].
    pose proof (upsert_sub_wf _ _ _ _ _ _ _ _ _ HT Hes Hsub) as Hwfs.
    destruct (IH _ _ _ _ _ Hwfs Hacc Hsub) as (Hin & Hmono & Hagain1).
    intros (-> & ? & Hmono2 & Hagain)%Hlevel; [|done]. split_and!; [done|auto|].
    intros st2 Hsub2.
    rewrite (upsertTree_dir _ (sortEntries (F ++ [Entry "040000" p sub tree])))
      by done.
    unfold F at 1. rewrite (findPath_upserted p es (Entry "040000" p sub tree)) by done.
    simpl fmap. rewrite Hagain1 by auto. by apply Hagain.
Qed.

(** X7.  An upsert of a blob along a path of names the parser accepts
    keeps trees well-formed: into a well-formed tree, or into none, it
    writes a tree whose entries are sorted, uniquely named, accepted by
    the parser and consistent at every level, with no empty directory;
    the tree returned is never the empty tree. *)
Theorem upsert_keeps_trees_well_formed T segs content st T' st' :
  wfTreeOpt T → accepted segs = true →
  upsertTree T segs (BlobSha content) st = (Ok T', st') →
  wf T' = true ∧ T' ≠ emptyTree.
Proof.
  intros HT Hacc Hup.
  destruct (upsert_wf _ _ _ _ _ _ HT Hacc Hup) as (? & x & xs & ->).
  done.
Qed.

(** X8.  On a well-formed tree [upsertTree] fails in one case only:
    when a name on the way to the last segment holds a file.  It then
    stops with the library's type error for the blob of that file,
    having written nothing; in every other case it succeeds. *)
Theorem upsert_fails_only_at_a_file es segs X st :
  wf (TreeSha es) = true → segs ≠ [] →
  match upsertTree (Some (TreeSha es)) segs X st with
  | (Ok _, _) => ∀ c, ¬ fileInTheWay (TreeSha es) segs c
  | (Err e, st') =>
      st' = st
      ∧ ∃ c, fileInTheWay (TreeSha es) segs c ∧ e = ObjectTypeError (BlobSha c)
  end.
Proof. apply upsert_outcome. Qed.

(** X9.  An upsert is idempotent: on a well-formed tree, or none, and
    along a path of names the parser accepts, the same blob at the same
    path a second time gives the same tree id and writes nothing, in the
    repository the first upsert left. *)
Theorem upsert_twice_changes_nothing T segs X st T' st' :
  wfTreeOpt T → accepted segs = true →
  upsertTree T segs X st = (Ok T', st') →
  upsertTree (Some T') segs X st' = (Ok T', st').
Proof.
  intros HT Hacc Hup.
  destruct (upsert_again _ _ _ _ _ _ HT Hacc Hup) as (_ & _ & Hagain).
  by apply Hagain.
Qed.

(** ** merge-branch.js: the merged tree *)

Lemma wf_opt_get s st m p e :
  wf_opt s = true → readEntries s st = (Ok m, st) → Map_get p m = Some e →
  entry_ok e = true ∧ wf (oid e) = true.
Proof.
  intros Hwf Hr Hg.
  destruct (readEntries_get _ _ _ _ _ Hr Hg) as (_ & es & -> & He).
  by apply (wf_entry es).
Qed.

Lemma readEntries_key_accepted s st m p :
  wf_opt s = true → readEntries s st = (Ok m, st) → p ∈ Map_keys m →
  unsafeFilepath p = false.
Proof.
  intros Hwf Hr ([k e] & -> & Hin)%list_elem_of_fmap.
  destruct (find (λ kv : string * entry, bool_decide (kv.1 = k)) m)
    as [[k' e']|] eqn:Hf.
  2:{ apply list_elem_of_In in Hin. eapply find_none in Hf; [|done].
      by apply bool_decide_eq_false in Hf. }
  assert (Map_get k m = Some e') as Hg by (unfold Map_get; by rewrite Hf).
  destruct (readEntries_get _ _ _ _ _ Hr Hg) as (<- & es & -> & He).
  apply wf_tree in Hwf as (_ & Hn & _).
  apply acceptedNames_Forall in Hn.
  by apply (proj1 (Forall_forall _ _) Hn).
Qed.

Lemma merge_wf res n :
  ∀ b o t st r st',
    depth3 b o t < n →
    wf_opt b = true → wf_opt o = true → wf_opt t = true →
    mergeTrees res b o t st = (Ok r, st') →
    match r with
    | None => True
    | Some T => wf T = true ∧ ∃ e es, T = TreeSha (e :: es)
    end.
Proof.
  induction n as [|n IH]; intros b o t st r st' Hn Hwb Hwo Hwt; [lia|].
  intros (bm & om & tm & ne & st1 & Hb & Ho & Ht & Hl & _ & ->)%mergeTrees_Ok.
  destruct (Set_new_spec (Map_keys bm ++ Map_keys om ++ Map_keys tm))
    as [Hnd Hnames].
  pose proof (mergeLoop_paths res (mergeTrees res) bm om tm
                (readEntries_keyed _ _ _ Ho) (readEntries_keyed _ _ _ Ht)
                _ _ _ _ Hl) as Hpaths.
  destruct (mergeLoop_lookup res (mergeTrees res) bm om tm
              (readEntries_keyed _ _ _ Ho) (readEntries_keyed _ _ _ Ht)
              (adds_objects_mergeTrees res) _ Hnd _ _ _ Hl) as [Hndp Hlook].
  destruct ne as [|x ne]; [done|].
  set (out := x :: ne) in *.
  assert (∀ e, e ∈ out → unsafeFilepath (path e) = false) as Hsafe.
  { intros e He. pose proof (proj1 (Hnames _) (Hpaths e He)) as Hk.
    rewrite !elem_of_app in Hk.
    destruct Hk as [Hk|[Hk|Hk]];
      [by apply (readEntries_key_accepted b st bm)
      |by apply (readEntries_key_accepted o st om)
      |by apply (readEntries_key_accepted t st tm)]. }
  assert (acceptedNames (sortEntries out) = true) as Hacc.
  { apply acceptedNames_Forall, Forall_forall. intros e He.
    apply Hsafe. by rewrite <-(sortEntries_perm out). }
  rewrite (treeOid_accepted _ Hacc). split.
  2:{ destruct (sortEntries out) as [|y ys] eqn:E; [|eauto].
      by apply sortEntries_nil_inv in E. }
  apply wf_tree. split_and!; [by apply sortEntries_is_canonical|done|].
  rewrite sortEntries_perm. apply Forall_forall. intros e He.
  destruct (Hlook (path e) (Hpaths e He)) as (s1 & s2 & _ & _ & Hm).
  rewrite (findPath_NoDup (path e) out e Hndp He eq_refl) in Hm.
  destruct (mergeName_rule _ _ _ _ _ _ _ _ _ Hm) as [Hdir Hfile].
  remember (path e) as p eqn:Hp.
  destruct (decide (type <$> Map_get p om = Some tree
                    ∨ type <$> Map_get p tm = Some tree)) as [Hd|Hd].
  - destruct (Hdir Hd) as (sub & Hrec & Hsub).
    destruct sub as [s|]; [|done]. injection Hsub as ->.
    assert (isDir om tm p = true) as Hisdir.
    { unfold isDir. apply orb_true_iff.
      destruct Hd; [left|right]; by apply bool_decide_eq_true. }
    pose proof (depth_get _ _ _ p Hb). pose proof (depth_get _ _ _ p Ho).
    pose proof (depth_get _ _ _ p Ht).
    pose proof (depth_isDir _ _ _ _ _ p Ho Ht Hisdir).
    assert (∀ s0 m0, wf_opt s0 = true → readEntries s0 st = (Ok m0, st) →
                     wf_opt (oid <$> Map_get p m0) = true) as Hsubwf.
    { intros s0 m0 Hw Hr. destruct (Map_get p m0) as [e0|] eqn:Hg; [|done].
      by destruct (wf_opt_get _ _ _ _ _ Hw Hr Hg). }
    apply IH in Hrec as (Hwfs & y & ys & ->);
      [|unfold depth3 in *; lia|by apply (Hsubwf b)|by apply (Hsubwf o)
       |by apply (Hsubwf t)].
    split; [|done]. unfold entry_ok. by simpl.
  - assert (type <$> Map_get p om ≠ Some tree
            ∧ type <$> Map_get p tm ≠ Some tree) as [Hdo Hdt].
    { split; intros ?; apply Hd; auto. }
    destruct (Hfile Hdo Hdt) as (Hsame & Htheirs & Hours & Hconf).
    destruct (decide (oid <$> Map_get p om = oid <$> Map_get p tm)) as [E1|E1].
    { specialize (Hsame E1). symmetry in Hsame. by eapply (wf_opt_get o). }
    destruct (decide (oid <$> Map_get p om = oid <$> Map_get p bm)) as [E2|E2].
    { assert (Map_get p tm = Some e) as Hg
        by (symmetry; apply Htheirs; congruence).
      by eapply (wf_opt_get t). }
    destruct (decide (oid <$> Map_get p tm = oid <$> Map_get p bm)) as [E3|E3].
    { assert (Map_get p om = Some e) as Hg by (symmetry; by apply Hours).
      by eapply (wf_opt_get o). }
    destruct (Hconf E1 E2 E3) as (content & _ & _ & [= ->] & _). done.
Qed.

(** X10.  A merge of well-formed trees that succeeds returns [null] or a
    well-formed tree: sorted, uniquely named, with names the parser
    accepts, every entry consistent with the object it names, no empty
    directory at any level; it never returns the empty tree. *)
Theorem merge_gives_a_well_formed_tree res b o t st r st' :
  wf_opt b = true → wf_opt o = true → wf_opt t = true →
  mergeTrees res b o t st = (Ok r, st') →
  match r with
  | None => True
  | Some T => wf T = true ∧ T ≠ emptyTree
  end.
Proof.
  intros Hb Ho Ht Hm.
  pose proof (merge_wf res (S (depth3 b o t)) b o t st r st'
                ltac:(lia) Hb Ho Ht Hm) as H.
  destruct r as [T|]; [|done]. by destruct H as (? & e & es & ->).
Qed.


(** ** The file scripts from end to end *)



Lemma writeCommit_stores message t parents author st :
  ∃ st', writeCommit message t parents author st
         = (Ok (CommitSha (default emptyTree t) parents author message), st')
         ∧ refs st' = refs st ∧ objects st' = objects st
         ∧ CommitSha (default emptyTree t) parents author message ∈ commits st'.
Proof.
  unfold writeCommit. case_decide; eexists; split_and!; try done.
  simpl. apply elem_of_app. right. by left.
Qed.

(** [main] of add-file-deep.js, step by step. *)
Lemma add_file_deep_unfold refName filePath content now others st :
  let parent := currentRef refName (refs st) in
  ∃ st1,
    refs st1 = refs st ∧ commits st1 = commits st
    ∧ (∀ o, o ∈ objects st1 ↔ o ∈ objects st ∨ o = BlobSha content)
    ∧ add_file_deep refName filePath content now others st
      = match upsertTree (commit_tree <$> parent)
                (splitSlash (stripLeadingSlashes filePath)) (BlobSha content) st1
        with
        | (Err e, st2) => (Err e, st2)
        | (Ok T', st2) =>
            let c := CommitSha T' (match parent with Some p => [p] | None => [] end)
                       (apiBot now) ("Add " +:+ filePath) in
            let st4 := others
                         (if decide (c ∈ commits st2) then st2
                          else Repo (objects st2) (commits st2 ++ [c]) (refs st2)) in
            if decide (currentRef refName (refs st4) = parent)
            then (Ok c, Repo (objects st4) (commits st4)
                          (<[headsRef refName := c]> (refs st4)))
            else (Err (ConcurrencyError refName parent
                         (currentRef refName (refs st4))), st4)
        end.
Proof.
  intros parent. unfold add_file_deep.
  destruct (writeObject_run (BlobSha content) st) as (st1 & Hw & Hc & Hr & Hobj).
  exists st1. split_and!; [done..|].
  rewrite run_bind, try_resolveRef_run. fold parent. rewrite run_bind.
  assert (match parent with
          | Some p => t ← readCommitTree p; mret (Some t)
          | None => mret None
          end st = (Ok (commit_tree <$> parent), st)) as ->
    by by destruct parent.
  rewrite run_bind. unfold writeBlob. rewrite Hw. rewrite run_bind.
  destruct (upsertTree _ _ _ st1) as [[T'|e] st2]; [|done].
  rewrite run_bind. unfold writeCommit at 1. simpl default.
  rewrite run_bind. unfold concurrently at 1. rewrite run_bind.
  rewrite try_resolveRef_run. cbv zeta.
  destruct (decide (currentRef refName _ = parent)) as [Heq|Hne].
  - rewrite decide_False by (by intros ?). by rewrite run_bind.
  - by rewrite decide_True.
Qed.





(** [main] of remove-file-deep.js, step by step, from a ref that
    resolves. *)
Lemma remove_file_deep_unfold refName filePath now others st parentSha :
  currentRef refName (refs st) = Some parentSha →
  remove_file_deep refName filePath now others st
  = match removeTreeEntry (commit_tree parentSha)
            (splitSlash (stripLeadingSlashes filePath)) st
    with
    | (Err e, st1) => (Err e, st1)
    | (Ok r, st1) =>
        let st2 := match r with
                   | Some _ => st1
                   | None => (writeTree [] st1).2
                   end in
        let c := CommitSha (default emptyTree r) [parentSha]
                   (apiBot now) ("Remove " +:+ filePath) in
        let st4 := others
                     (if decide (c ∈ commits st2) then st2
                      else Repo (objects st2) (commits st2 ++ [c]) (refs st2)) in
        match currentRef refName (refs st4) with
        | None => (Err (RefNotFound refName), st4)
        | Some current =>
            if decide (current = parentSha)
            then (Ok c, Repo (objects st4) (commits st4)
                          (<[headsRef refName := c]> (refs st4)))
            else (Err (ConcurrencyError refName (Some parentSha) (Some current)),
                  st4)
        end
    end.
Proof.
  intros Hpar. unfold remove_file_deep.
  rewrite run_bind. unfold try_catch. rewrite resolveRef_currentRef, Hpar.
  rewrite run_bind. unfold readCommitTree at 1. rewrite run_ret, run_bind.
  destruct (removeTreeEntry _ _ st) as [[r|e] st1]; [|done].
  rewrite run_bind.
  assert (match r with
          | Some t => mret t
          | None => writeTree []
          end st1
          = (Ok (default emptyTree r),
             match r with Some _ => st1 | None => (writeTree [] st1).2 end)) as ->.
  { destruct r; [done|]. by destruct (writeTree_run [] st1) as (? & -> & _). }
  rewrite run_bind. unfold writeCommit at 1. simpl default.
  rewrite run_bind. unfold concurrently at 1. rewrite run_bind.
  rewrite resolveRef_currentRef. cbv zeta.
  set (st4 := others _).
  destruct (currentRef refName (refs st4)) as [current|]; [|done].
  destruct (decide (current = parentSha)) as [Heq|Hne].
  - rewrite decide_False by (by intros ?). by rewrite run_bind.
  - by rewrite decide_True.
Qed.



(** What add-file-deep.js returns when it succeeds. *)
Lemma add_file_deep_Ok refName filePath content now others st c st' :
  add_file_deep refName filePath content now others st = (Ok c, st') →
  ∃ T' s1 s2,
    upsertTree (commit_tree <$> currentRef refName (refs st))
      (splitSlash (stripLeadingSlashes filePath)) (BlobSha content) s1
    = (Ok T', s2)
    ∧ c = CommitSha T'
            (match currentRef refName (refs st) with Some p => [p] | None => [] end)
            (apiBot now) ("Add " +:+ filePath)
    ∧ refs st' !! headsRef refName = Some c.
Proof.
  destruct (add_file_deep_unfold refName filePath content now others st)
    as (st1 & _ & _ & _ & ->).
  destruct (upsertTree _ _ _ st1) as [[T'|e] st2] eqn:Hup; [|done].
  cbv zeta. case_decide; [|done]. intros [= <- <-].
  exists T', st1, st2. split_and!; [done..|]. simpl. by rewrite lookup_insert_eq.
Qed.


(** X15.  add-file-deep.js does not test the names of the path.  When
    the parser refuses the first name of the path, as it does for
    [./README.md], the upsert succeeds and writes a root tree that the
    library does not read: a later upsert, a later removal and a later
    read of any path in that tree throw UnsafeFilepathError, and so do
    add-file-deep.js and remove-file-deep.js once the ref holds a commit
    with that tree. *)
Theorem refused_name_leaves_the_tree_unreadable T p rest X st T' st' :
  unsafeFilepath p = true →
  upsertTree T (p :: rest) X st = (Ok T', st') →
  (∀ segs X2 s, segs ≠ [] →
     upsertTree (Some T') segs X2 s = (Err (UnsafeFilepathError T'), s))
  ∧ (∀ segs s, segs ≠ [] →
       removeTreeEntry T' segs s = (Err (UnsafeFilepathError T'), s))
  ∧ (∀ segs s, segs ≠ [] →
       resolveBlobParts T' segs s = (Err (UnsafeFilepathError T'), s))
  ∧ (∀ refName filePath content now others s k,
       currentRef refName (refs s) = Some k → commit_tree k = T' →
       ∃ s', add_file_deep refName filePath content now others s
             = (Err (UnsafeFilepathError T'), s')
             ∧ refs s' = refs s ∧ commits s' = commits s)
  ∧ (∀ refName filePath now others s k,
       currentRef refName (refs s) = Some k → commit_tree k = T' →
       remove_file_deep refName filePath now others s
       = (Err (UnsafeFilepathError T'), s)).
Proof.
  intros Hp (es & new & _ & -> & Hnew & _)%upsertTree_Ok.
  rewrite treeOid_upserted_refused by done.
  set (L := sortEntries _). split_and!.
  - intros [|x segs] X2 s Hne; [done|]. apply upsertTree_unsafe.
  - intros [|x segs] s Hne; [done|]. apply removeTreeEntry_unsafe.
  - intros [|x segs] s Hne; [done|]. apply walkParts_unsafe.
  - intros refName filePath content now others s k Hk Htree.
    destruct (add_file_deep_unfold refName filePath content now others s)
      as (s1 & Hr1 & Hc1 & _ & ->).
    rewrite Hk. simpl fmap. rewrite Htree.
    pose proof (splitSlash_not_nil (stripLeadingSlashes filePath)) as Hne.
    destruct (splitSlash _) as [|x segs]; [done|].
    rewrite upsertTree_unsafe. by exists s1.
  - intros refName filePath now others s k Hk Htree.
    rewrite (remove_file_deep_unfold _ _ _ _ _ _ Hk), Htree.
    pose proof (splitSlash_not_nil (stripLeadingSlashes filePath)) as Hne.
    destruct (splitSlash _) as [|x segs]; [done|].
    by rewrite removeTreeEntry_unsafe.
Qed.

(** *** The ref that is written *)





Lemma currentRef_first ref rs c : rs !! ref = Some c → currentRef ref rs = Some c.
Proof. intros H. unfold currentRef, refpaths. simpl. by rewrite H. Qed.

Lemma prefix_append p s : String.prefix p (p +:+ s) = true.
Proof.
  induction p as [|a p IH]; [by destruct s|].
  rewrite append_String. simpl. by destruct (Ascii.ascii_dec a a).
Qed.



(** ** read-file.js *)

Lemma hasZeroByte_spec chunk :
  hasZeroByte chunk = true ↔ ∃ i, String.get i chunk = Some "000"%char.
Proof.
  induction chunk as [|c chunk IH]; simpl.
  { split; [done|]. by intros [[|i] ?]. }
  case_decide as Hc.
  - split; [|done]. intros _. exists 0. simpl. by subst.
  - rewrite IH. split.
    + intros [i Hi]. by exists (S i).
    + intros [[|i] Hi]; simpl in Hi; [congruence|]. by exists i.
Qed.

(** X17.  [isBinary] looks at the first 8000 bytes and at nothing else:
    a buffer is taken for binary exactly when one of its first 8000
    bytes is zero. *)
Theorem isBinary_first_8000_bytes buffer :
  isBinary buffer = true
  ↔ ∃ i : nat, (N.of_nat i < 8000)%N ∧ String.get i buffer = Some "000"%char.
Proof.
  unfold isBinary. cbv zeta. rewrite hasZeroByte_spec.
  generalize (N.to_nat 8000) (N2Nat.id 8000). intros n Hn.
  split.
  - intros [i Hi]. destruct (decide (i < n)) as [Hlt|Hge].
    + exists i. split; [lia|].
      rewrite String.substring_correct1 in Hi by done. by rewrite Nat.add_0_r in Hi.
    + rewrite String.substring_correct2 in Hi by lia. done.
  - intros (i & Hlt & Hi). exists i.
    rewrite String.substring_correct1 by lia. by rewrite Nat.add_0_r.
Qed.

Lemma srun_bind {A B} (m : Script A) (f : A → Script B) st :
  (m ≫= f) st = match m st with
                | (Done a, st') => f a st'
                | (Failed e, st') => (Failed e, st')
                end.
Proof. done. Qed.

Lemma srun_ret {A} (a : A) st : (mret a : Script A) st = (Done a, st).
Proof. done. Qed.

Lemma catch_resolveRef ref (f : failure) st :
  catch (call (resolveRef ref)) (λ _, raise f) st
  = match currentRef ref (refs st) with
    | Some c => (Done c, st)
    | None => (Failed f, st)
    end.
Proof.
  unfold catch, call. rewrite resolveRef_currentRef.
  by destruct (currentRef ref (refs st)).
Qed.

Lemma resolveBlobEntry_state T p st r st' :
  resolveBlobEntry T p st = (r, st') → st' = st.
Proof. apply walkParts_state. Qed.

(** [main] of read-file.js, case by case; the repository is left as it
    was. *)
Lemma read_file_unfold refName filePath st :
  read_file refName filePath st
  = (match currentRef refName (refs st) with
     | None => Failed (RefNotFoundError refName)
     | Some c =>
         match resolveBlobEntry (commit_tree c) filePath st with
         | (Err e, _) => Failed (Thrown e)
         | (Ok target, _) =>
             if decide (t_type target ≠ blob)
             then Failed (NotAFile filePath (t_type target))
             else
               match t_sha target with
               | BlobSha content =>
                   Done ((if decide (t_mode target ≠ Some "100644"
                                     ∧ t_mode target ≠ Some "100755")
                          then [Warning (t_mode target)] else [])
                         ++ shown content)
               | _ => Failed (Thrown (ObjectTypeError (t_sha target)))
               end
         end
     end, st).
Proof.
  unfold read_file. rewrite srun_bind, catch_resolveRef.
  destruct (currentRef refName (refs st)) as [c|]; [|done].
  rewrite srun_bind. unfold call at 1, readCommitTree. rewrite run_ret.
  rewrite srun_bind. unfold call at 1.
  destruct (resolveBlobEntry (commit_tree c) filePath st) as [[target|e] st1] eqn:Hres;
    apply resolveBlobEntry_state in Hres as ->; [|done].
  case_decide; [done|].
  rewrite srun_bind. unfold call, readBlob.
  destruct (t_sha target) as [content|es|es]; [|done..].
  unfold shown. by destruct (isBinary content).
Qed.

(** X18.  A file written by add-file-deep.js is what read-file.js
    prints.  When the tree the add started from has unique names that
    the parser accepts and entries of the kind of their objects, the
    parser accepts the names of the path, the path ends in no slash and
    the name resolves to the ref written, read-file.js prints the
    content written (the binary notice when it holds a zero byte among
    its first 8000), with no warning about the mode, and leaves the
    repository as it was. *)
Theorem read_file_after_add_file_deep refName filePath content now others st c st' :
  add_file_deep refName filePath content now others st = (Ok c, st') →
  coherent_opt (commit_tree <$> currentRef refName (refs st)) = true →
  accepted (splitSlash (stripLeadingSlashes filePath)) = true →
  currentRef refName (refs st') = refs st' !! headsRef refName →
  stripTrailingSlashes (stripLeadingSlashes filePath)
  = stripLeadingSlashes filePath →
  read_file refName filePath st' = (Done (shown content), st').
Proof.
  intros (T' & s1 & s2 & Hup & -> & Href)%add_file_deep_Ok Hco Hacc Hcur Hpath.
  rewrite read_file_unfold, Hcur, Href. simpl commit_tree.
  unfold resolveBlobEntry. rewrite Hpath.
  unfold resolveBlobParts.
  by rewrite (upsert_read_back _ _ _ _ _ _ "" None st' Hco Hacc Hup).
Qed.

(** What remove-file-deep.js returns when it succeeds. *)
Lemma remove_file_deep_Ok refName filePath now others st c st' :
  remove_file_deep refName filePath now others st = (Ok c, st') →
  ∃ parentSha r s1,
    currentRef refName (refs st) = Some parentSha
    ∧ removeTreeEntry (commit_tree parentSha)
        (splitSlash (stripLeadingSlashes filePath)) st = (Ok r, s1)
    ∧ c = CommitSha (default emptyTree r) [parentSha]
            (apiBot now) ("Remove " +:+ filePath)
    ∧ refs st' !! headsRef refName = Some c.
Proof.
  destruct (currentRef refName (refs st)) as [parentSha|] eqn:Hpar.
  2:{ unfold remove_file_deep. rewrite run_bind. unfold try_catch.
      by rewrite resolveRef_currentRef, Hpar. }
  rewrite (remove_file_deep_unfold _ _ _ _ _ _ Hpar).
  destruct (removeTreeEntry _ _ st) as [[r|e] s1] eqn:Hrm; [|done].
  cbv zeta. set (st4 := others _).
  destruct (currentRef refName (refs st4)) as [current|]; [|done].
  case_decide; [|done]. intros [= <- <-].
  exists parentSha, r, s1. split_and!; [done..|]. simpl. by rewrite lookup_insert_eq.
Qed.

(** X19.  A file removed by remove-file-deep.js is not found by
    read-file.js: when the tree of the commit the removal started from
    is well-formed, the path ends in no slash and the name resolves to
    the ref written, read-file.js stops with the error of
    [resolveBlobEntry] for a missing segment and leaves the repository
    as it was. *)
Theorem read_file_after_remove_file_deep refName filePath now others st c st' :
  remove_file_deep refName filePath now others st = (Ok c, st') →
  (∀ parentSha, currentRef refName (refs st) = Some parentSha →
                wf (commit_tree parentSha) = true) →
  currentRef refName (refs st') = refs st' !! headsRef refName →
  stripTrailingSlashes (stripLeadingSlashes filePath)
  = stripLeadingSlashes filePath →
  ∃ part,
    read_file refName filePath st' = (Failed (Thrown (PathNotFound part)), st').
Proof.
  intros (parentSha & r & s1 & Hpar & Hrm & -> & Href)%remove_file_deep_Ok
    Hwf Hcur Hpath.
  destruct (remove_result _ _ _ _ _ (Hwf _ Hpar) Hrm)
    as (es' & -> & _ & Hgone & _).
  destruct (Hgone "" None st') as (part & Hwalk). exists part.
  assert (default emptyTree (pruned (Some (TreeSha es'))) = TreeSha es') as Hdef
    by by destruct es'.
  rewrite Hdef in Href.
  rewrite read_file_unfold, Hcur, Href. simpl commit_tree.
  unfold resolveBlobEntry, resolveBlobParts. rewrite Hpath.
  by rewrite Hwalk.
Qed.

(** ** list-files.js *)

Lemma resolveTreeSha_parts root targetPath st :
  resolveTreeSha root targetPath st
  = walkTree targetPath (folderParts targetPath) (root, tree) st.
Proof. unfold resolveTreeSha, folderParts. by case_decide. Qed.

Lemma walkTree_like_walkParts targetPath parts :
  ∀ prev cur st,
    match walkParts parts prev cur st with
    | (Ok tgt, _) =>
        walkTree targetPath parts (t_sha cur, t_type cur) st
        = (Done (t_sha tgt, t_type tgt), st)
    | (Err (PathNotFound _), _) =>
        walkTree targetPath parts (t_sha cur, t_type cur) st
        = (Failed (FolderNotFound targetPath), st)
    | (Err (PathIsFile _), _) =>
        ∃ part, part ∈ parts
                ∧ walkTree targetPath parts (t_sha cur, t_type cur) st
                  = (Failed (InsideFile part), st)
    | (Err e, _) =>
        walkTree targetPath parts (t_sha cur, t_type cur) st
        = (Failed (Thrown e), st)
    end.
Proof.
  induction parts as [|part rest IH]; intros prev cur st; [done|].
  simpl. case_decide as Ht.
  { exists part. split; [by left|done]. }
  rewrite run_bind, srun_bind. unfold call, readTree.
  destruct (t_sha cur) as [c|es|es]; [done| |done].
  destruct (find _ es) as [e|]; [|done].
  specialize (IH part (Target (oid e) (Some (mode e)) (type e)) st).
  simpl in IH.
  destruct (walkParts rest part _ st) as [[tgt|err] st1]; [done|].
  destruct err; try done.
  destruct IH as (q & ? & ?). exists q. split; [by right|done].
Qed.

(** On a path that is not one of the root paths, [resolveTreeSha]
    follows the walk of [resolveBlobEntry]. *)
Lemma resolveTreeSha_resolveBlobEntry root targetPath st :
  targetPath ≠ "" → targetPath ≠ "." → targetPath ≠ "/" →
  match resolveBlobEntry root targetPath st with
  | (Ok tgt, _) =>
      resolveTreeSha root targetPath st = (Done (t_sha tgt, t_type tgt), st)
  | (Err (PathNotFound _), _) =>
      resolveTreeSha root targetPath st
      = (Failed (FolderNotFound targetPath), st)
  | (Err (PathIsFile _), _) =>
      ∃ part, resolveTreeSha root targetPath st = (Failed (InsideFile part), st)
  | (Err e, _) => resolveTreeSha root targetPath st = (Failed (Thrown e), st)
  end.
Proof.
  intros H1 H2 H3. rewrite resolveTreeSha_parts. unfold folderParts.
  rewrite decide_False by (by intros [|[|]]).
  unfold resolveBlobEntry, resolveBlobParts.
  pose proof (walkTree_like_walkParts targetPath
                (splitSlash (stripTrailingSlashes (stripLeadingSlashes targetPath)))
                "" (Target root None tree) st) as H. simpl in H.
  destruct (walkParts _ _ _ st) as [[tgt|err] st1]; [done|].
  destruct err; try done. destruct H as (q & _ & ?). eauto.
Qed.

(** X20.  [resolveTreeSha] of list-files.js and [resolveBlobEntry] of
    read-file.js resolve a path alike, the root paths of list-files.js
    apart: where one returns an object the other returns the same id and
    type; a missing segment stops both, list-files.js with a message
    that names the whole path only; a file on the way stops both; and an
    error of the library is the same for both. *)
Theorem resolveTreeSha_like_resolveBlobEntry root targetPath st :
  targetPath ≠ "" → targetPath ≠ "." → targetPath ≠ "/" →
  match resolveBlobEntry root targetPath st with
  | (Ok tgt, _) =>
      resolveTreeSha root targetPath st = (Done (t_sha tgt, t_type tgt), st)
  | (Err (PathNotFound _), _) =>
      resolveTreeSha root targetPath st
      = (Failed (FolderNotFound targetPath), st)
  | (Err (PathIsFile _), _) =>
      ∃ part, resolveTreeSha root targetPath st = (Failed (InsideFile part), st)
  | (Err e, _) => resolveTreeSha root targetPath st = (Failed (Thrown e), st)
  end.
Proof. apply resolveTreeSha_resolveBlobEntry. Qed.

Lemma list_files_unfold refName folderPath st :
  list_files refName folderPath st
  = match currentRef refName (refs st) with
    | None => (Failed (RefNotFoundError refName), st)
    | Some c =>
        match resolveTreeSha (commit_tree c) folderPath st with
        | (Failed f, st1) => (Failed f, st1)
        | (Done target, st1) =>
            if decide (target.2 = blob) then (Done (ItemIsFile target.1), st1)
            else
              match target.1 with
              | BlobSha _ => (Failed (Thrown (ObjectTypeError target.1)), st1)
              | UnsafeTreeSha _ =>
                  (Failed (Thrown (UnsafeFilepathError target.1)), st1)
              | TreeSha entries =>
                  (Done (Contents
                           ((λ entry,
                               Row (mode entry) (type entry) (oid entry)
                                 (if decide (type entry = tree)
                                  then path entry +:+ "/" else path entry))
                              <$> entries)), st1)
              end
        end
    end.
Proof.
  unfold list_files. rewrite srun_bind, catch_resolveRef.
  destruct (currentRef refName (refs st)) as [c|]; [|done].
  rewrite srun_bind. unfold call at 1, readCommitTree. rewrite run_ret.
  rewrite srun_bind.
  destruct (resolveTreeSha (commit_tree c) folderPath st) as [[target|f] st1];
    [|done].
  case_decide; [done|]. rewrite srun_bind. unfold call, readTree.
  by destruct (target.1).
Qed.


(** The directory that holds the leaf of an upsert, as [resolveTreeSha]
    finds it. *)
Lemma walkTree_upserted targetPath dirs :
  ∀ T fileName X st T' st' s,
    coherent_opt T = true → accepted (dirs ++ [fileName]) = true →
    upsertTree T (dirs ++ [fileName]) X st = (Ok T', st') →
    ∃ es,
      walkTree targetPath dirs (T', tree) s = (Done (TreeSha es, tree), s)
      ∧ Entry "100644" fileName X blob ∈ es.
Proof.
  induction dirs as [|d dirs IH]; intros T fileName X st T' st' s.
  - intros Hco Hacc Hup.
    destruct (upsertTree_Ok_coherent _ _ _ _ _ _ _ Hco Hacc Hup)
      as (es & new & _ & _ & -> & _ & ->).
    eexists. split; [done|]. rewrite sortEntries_perm.
    apply elem_of_app. right. by left.
  - rewrite <-app_comm_cons. intros Hco Hacc Hup.
    destruct (upsertTree_Ok_coherent _ _ _ _ _ _ _ Hco Hacc Hup)
      as (es & new & _ & _ & -> & Hp & Hnew).
    destruct (dirs ++ [fileName]) as [|r rest] eqn:Hrest.
    { by destruct dirs. }
    destruct Hnew as (sub & st1 & Hsub & -> & Hco' & Hacc' & _).
    rewrite <-Hrest in Hsub, Hacc'.
    destruct (IH _ _ _ _ _ _ s Hco' Hacc' Hsub) as (es2 & Hwalk & Hin).
    exists es2. split; [|done].
    simpl. rewrite srun_bind. unfold call, readTree.
    by rewrite (findPath_upserted d es (Entry "040000" d sub tree)).
Qed.

(** X22.  A file written by add-file-deep.js is listed by list-files.js
    in its directory.  When the tree the add started from has unique
    names that the parser accepts and entries of the kind of their
    objects, the parser accepts the names of the path, the name resolves
    to the ref written, and the path of the file is the path of the
    folder followed by the name of the file, the listing of the folder
    has a row with mode 100644, type blob, the id of the content written
    and the name of the file. *)
Theorem list_files_after_add_file_deep refName filePath content now others st c st'
    folderPath fileName :
  add_file_deep refName filePath content now others st = (Ok c, st') →
  coherent_opt (commit_tree <$> currentRef refName (refs st)) = true →
  accepted (splitSlash (stripLeadingSlashes filePath)) = true →
  currentRef refName (refs st') = refs st' !! headsRef refName →
  splitSlash (stripLeadingSlashes filePath) = folderParts folderPath ++ [fileName] →
  ∃ rows,
    list_files refName folderPath st' = (Done (Contents rows), st')
    ∧ Row "100644" blob (BlobSha content) fileName ∈ rows.
Proof.
  intros (T' & s1 & s2 & Hup & -> & Href)%add_file_deep_Ok Hco Hacc Hcur Hparts.
  rewrite Hparts in Hup, Hacc.
  destruct (walkTree_upserted folderPath _ _ _ _ _ _ _ st' Hco Hacc Hup)
    as (es & Hwalk & Hin).
  rewrite list_files_unfold, Hcur, Href. simpl commit_tree.
  rewrite resolveTreeSha_parts, Hwalk. simpl.
  eexists. split; [done|].
  apply list_elem_of_fmap. by exists (Entry "100644" fileName (BlobSha content) blob).
Qed.

(** ** remove-branch.js *)

Lemma fullRef_prefix branchName :
  String.prefix "refs/heads/" (fullRef branchName) = true.
Proof.
  unfold fullRef. destruct (String.prefix _ branchName) eqn:E; [done|].
  apply prefix_append.
Qed.

Lemma remove_branch_unfold branchName st :
  remove_branch branchName st
  = match currentRef (fullRef branchName) (refs st) with
    | None => (Failed (BranchNotFound branchName), st)
    | Some _ =>
        (Done (), Repo (objects st) (commits st)
                    (delete (fullRef branchName) (refs st)))
    end.
Proof.
  unfold remove_branch. rewrite srun_bind. unfold catch.
  rewrite srun_bind. unfold call at 1. rewrite resolveRef_currentRef.
  by destruct (currentRef _ (refs st)).
Qed.

(** X23.  remove-branch.js removes one ref or nothing.  When the name,
    put under [refs/heads/] unless it starts so, resolves, the script
    deletes that ref and leaves every other ref, the objects and the
    commits as they were; otherwise it stops with its own message for a
    branch not found, the ref is not there, and the repository is as it
    was. *)
Theorem remove_branch_removes_one_ref branchName st :
  match remove_branch branchName st with
  | (Done _, st') =>
      is_Some (currentRef (fullRef branchName) (refs st))
      ∧ objects st' = objects st ∧ commits st' = commits st
      ∧ refs st' !! fullRef branchName = None
      ∧ ∀ ref, ref ≠ fullRef branchName → refs st' !! ref = refs st !! ref
  | (Failed f, st') =>
      f = BranchNotFound branchName
      ∧ refs st !! fullRef branchName = None ∧ st' = st
  end.
Proof.
  rewrite remove_branch_unfold.
  destruct (currentRef _ (refs st)) as [c|] eqn:Hcur.
  - simpl. split_and!; try done.
    + apply lookup_delete_eq.
    + intros ref Hne. by apply lookup_delete_ne.
  - split_and!; try done.
    destruct (refs st !! fullRef branchName) as [c|] eqn:E; [|done].
    by rewrite (currentRef_first _ _ _ E) in Hcur.
Qed.

End scripts.

(** * Examples

    The properties above hold whatever names the parser refuses.  The
    examples run the scripts with [exampleParser]. *)

#[local] Existing Instance exampleParser.

(** ** The ref update of merge-branch.js *)

Lemma merge_branch_forces_the_ref_witness :
  ∃ c st',
    merge_branch (λ _ _, [c0]) ∅ "feature" "main" 7
      (movingRefs (<["refs/heads/main" := c3]>)) history = (Ok c, st')
    ∧ c = CommitSha (default emptyTree
                       (Some (TreeSha [file "1" "f"; file "2" "g"])))
            [c1; c2] (mergeBot 7) "Merge branch 'feature' into 'main'"
    ∧ refs st'
      = <[branchRef "main" := c]> (<["refs/heads/main" := c3]> (refs history)).
Proof.
  apply (merge_branch_forces_the_ref (λ _ _, [c0]) ∅ "feature" "main" 7
           (<["refs/heads/main" := c3]>) history c2 c1 c0 []
           (Some (TreeSha [file "1" "f"; file "2" "g"]))
           (Repo [TreeSha [file "1" "f"; file "2" "g"]] [c0; c1; c2]
              (refs history)));
    vm_compute; reflexivity.
Defined.

(** ** An upsert through a file *)

Lemma upsert_through_blob_fails_witness :
  upsertTree (Some (TreeSha [file "0" "a"])) ["a"; "b"] (BlobSha "X") st0
  = (Err (ObjectTypeError (BlobSha "0")), st0).
Proof.
  apply (upsert_through_blob_fails [file "0" "a"] (file "0" "a") "0" "a" ["b"]
           (BlobSha "X") st0 eq_refl eq_refl).
  discriminate.
Defined.

(** ** Conflicts and the per-name rule of the merge *)

(** C3, as stated, fails: the error of a nested conflict names the entry
    [a.txt], not the path [src/a.txt]; and a conflict met after a
    directory has been merged leaves that directory's tree written. *)
Lemma conflict_names_entry_and_leaves_objects :
  mergeTrees ∅ (Some nestedBase) (Some nestedOurs) (Some nestedTheirs) st0
  = (Err (MergeConflict "a.txt"), st0)
  ∧ "a.txt" ≠ "src/a.txt"
  ∧ mergeTrees ∅ (Some laterBase) (Some laterOurs) (Some laterTheirs) st0
    = (Err (MergeConflict "f"),
       Repo [TreeSha [file "1" "x"; file "2" "y"]] [] ∅).
Proof. split_and!; [vm_compute; reflexivity|done|vm_compute; reflexivity]. Qed.

Lemma merge_conflict_aborts_witness :
  mergeTrees ∅ (Some laterBase) (Some laterOurs) (Some laterTheirs) st0
  = (Err (MergeConflict "f"), Repo [TreeSha [file "1" "x"; file "2" "y"]] [] ∅).
Proof.
  apply (proj1 merge_conflict_aborts ∅
           (Some laterBase) (Some laterOurs) (Some laterTheirs) st0
           [("d", dir [file "0" "x"] "d"); ("f", file "0" "f")]
           [("d", dir [file "1" "x"] "d"); ("f", file "1" "f")]
           [("d", dir [file "0" "x"; file "2" "y"] "d"); ("f", file "2" "f")]
           ["d"] "f" [] [dir [file "1" "x"; file "2" "y"] "d"]);
    vm_compute; (reflexivity || discriminate).
Defined.

(** C4, as stated, fails: a resolution supplied under the path of a
    nested conflict is not used, and neither is an empty resolution. *)
Lemma resolution_by_path_not_used :
  ({["src/a.txt" := "R"]} : gmap string string) !! "src/a.txt" = Some "R"
  ∧ mergeTrees {["src/a.txt" := "R"]}
      (Some nestedBase) (Some nestedOurs) (Some nestedTheirs) st0
    = (Err (MergeConflict "a.txt"), st0)
  ∧ mergeTrees {["f" := ""]}
      (Some (TreeSha [file "0" "f"])) (Some (TreeSha [file "1" "f"]))
      (Some (TreeSha [file "2" "f"])) st0
    = (Err (MergeConflict "f"), st0).
Proof. split_and!; vm_compute; reflexivity. Qed.

Lemma merge_follows_per_name_rule_witness :
  ∃ bm om tm merged,
    readEntries (Some (TreeSha [file "0" "f"])) st0 = (Ok bm, st0)
    ∧ readEntries (Some (TreeSha [file "1" "f"])) st0 = (Ok om, st0)
    ∧ readEntries (Some (TreeSha [file "2" "f"])) st0 = (Ok tm, st0)
    ∧ entriesOf (Some (TreeSha [file "R" "f"])) = Some merged
    ∧ ∀ p,
        p ∈ Map_keys bm ++ Map_keys om ++ Map_keys tm →
        let base := Map_get p bm in
        let ours := Map_get p om in
        let theirs := Map_get p tm in
        let found := findPath p merged in
        (type <$> ours = Some tree ∨ type <$> theirs = Some tree →
         ∃ s1 s2 sub,
           mergeTrees {["f" := "R"]} (oid <$> base) (oid <$> ours)
             (oid <$> theirs) s1 = (Ok sub, s2)
           ∧ found = (λ s, Entry "040000" p s tree) <$> sub)
        ∧ (type <$> ours ≠ Some tree → type <$> theirs ≠ Some tree →
           (oid <$> ours = oid <$> theirs → found = ours)
           ∧ (oid <$> ours = oid <$> base → oid <$> theirs ≠ oid <$> base →
              found = theirs)
           ∧ (oid <$> theirs = oid <$> base → oid <$> ours ≠ oid <$> base →
              found = ours)
           ∧ (oid <$> ours ≠ oid <$> theirs → oid <$> ours ≠ oid <$> base →
              oid <$> theirs ≠ oid <$> base →
              ∃ content,
                ({["f" := "R"]} : gmap string string) !! p = Some content
                ∧ content ≠ ""
                ∧ found = Some (Entry "100644" p (BlobSha content) blob)
                ∧ BlobSha content
                  ∈ objects (Repo [BlobSha "R"; TreeSha [file "R" "f"]] [] ∅))).
Proof.
  apply (merge_follows_per_name_rule {["f" := "R"]}
           (Some (TreeSha [file "0" "f"])) (Some (TreeSha [file "1" "f"]))
           (Some (TreeSha [file "2" "f"])) st0 (Some (TreeSha [file "R" "f"]))
           (Repo [BlobSha "R"; TreeSha [file "R" "f"]] [] ∅)).
  vm_compute. reflexivity.
Defined.

(** ** Removals *)


Lemma remove_failure_leaves_repository_witness :
  removeTreeEntry (TreeSha [dir [file "0" "b"] "a"]) ["a"; "c"] st0
  = (Err (SegmentNotFound "c" (TreeSha [file "0" "b"])), st0).
Proof.
  apply (proj1 (remove_failure_leaves_repository
                  (TreeSha [dir [file "0" "b"] "a"]) ["a"] [file "0" "b"] "c" []
                  st0 eq_refl)).
  reflexivity.
Defined.

(** ** Fast-forward and no-op merges *)

(** C7, as stated, fails for some pairs of trees: when [T] turns a
    directory of [B] into a file the merge stops with the library's type
    error; when [T] only changes the mode of a file the fast-forward
    merge returns [B]; and when [T] is the empty tree the merge returns
    [null]. *)
Lemma fast_forward_fails_on_some_trees :
  mergeTrees ∅ (Some (TreeSha [dir [file "0" "x"] "a"]))
    (Some (TreeSha [dir [file "0" "x"] "a"])) (Some (TreeSha [file "1" "a"])) st0
  = (Err (ObjectTypeError (BlobSha "1")), st0)
  ∧ mergeTrees ∅ (Some (TreeSha [file "0" "run.sh"]))
      (Some (TreeSha [file "0" "run.sh"])) (Some (TreeSha [exe "0" "run.sh"])) st0
    = (Ok (Some (TreeSha [file "0" "run.sh"])),
       Repo [TreeSha [file "0" "run.sh"]] [] ∅)
  ∧ TreeSha [file "0" "run.sh"] ≠ TreeSha [exe "0" "run.sh"]
  ∧ mergeTrees ∅ (Some (TreeSha [file "0" "f"])) (Some (TreeSha [file "0" "f"]))
      (Some emptyTree) st0
    = (Ok None, st0).
Proof. split_and!; try (vm_compute; reflexivity). discriminate. Qed.

Lemma merge_fast_forward_and_no_op_witness :
  (agree true (TreeSha [dir [file "0" "x"; file "1" "y"] "d"; file "0" "f"])
     (TreeSha [dir [file "0" "x"; file "2" "z"] "d"; exe "3" "f"; file "4" "g"])
   = true →
   ∃ st', mergeTrees ∅
            (Some (TreeSha [dir [file "0" "x"; file "1" "y"] "d"; file "0" "f"]))
            (Some (TreeSha [dir [file "0" "x"; file "1" "y"] "d"; file "0" "f"]))
            (Some (TreeSha [dir [file "0" "x"; file "2" "z"] "d"; exe "3" "f";
                            file "4" "g"])) st0
          = (Ok (Some (TreeSha [dir [file "0" "x"; file "2" "z"] "d";
                                exe "3" "f"; file "4" "g"])), st'))
  ∧ ∃ st', mergeTrees ∅
             (Some (TreeSha [dir [file "0" "x"; file "1" "y"] "d"; file "0" "f"]))
             (Some (TreeSha [dir [file "0" "x"; file "2" "z"] "d"; exe "3" "f";
                             file "4" "g"]))
             (Some (TreeSha [dir [file "0" "x"; file "1" "y"] "d"; file "0" "f"]))
             st0
           = (Ok (Some (TreeSha [dir [file "0" "x"; file "2" "z"] "d";
                                 exe "3" "f"; file "4" "g"])), st').
Proof.
  apply (merge_fast_forward_and_no_op ∅
           [dir [file "0" "x"; file "1" "y"] "d"; file "0" "f"]
           [dir [file "0" "x"; file "2" "z"] "d"; exe "3" "f"; file "4" "g"] st0);
    (vm_compute; reflexivity) || discriminate.
Defined.

(** ** Reading back and removing what an upsert wrote *)

(** C8, as stated, fails for the paths under a directory that the upsert
    replaces with the blob: they are not on the line from the root to the
    leaf, and they are gone.  It fails, too, for a path with a name the
    parser refuses: the upsert of [./README.md] succeeds, and the read
    of that path in the tree it wrote throws. *)
Lemma upsert_replaces_directory_contents :
  resolveBlobParts (TreeSha [dir [file "0" "b"] "a"]) ["a"; "b"] st0
  = (Ok (Target (BlobSha "0") (Some "100644") blob), st0)
  ∧ ¬ ["a"; "b"] `prefix_of` ["a"]
  ∧ upsertTree (Some (TreeSha [dir [file "0" "b"] "a"])) ["a"] (BlobSha "X") st0
    = (Ok (TreeSha [file "X" "a"]), Repo [TreeSha [file "X" "a"]] [] ∅)
  ∧ resolveBlobParts (TreeSha [file "X" "a"]) ["a"; "b"] st0
    = (Err (PathIsFile "a"), st0)
  ∧ upsertTree (Some (TreeSha [file "1" "z"])) ["."; "README.md"]
      (BlobSha "X") st0
    = (Ok dotTree, Repo [TreeSha [file "X" "README.md"]; dotTree] [] ∅)
  ∧ resolveBlobParts dotTree ["."; "README.md"] st0
    = (Err (UnsafeFilepathError dotTree), st0).
Proof.
  split_and!; try (vm_compute; reflexivity).
  intros [k Hk]. by destruct k.
Qed.

Lemma upsert_round_trip_and_frame_witness :
  resolveBlobParts
    (TreeSha [dir [file "X" "b"; file "1" "c"] "a"; file "2" "z"]) ["a"; "b"] st0
  = (Ok (Target (BlobSha "X") (Some "100644") blob), st0).
Proof.
  refine (proj1 (proj1 (upsert_round_trip_and_frame
                          (Some (TreeSha [dir [file "1" "c"] "a"; file "2" "z"]))
                          ["a"; "b"] (BlobSha "X") st0
                          (TreeSha [dir [file "X" "b"; file "1" "c"] "a";
                                    file "2" "z"])
                          (Repo [TreeSha [file "X" "b"; file "1" "c"];
                                 TreeSha [dir [file "X" "b"; file "1" "c"] "a";
                                          file "2" "z"]] [] ∅)
                          _ _) _) st0);
    vm_compute; reflexivity.
Defined.

(** C9, as stated, fails for a tree with an empty directory: the upsert
    of [d/f] fills the directory [d], the removal of [d/f] empties it
    again and prunes it, and the tree that comes out is the empty tree,
    not the tree with the empty directory.  It fails, too, for a path
    with a name the parser refuses: the removal cannot read the tree the
    upsert of [./README.md] wrote. *)
Lemma remove_after_upsert_prunes_more :
  resolveBlobParts (TreeSha [dir [] "d"]) ["d"; "f"] st0
  = (Err (PathNotFound "f"), st0)
  ∧ upsertTree (Some (TreeSha [dir [] "d"])) ["d"; "f"] (BlobSha "X") st0
    = (Ok (TreeSha [dir [file "X" "f"] "d"]),
       Repo [TreeSha [file "X" "f"]; TreeSha [dir [file "X" "f"] "d"]] [] ∅)
  ∧ (r ← removeTreeEntry (TreeSha [dir [file "X" "f"] "d"]) ["d"; "f"];
     match r with
     | None => writeTree []
     | Some s => mret s
     end) st0
    = (Ok emptyTree, Repo [emptyTree] [] ∅)
  ∧ emptyTree ≠ TreeSha [dir [] "d"]
  ∧ resolveBlobParts (TreeSha [file "1" "z"]) ["."; "README.md"] st0
    = (Err (PathNotFound "."), st0)
  ∧ upsertTree (Some (TreeSha [file "1" "z"])) ["."; "README.md"]
      (BlobSha "X") st0
    = (Ok dotTree, Repo [TreeSha [file "X" "README.md"]; dotTree] [] ∅)
  ∧ removeTreeEntry dotTree ["."; "README.md"] st0
    = (Err (UnsafeFilepathError dotTree), st0).
Proof. split_and!; try (vm_compute; reflexivity). discriminate. Qed.

Lemma remove_after_upsert_witness :
  ∃ T' st1,
    upsertTree (Some (TreeSha [dir [file "1" "c"] "a"; file "2" "z"]))
      ["a"; "b"; "d"] (BlobSha "X") st0 = (Ok T', st1)
    ∧ ∀ st2, ∃ st3,
        (r ← removeTreeEntry T' ["a"; "b"; "d"];
         match r with
         | None => writeTree []
         | Some s => mret s
         end) st2
        = (Ok (TreeSha [dir [file "1" "c"] "a"; file "2" "z"]), st3).
Proof.
  destruct (remove_after_upsert
              (TreeSha [dir [file "1" "c"] "a"; file "2" "z"]) ["a"; "b"; "d"]
              (BlobSha "X") st0 "b")
    as (T' & st1 & Hup & Hback & _); [vm_compute; reflexivity..|].
  exists T', st1. split; [exact Hup|]. apply Hback. vm_compute; reflexivity.
Defined.

(** ** The modes of the entries written *)



(** ** Further properties of the scripts *)

Lemma removeTreeEntry_follows_resolveBlobParts_witness :
  removeTreeEntry (TreeSha [dir [file "0" "b"] "a"; file "1" "z"])
    ["z"; "b"] st0
  = (Err (NotADirectory "z"), st0).
Proof.
  refine (removeTreeEntry_follows_resolveBlobParts
            (TreeSha [dir [file "0" "b"] "a"; file "1" "z"]) ["z"; "b"] st0 _).
  discriminate.
Defined.

Lemma removed_path_is_not_found_witness :
  ∃ r st',
    removeTreeEntry (TreeSha [dir [file "0" "b"] "a"; file "1" "z"])
      ["a"; "b"] st0 = (Ok r, st')
    ∧ ∃ part,
        resolveBlobParts (default emptyTree r) ["a"; "b"] st0
        = (Err (PathNotFound part), st0).
Proof.
  eexists _, _. split; [vm_compute; reflexivity|].
  refine (removed_path_is_not_found
            (TreeSha [dir [file "0" "b"] "a"; file "1" "z"]) ["a"; "b"] st0
            _ _ st0 _ _);
    vm_compute; reflexivity.
Defined.

Lemma remove_keeps_the_other_paths_witness :
  ∃ r st',
    removeTreeEntry
      (TreeSha [dir [file "0" "b"; file "1" "c"] "a"; file "2" "z"])
      ["a"; "b"] st0 = (Ok r, st')
    ∧ (resolveBlobParts (default emptyTree r) ["a"; "c"] st0
       = (Ok (Target (BlobSha "1") (Some "100644") blob), st0)
       ↔ resolveBlobParts
           (TreeSha [dir [file "0" "b"; file "1" "c"] "a"; file "2" "z"])
           ["a"; "c"] st0
         = (Ok (Target (BlobSha "1") (Some "100644") blob), st0)).
Proof.
  eexists _, _. split; [vm_compute; reflexivity|].
  refine (remove_keeps_the_other_paths
            (TreeSha [dir [file "0" "b"; file "1" "c"] "a"; file "2" "z"])
            ["a"; "b"] st0 _ _ ["a"; "c"] _ st0 _ _ _); [vm_compute; reflexivity..|].
  split; intros [k Hk]; discriminate Hk.
Defined.

Lemma remove_keeps_trees_well_formed_witness :
  ∃ r st',
    removeTreeEntry
      (TreeSha [dir [file "0" "b"; file "1" "c"] "a"; file "2" "z"])
      ["a"; "b"] st0 = (Ok r, st')
    ∧ wf (default emptyTree r) = true ∧ r ≠ Some emptyTree.
Proof.
  eexists _, _. split; [vm_compute; reflexivity|].
  refine (remove_keeps_trees_well_formed
            (TreeSha [dir [file "0" "b"; file "1" "c"] "a"; file "2" "z"])
            ["a"; "b"] st0 _ _ _ _);
    vm_compute; reflexivity.
Defined.

Lemma upsert_keeps_trees_well_formed_witness :
  ∃ T' st',
    upsertTree (Some (TreeSha [dir [file "1" "c"] "a"; file "2" "z"]))
      ["a"; "b"] (BlobSha "X") st0 = (Ok T', st')
    ∧ wf T' = true ∧ T' ≠ emptyTree.
Proof.
  eexists _, _. split; [vm_compute; reflexivity|].
  refine (upsert_keeps_trees_well_formed
            (Some (TreeSha [dir [file "1" "c"] "a"; file "2" "z"]))
            ["a"; "b"] "X" st0 _ _ _ _ _); vm_compute; reflexivity.
Defined.

Lemma upsert_fails_only_at_a_file_witness :
  st0 = st0
  ∧ ∃ c, fileInTheWay (TreeSha [dir [file "1" "c"] "a"; file "2" "z"])
           ["a"; "c"; "d"] c
         ∧ ObjectTypeError (BlobSha "1") = ObjectTypeError (BlobSha c).
Proof.
  refine (upsert_fails_only_at_a_file [dir [file "1" "c"] "a"; file "2" "z"]
            ["a"; "c"; "d"] (BlobSha "X") st0 _ _);
    [vm_compute; reflexivity|discriminate].
Defined.

Lemma upsert_twice_changes_nothing_witness :
  ∃ T' st',
    upsertTree (Some (TreeSha [dir [file "1" "c"] "a"; file "2" "z"]))
      ["a"; "b"] (BlobSha "X") st0 = (Ok T', st')
    ∧ upsertTree (Some T') ["a"; "b"] (BlobSha "X") st' = (Ok T', st').
Proof.
  eexists _, _. split; [vm_compute; reflexivity|].
  refine (upsert_twice_changes_nothing
            (Some (TreeSha [dir [file "1" "c"] "a"; file "2" "z"]))
            ["a"; "b"] (BlobSha "X") st0 _ _ _ _ _); vm_compute; reflexivity.
Defined.

Lemma merge_gives_a_well_formed_tree_witness :
  ∃ T st',
    mergeTrees ∅ (Some (TreeSha [file "0" "f"])) (Some (TreeSha [file "1" "f"]))
      (Some (TreeSha [file "0" "f"; file "2" "g"])) st0 = (Ok (Some T), st')
    ∧ wf T = true ∧ T ≠ emptyTree.
Proof.
  eexists _, _. split; [vm_compute; reflexivity|].
  refine (merge_gives_a_well_formed_tree ∅
            (Some (TreeSha [file "0" "f"])) (Some (TreeSha [file "1" "f"]))
            (Some (TreeSha [file "0" "f"; file "2" "g"])) st0 (Some _) _
            _ _ _ _); vm_compute; reflexivity.
Defined.






Lemma refused_name_leaves_the_tree_unreadable_witness :
  resolveBlobParts dotTree ["z"] st0 = (Err (UnsafeFilepathError dotTree), st0).
Proof.
  edestruct (refused_name_leaves_the_tree_unreadable
               (Some (TreeSha [file "1" "z"])) "." ["README.md"] (BlobSha "X")
               st0 dotTree) as (_ & _ & Hread & _); [vm_compute; reflexivity..|].
  apply Hread. discriminate.
Defined.

Lemma read_file_after_add_file_deep_witness :
  ∃ c st',
    add_file_deep "main" "src/a.txt" "2" 7 id history = (Ok c, st')
    ∧ read_file "main" "src/a.txt" st' = (Done (shown "2"), st').
Proof.
  eexists _, _. split; [vm_compute; reflexivity|].
  refine (read_file_after_add_file_deep "main" "src/a.txt" "2" 7 id history _ _
            _ _ _ _ _); vm_compute; reflexivity.
Defined.

Lemma read_file_after_remove_file_deep_witness :
  ∃ c st',
    remove_file_deep "main" "f" 7 id history = (Ok c, st')
    ∧ ∃ part,
        read_file "main" "f" st' = (Failed (Thrown (PathNotFound part)), st').
Proof.
  eexists _, _. split; [vm_compute; reflexivity|].
  refine (read_file_after_remove_file_deep "main" "f" 7 id history _ _ _ _ _ _);
    try (vm_compute; reflexivity).
  intros parentSha Hp. vm_compute in Hp. injection Hp as <-.
  vm_compute. reflexivity.
Defined.

Lemma resolveTreeSha_like_resolveBlobEntry_witness :
  resolveTreeSha (TreeSha [dir [file "0" "b"] "a"]) "a/b/" st0
  = (Done (BlobSha "0", blob), st0).
Proof.
  refine (resolveTreeSha_like_resolveBlobEntry
            (TreeSha [dir [file "0" "b"] "a"]) "a/b/" st0 _ _ _); discriminate.
Defined.


Lemma list_files_after_add_file_deep_witness :
  ∃ c st',
    add_file_deep "main" "src/a.txt" "2" 7 id history = (Ok c, st')
    ∧ ∃ rows,
        list_files "main" "src" st' = (Done (Contents rows), st')
        ∧ Row "100644" blob (BlobSha "2") "a.txt" ∈ rows.
Proof.
  eexists _, _. split; [vm_compute; reflexivity|].
  refine (list_files_after_add_file_deep "main" "src/a.txt" "2" 7 id history _ _
            "src" "a.txt" _ _ _ _ _); vm_compute; reflexivity.
Defined.
